(** * Probabilistic reconciliation samplers of [hierarchicalforecast]

    A shallow embedding of [hierarchicalforecast/probabilistic_methods.py]
    (classes [Normality], [Bootstrap] and [PERMBU]).

    Conventions of the embedding.
    - A numpy array of float64 is a list (of lists (of lists)) of exact
      rationals [Q]; equality of computed numbers is [Qeq].  Rounding is
      not modelled, nor are the infinities: an equality proved of computed
      numbers is an equality of exact arithmetic.  (The two bounds of
      [Normality.get_prediction_levels] are also given in binary64, in
      [Float64], to show what the rounding does to them.)  A missing value
      (NaN) of the in-sample arrays is [None]; the other arrays hold numbers
      only.
    - A 2-D array is the list of its rows, all of one length; its shape is
      ([length], [ncols]).  An array without rows has no column count in
      this representation ([ncols []] is 0), so the arrays of shape (0, b)
      with b > 0 are outside the model.  Element-wise operations are
      defined on arrays of one shape and raise ValueError otherwise:
      numpy's broadcasting of unequal shapes is not modelled, and where
      numpy would broadcast the model raises.
    - A Python exception is the [Raise] branch of [outcome]; [None] passed
      for [num_samples] is the [None] of [option nat].
    - The result dictionary [res] is a [gmap] from keys to arrays; a level
      is an integer, printed in decimal in the keys ['lo-80'], ['hi-80'].
    - The generators of [numpy.random] are an interface ([Generator]): the
      generator a method builds with [np.random.RandomState(self.seed)] is
      [RandomState seed], and numpy's module-level generator, which
      [np.random.choice] and [np.random.permutation] draw from, is an
      explicit argument of the methods that use it.
    - The routines imported from numpy and scipy are the interface
      [Numerics], the two helpers imported from the package's [utils] module
      the interface [Utils].  The module [utils] is not among the sources;
      where a statement depends on what the helpers answer, they are
      modelled from the specification ([Modelled]). *)

From Corelib Require Import PrimFloat.
From Stdlib Require Import QArith Qround Lia Lra Psatz Sorted.
From stdpp Require Import base list gmap strings pretty.

(** ** Exceptions *)

Inductive exn := ValueError | TypeError | IndexError | KeyError | AxisError.

Inductive outcome (A : Type) :=
| Ok (a : A)
| Raise (e : exn).
Arguments Ok {A} a.
Arguments Raise {A} e.

#[global] Instance outcome_ret : MRet outcome := @Ok.
#[global] Instance outcome_bind : MBind outcome := fun A B f m =>
  match m with Ok a => f a | Raise e => Raise e end.
#[global] Instance outcome_fmap : FMap outcome := fun A B f m =>
  match m with Ok a => Ok (f a) | Raise e => Raise e end.

Definition raises {A} (m : outcome A) : Prop := exists e, m = Raise e.

(** [mapM f l]: run [f] on every element, left to right, stopping at the
    first exception (a Python list comprehension or [for] loop). *)
Fixpoint mapM {A B} (f : A -> outcome B) (l : list A) : outcome (list B) :=
  match l with
  | [] => Ok []
  | x :: l' => y ← f x; ys ← mapM f l'; Ok (y :: ys)
  end.

(** ** Arrays *)

Abbreviation vector := (list Q).
Abbreviation matrix := (list (list Q)).
(** [series][horizon][samples] *)
Abbreviation tensor := (list (list (list Q))).

(** [M.shape[1]] of an array with at least one row. *)
Definition ncols {A} (M : list (list A)) : nat :=
  match M with [] => 0 | r :: _ => length r end.

Definition tabulate {A} (n : nat) (f : nat -> A) : list A := map f (seq 0 n).

(** [r[j]] for an index known to be in range. *)
Definition at_ (r : vector) (j : nat) : Q := nth j r 0%Q.

(** [M[:, j]] *)
Definition col (j : nat) (M : matrix) : vector := map (fun r => at_ r j) M.

(** [M.T] *)
Definition transpose (M : matrix) : matrix := tabulate (ncols M) (fun j => col j M).

Definition dot (u v : vector) : Q := foldr Qplus 0%Q (zip_with Qmult u v).

(** [M @ v] for a 1-D [v] *)
Definition matvec (M : matrix) (v : vector) : vector := map (fun r => dot r v) M.

(** [v @ M] for a 1-D [v] *)
Definition vecmat (v : vector) (M : matrix) : vector :=
  tabulate (ncols M) (fun j => dot v (col j M)).

Definition matmul_raw (A B : matrix) : matrix := map (fun r => vecmat r B) A.

(** [A @ B]: numpy raises ValueError on an inner-dimension mismatch. *)
Definition matmul (A B : matrix) : outcome matrix :=
  if ncols A =? length B then Ok (matmul_raw A B) else Raise ValueError.

(** [M @ v]: numpy raises ValueError on a dimension mismatch. *)
Definition matvec_chk (M : matrix) (v : vector) : outcome vector :=
  if ncols M =? length v then Ok (matvec M v) else Raise ValueError.

Definition same_shape {A B} (X : list (list A)) (Y : list (list B)) : bool :=
  (length X =? length Y) && (ncols X =? ncols Y).

(** Element-wise binary operation of two 2-D arrays of one shape. *)
Definition ew2 {A B C} (f : A -> B -> C) (X : list (list A)) (Y : list (list B))
  : outcome (list (list C)) :=
  if same_shape X Y then Ok (zip_with (zip_with f) X Y) else Raise ValueError.

Definition vadd (u v : vector) : vector := zip_with Qplus u v.
Definition mscale (z : Q) (M : matrix) : matrix := map (map (Qmult z)) M.

(** [np.diag(v)] of a 1-D array. *)
Definition diag_of (v : vector) : matrix :=
  tabulate (length v) (fun i => tabulate (length v) (fun j => if i =? j then at_ v i else 0%Q)).

(** [np.diag(M)] of a 2-D array. *)
Definition diagonal (M : matrix) : vector :=
  tabulate (Nat.min (length M) (ncols M)) (fun i => at_ (nth i M []) i).

Definition identity (n : nat) : matrix :=
  tabulate n (fun i => tabulate n (fun j => if i =? j then 1%Q else 0%Q)).

(** [X.transpose((1, 2, 0))] of an array of shape (len X, b, c): axes
    [a][b][c] become [b][c][a]. *)
Definition transpose_120 (b c : nat) (X : tensor) : tensor :=
  tabulate b (fun i => tabulate c (fun t => map (fun Xa => at_ (nth i Xa []) t) X)).

Definition has_shape3 (X : tensor) (a b c : nat) : Prop :=
  length X = a /\ Forall (fun r => length r = b /\ Forall (fun s => length s = c) r) X.

(** ** In-sample residuals with missing values *)

Definition sub_nan (a b : option Q) : option Q :=
  match a, b with Some x, Some y => Some (x - y)%Q | _, _ => None end.

Definition isnan (x : option Q) : bool :=
  match x with None => true | Some _ => false end.

(** [np.isnan(R).sum(axis=0) == 0], one boolean per column. *)
Definition complete_column (R : list (list (option Q))) (j : nat) : bool :=
  length (filter (fun x => isnan x = true) (map (fun r => nth j r None) R)) =? 0.

Definition kept_columns (R : list (list (option Q))) : list nat :=
  filter (fun j => complete_column R j = true) (seq 0 (ncols R)).

Definition finite_part (x : option Q) : Q :=
  match x with Some q => q | None => 0%Q end.

(** [R[:, np.isnan(R).sum(axis=0) == 0]]: every entry left is finite. *)
Definition drop_nan_columns (R : list (list (option Q))) : matrix :=
  map (fun r => map (fun j => finite_part (nth j r None)) (kept_columns R)) R.

(** [y_insample - y_hat_insample] followed by the column mask; the second
    component is [residuals.shape[1]]. *)
Definition residuals_of (y_insample y_hat_insample : list (list (option Q)))
  : outcome (matrix * nat) :=
  R ← ew2 sub_nan y_insample y_hat_insample;
  Ok (drop_nan_columns R, length (kept_columns R)).

(** ** External numeric routines *)

(** What the file imports from numpy and scipy: [np.sqrt],
    [scipy.stats.norm.ppf], and the factor [sqrt(s)[:, None] * v] that
    [multivariate_normal] builds from the singular value decomposition of
    [cov]. *)
Class Numerics := {
  sqrtQ : Q -> Q;
  ppf : Q -> Q;
  svd_factor : matrix -> matrix;
}.

(** [from .utils import is_strictly_hierarchical, cov2corr]: the two helpers
    of the package's [utils] module, which this file only calls. *)
Class Utils := {
  is_strictly_hierarchical : matrix -> gmap string (list nat) -> bool;
  cov2corr : matrix -> outcome matrix;
}.

(** The facts about them that hold in exact arithmetic. *)
Record NumericsLaws (N : Numerics) : Prop := {
  sqrtQ_nonneg : forall x, (0 <= sqrtQ x)%Q;
  ppf_mono : forall p q, (0 < p)%Q -> (p <= q)%Q -> (q < 1)%Q -> (ppf p <= ppf q)%Q;
  (** a draw lies in the row space of [cov] *)
  svd_factor_range : forall cov z,
    length z = length cov ->
    exists w, length w = length cov /\
      Forall2 Qeq (vecmat z (svd_factor cov)) (vecmat w cov);
  svd_factor_ncols : forall cov, ncols (svd_factor cov) = ncols cov;
}.

(** ** numpy.random *)

(** The legacy generator: a state, its seeding, one standard normal draw
    ([legacy_gauss]) and one uniform integer of [[0, max]] ([rk_interval]). *)
Class Generator := {
  rng : Type;
  RandomState : Z -> rng;
  rk_gauss : rng -> Q * rng;
  rk_interval : nat -> rng -> nat * rng;
}.

Section Random.
Context {G : Generator} {Nu : Numerics}.

(** [n] successive draws. *)
Fixpoint draws {A} (step : rng -> A * rng) (n : nat) (g : rng) : list A * rng :=
  match n with
  | 0 => ([], g)
  | S n' =>
      let '(x, g1) := step g in
      let '(xs, g2) := draws step n' g1 in
      (x :: xs, g2)
  end.

(** [g.normal(loc, scale, size=n)] *)
Definition normal (loc scale : Q) (n : nat) (g : rng) : vector * rng :=
  draws (fun g => let '(z, g') := rk_gauss g in ((loc + scale * z)%Q, g')) n g.

(** [[g.normal(loc=m, scale=s, size=n) for m, s in ms]] *)
Fixpoint normal_rows (ms : list (Q * Q)) (n : nat) (g : rng) : matrix :=
  match ms with
  | [] => []
  | (m, s) :: ms' => let '(x, g') := normal m s n g in x :: normal_rows ms' n g'
  end.

(** [g.standard_normal((n, d))] *)
Definition standard_normal (n d : nat) (g : rng) : matrix * rng :=
  draws (draws rk_gauss d) n g.

(** [g.choice(a, size)]: a scalar when [size] is None, an array otherwise;
    an empty population is refused unless no sample is taken. *)
Definition choice (a : list nat) (size : option nat) (g : rng)
  : outcome ((nat + list nat) * rng) :=
  let pick g := let '(j, g') := rk_interval (length a - 1) g in (nth j a 0, g') in
  match size with
  | None =>
      if length a =? 0 then Raise ValueError
      else let '(x, g') := pick g in Ok (inl x, g')
  | Some n =>
      if (length a =? 0) && negb (n =? 0) then Raise ValueError
      else let '(xs, g') := draws pick n g in Ok (inr xs, g')
  end.

(** [for idx in samples_idx]: a 0-d result of [choice] is not iterable. *)
Definition iterate (r : nat + list nat) : outcome (list nat) :=
  match r with inl _ => Raise TypeError | inr l => Ok l end.

Definition swap (l : list nat) (i j : nat) : list nat :=
  <[j := nth i l 0]> (<[i := nth j l 0]> l).

(** [g.shuffle(x)]: [for i in reversed(range(1, n)): j = rk_interval(i);
    x[i], x[j] = x[j], x[i]]. *)
Fixpoint shuffle_from (i : nat) (x : list nat) (g : rng) : list nat * rng :=
  match i with
  | 0 => (x, g)
  | S i' =>
      let '(j, g1) := rk_interval i g in
      shuffle_from i' (swap x i j) g1
  end.

(** [g.permutation(np.arange(n))] *)
Definition permutation (n : nat) (g : rng) : list nat * rng :=
  shuffle_from (n - 1) (seq 0 n) g.

(** [g.multivariate_normal(mean, cov, size=n)]: [n] rows
    [mean + z @ (sqrt(s)[:, None] * v)] with [z] standard normal. *)
Definition multivariate_normal (mean : vector) (cov : matrix) (n : nat) (g : rng)
  : outcome (matrix * rng) :=
  if (length cov =? ncols cov) && (length mean =? length cov) then
    let '(z, g') := standard_normal n (length mean) g in
    Ok (map (fun zk => vadd mean (vecmat zk (svd_factor cov))) z, g')
  else Raise ValueError.

End Random.

(** ** np.quantile *)

Fixpoint insert_sorted (x : Q) (l : vector) : vector :=
  match l with
  | [] => [x]
  | y :: l' => if Qle_bool x y then x :: l else y :: insert_sorted x l'
  end.

Definition sortQ (l : vector) : vector := foldr insert_sorted [] l.

Definition in_unit_interval (q : Q) : bool := Qle_bool 0 q && Qle_bool q 1.

(** The default (linear) method on a sorted sample: the virtual index
    [q * (n - 1)], its floor and the next index clipped to the last one, and
    the linear interpolation between the two order statistics. *)
Definition lerp_sorted (s : vector) (q : Q) : Q :=
  let v := (q * inject_Z (Z.of_nat (length s - 1)))%Q in
  let lo := Z.to_nat (Qfloor v) in
  let hi := Nat.min (lo + 1) (length s - 1) in
  let gamma := (v - inject_Z (Qfloor v))%Q in
  (at_ s lo + (at_ s hi - at_ s lo) * gamma)%Q.

Definition quantile_1d (a : vector) (q : Q) : Q := lerp_sorted (sortQ a) q.

(** [np.quantile(samples, q, axis=2)] for a scalar [q]: a probability
    outside [[0, 1]] is refused.  (For an empty sample numpy answers NaN;
    there is no such number here and the model raises.) *)
Definition quantile_axis2 (samples : tensor) (q : Q) : outcome matrix :=
  if negb (in_unit_interval q) then Raise ValueError
  else if forallb (forallb (fun a => negb (length a =? 0))) samples
  then Ok (map (map (fun a => quantile_1d a q)) samples)
  else Raise IndexError.

(** [np.quantile(samples, quantiles, axis=2)] for a 1-D [quantiles]: the
    quantile axis comes first. *)
Definition quantiles_axis2 (samples : tensor) (quantiles : list Q) : outcome tensor :=
  if forallb in_unit_interval quantiles then mapM (quantile_axis2 samples) quantiles
  else Raise ValueError.

(** ** The result mapping *)

Inductive value :=
| Arr2 (m : matrix)
| Arr3 (t : tensor).

(** [res['mean']] *)
Definition get_mean (res : gmap string value) : outcome matrix :=
  match res !! "mean" with
  | None => Raise KeyError
  | Some (Arr2 m) => Ok m
  | Some (Arr3 _) => Raise ValueError
  end.

(** [f'lo-{lv}'] and [f'hi-{lv}'] *)
Definition lo_key (lv : Z) : string := "lo-" +:+ pretty lv.
Definition hi_key (lv : Z) : string := "hi-" +:+ pretty lv.

(** The loop shared by the sample-based samplers:
    [for lv in level: min_q = (100 - lv) / 200; max_q = min_q + lv / 100;
     res[lo] = np.quantile(samples, min_q, axis=2); res[hi] = ...]. *)
Fixpoint levels_from_samples (samples : tensor) (res : gmap string value)
    (level : list Z) : outcome (gmap string value) :=
  match level with
  | [] => Ok res
  | lv :: level' =>
      let min_q := (inject_Z (100 - lv) / 200)%Q in
      let max_q := (min_q + inject_Z lv / 100)%Q in
      lo ← quantile_axis2 samples min_q;
      let res := <[lo_key lv := Arr2 lo]> res in
      hi ← quantile_axis2 samples max_q;
      let res := <[hi_key lv := Arr2 hi]> res in
      levels_from_samples samples res level'
  end.

(** [sample_quantiles = np.quantile(samples, quantiles, axis=2);
     res['quantiles'] = sample_quantiles.transpose((1, 2, 0))] *)
Definition quantiles_from_samples (n_series n_horizon : nat) (samples : tensor)
    (res : gmap string value) (quantiles : list Q) : outcome (gmap string value) :=
  sample_quantiles ← quantiles_axis2 samples quantiles;
  Ok (<["quantiles" := Arr3 (transpose_120 n_series n_horizon sample_quantiles)]> res).

(** [np.hstack([c[:, None] for c in cols])] *)
Definition hstack_columns (cols : list vector) : outcome matrix :=
  match cols with
  | [] => Raise ValueError
  | c :: _ =>
      if forallb (fun c' => length c' =? length c) cols
      then Ok (tabulate (length c) (fun i => map (fun c' => at_ c' i) cols))
      else Raise ValueError
  end.

(** [l[t]] of a Python list. *)
Definition list_item {A} (l : list A) (t : nat) : outcome A :=
  match l !! t with Some x => Ok x | None => Raise IndexError end.

(** ** class Normality *)

Module Normality.
Section Defs.
Context {G : Generator} {Nu : Numerics} {U : Utils}.

Record self := {
  S : matrix;
  P : matrix;
  y_hat : matrix;
  SP : matrix;
  W : matrix;
  sigmah : matrix;
  seed : Z;
  cov_rec : list matrix;
  sigmah_rec : matrix;
}.

Definition __init__ (S P y_hat sigmah W : matrix) (seed : Z) : outcome self :=
  SP ← matmul S P;
  R1 ← cov2corr W;
  Wh ← mapM (fun sigma =>
               DR ← matmul (diag_of sigma) R1;
               matmul DR (transpose (diag_of sigma)))
            (transpose sigmah);
  cov_rec ← mapM (fun Wt => SW ← matmul SP Wt; matmul SW (transpose SP)) Wh;
  sigmah_rec ← hstack_columns (map (fun cov => map sqrtQ (diagonal cov)) cov_rec);
  Ok {| S := S; P := P; y_hat := y_hat; SP := SP; W := W; sigmah := sigmah;
        seed := seed; cov_rec := cov_rec; sigmah_rec := sigmah_rec |}.

(** The body of the [for t in range(n_horizon)] loop, from step [t] on, with
    the generator [state] threaded through the draws: the list of the
    [partial_samples], one (num_samples, n_series) array per step.  The
    assignment to [samples[:, :, t]] needs one column per series (numpy
    would also broadcast a single column). *)
Fixpoint draw_steps (me : self) (n : nat) (ts : list nat) (state : rng)
  : outcome (list matrix) :=
  match ts with
  | [] => Ok []
  | t :: ts' =>
      mean ← matvec_chk (SP me) (col t (y_hat me));
      cov ← list_item (cov_rec me) t;
      '(partial_samples, state') ← multivariate_normal mean cov n state;
      (* samples[:, :, t] = partial_samples *)
      if length mean =? length (y_hat me) then
        rest ← draw_steps me n ts' state';
        Ok (partial_samples :: rest)
      else Raise ValueError
  end.

Definition get_samples (me : self) (num_samples : option nat) : outcome tensor :=
  let state := RandomState (seed me) in
  let n_series := length (y_hat me) in
  let n_horizon := ncols (y_hat me) in
  match num_samples with
  | None => Raise TypeError  (* np.empty(shape=(None, ...)) *)
  | Some n =>
      partials ← draw_steps me n (seq 0 n_horizon) state;
      let samples : tensor :=
        tabulate n (fun k => tabulate n_series (fun i => tabulate n_horizon (fun t =>
          at_ (nth k (nth t partials []) []) i))) in
      (* [samples, N, H] -> [N, H, samples] *)
      Ok (transpose_120 n_series n_horizon samples)
  end.

(** [for zs, lv in zip(z, level)] with [z = norm.ppf(0.5 + level / 200)],
    for a ['mean'] of the shape of [sigmah_rec] (numpy would also broadcast
    unequal shapes that fit). *)
Fixpoint levels_loop (me : self) (res : gmap string value) (level : list Z)
  : outcome (gmap string value) :=
  match level with
  | [] => Ok res
  | lv :: level' =>
      let zs := ppf ((1 # 2) + inject_Z lv / 200)%Q in
      mean ← get_mean res;
      lo ← ew2 Qminus mean (mscale zs (sigmah_rec me));
      let res := <[lo_key lv := Arr2 lo]> res in
      mean ← get_mean res;
      hi ← ew2 Qplus mean (mscale zs (sigmah_rec me));
      let res := <[hi_key lv := Arr2 hi]> res in
      levels_loop me res level'
  end.

Definition get_prediction_levels (me : self) (res : gmap string value) (level : list Z)
  : outcome (gmap string value) :=
  let res := <["sigmah" := Arr2 (sigmah_rec me)]> res in
  levels_loop me res level.

(** [res['mean'][:, :, None] + z[None, None, :] * sigmah_rec[:, :, None]],
    for a ['mean'] of the shape of [sigmah_rec]. *)
Definition get_prediction_quantiles (me : self) (res : gmap string value)
    (quantiles : list Q) : outcome (gmap string value) :=
  let z := map ppf quantiles in
  let res := <["sigmah" := Arr2 (sigmah_rec me)]> res in
  mean ← get_mean res;
  q ← ew2 (fun m s => map (fun zq => (m + zq * s)%Q) z) mean (sigmah_rec me);
  Ok (<["quantiles" := Arr3 q]> res).

End Defs.
End Normality.

(** ** class Bootstrap *)

Module Bootstrap.
Section Defs.
Context {G : Generator}.

Record self := {
  S : matrix;
  P : matrix;
  W : option matrix;
  y_hat : matrix;
  y_insample : list (list (option Q));
  y_hat_insample : list (list (option Q));
  num_samples : option nat;
  seed : Z;
}.

Definition __init__ (S P y_hat : matrix) (y_insample y_hat_insample : list (list (option Q)))
    (num_samples : option nat) (seed : Z) (W : option matrix) : outcome self :=
  Ok {| S := S; P := P; W := W; y_hat := y_hat; y_insample := y_insample;
        y_hat_insample := y_hat_insample; num_samples := num_samples; seed := seed |}.

(** [np.apply_along_axis(lambda path: np.matmul(SP, path), axis=1, arr=samples)]
    on the list of the (N, h) sample paths: an empty list is a 1-D array and
    has no axis 1; an empty iteration dimension is refused; every column of
    every path is multiplied by [SP]. *)
Definition apply_along_axis_1 (SP : matrix) (h : nat) (samples : list matrix)
  : outcome (list matrix) :=
  match samples with
  | [] => Raise AxisError
  | _ :: _ =>
      if h =? 0 then Raise ValueError
      else mapM (fun path =>
                   cols ← mapM (matvec_chk SP) (transpose path);
                   Ok (transpose cols)) samples
  end.

Definition get_samples (me : self) (num_samples : option nat) : outcome tensor :=
  '(residuals, T) ← residuals_of (y_insample me) (y_hat_insample me);
  let h := ncols (y_hat me) in
  let sample_idx := seq 0 (T - h) in
  let state := RandomState (seed me) in
  '(samples_idx, _) ← choice sample_idx num_samples state;
  samples_idx ← iterate samples_idx;
  samples ← mapM (fun idx => ew2 Qplus (y_hat me) (map (fun r => take h (drop idx r)) residuals))
                 samples_idx;
  SP ← matmul (S me) (P me);
  samples ← apply_along_axis_1 SP h samples;
  (* [samples, N, H] -> [N, H, samples] *)
  Ok (transpose_120 (length SP) h samples).

Definition get_prediction_levels (me : self) (res : gmap string value) (level : list Z)
  : outcome (gmap string value) :=
  samples ← get_samples me (num_samples me);
  levels_from_samples samples res level.

Definition get_prediction_quantiles (me : self) (res : gmap string value)
    (quantiles : list Q) : outcome (gmap string value) :=
  samples ← get_samples me (num_samples me);
  quantiles_from_samples (length samples) (ncols samples) samples res quantiles.

End Defs.
End Bootstrap.

(** ** class PERMBU *)

(** [np.unique]: the sorted distinct elements. *)
Fixpoint insert_unique {A} (ltb : A -> A -> bool) (x : A) (l : list A) : list A :=
  match l with
  | [] => [x]
  | y :: l' =>
      if ltb x y then x :: l
      else if ltb y x then y :: insert_unique ltb x l'
      else l
  end.

Definition unique {A} (ltb : A -> A -> bool) (l : list A) : list A :=
  foldr (insert_unique ltb) [] l.

Definition pair_ltb (x y : nat * nat) : bool :=
  (x.1 <? y.1) || ((x.1 =? y.1) && (x.2 <? y.2)).

(** [row.argsort()]: the indices of [row] in increasing order of value.
    numpy's default sort is not stable: it leaves the order of equal values
    unspecified.  Here equal values are in index order, one of the orders
    numpy may give; the theorems about ranks rest only on the result being a
    permutation of the indices that sorts the row. *)
Fixpoint insert_index (row : vector) (i : nat) (l : list nat) : list nat :=
  match l with
  | [] => [i]
  | j :: l' =>
      if Qle_bool (at_ row j) (at_ row i) then j :: insert_index row i l' else i :: l
  end.

Definition argsort (row : vector) : list nat :=
  foldl (fun acc i => insert_index row i acc) [] (seq 0 (length row)).

(** [OneHotEncoder(sparse=False).fit_transform(X)] for two integer features:
    per row, the indicator of the first feature among its sorted categories
    followed by the indicator of the second. *)
Definition one_hot (cats : list nat) (x : nat) : vector :=
  map (fun c => if c =? x then 1%Q else 0%Q) cats.

Definition fit_transform (X : list (nat * nat)) : matrix :=
  let cats0 := unique Nat.ltb (map fst X) in
  let cats1 := unique Nat.ltb (map snd X) in
  map (fun x => one_hot cats0 x.1 ++ one_hot cats1 x.2) X.

(** [np.einsum('ab,bhs->ahs', Agg, X)] *)
Definition einsum_ab_bhs (Agg : matrix) (X : tensor) : outcome tensor :=
  if ncols Agg =? length X then
    Ok (tabulate (length Agg) (fun a =>
          tabulate (ncols X) (fun h =>
            tabulate (ncols (nth 0 X [])) (fun s =>
              dot (nth a Agg []) (map (fun Xb => at_ (nth h Xb []) s) X)))))
  else Raise ValueError.

(** [np.vstack(rows)] of 1-D arrays. *)
Definition vstack {A} (rows : list (list A)) : outcome (list (list A)) :=
  match rows with
  | [] => Raise ValueError
  | r :: _ =>
      if forallb (fun r' => length r' =? length r) rows then Ok rows
      else Raise ValueError
  end.

(** [X[idxs, ...]]: rows picked by an integer index array. *)
Definition take_rows {A} (X : list A) (idxs : list nat) : outcome (list A) :=
  mapM (list_item X) idxs.

(** [X[idxs, ...] = Y]: rows overwritten through an integer index array. *)
Fixpoint put_rows {A} (X : list A) (idxs : list nat) (Y : list A) : outcome (list A) :=
  match idxs, Y with
  | i :: idxs', y :: Y' =>
      if i <? length X then put_rows (<[i := y]> X) idxs' Y' else Raise IndexError
  | [], [] => Ok X
  | _, _ => Raise ValueError
  end.

(** [num_samples > bound] for an optional integer: Python 3 does not order
    None and an int. *)
Definition py_gt (num_samples : option nat) (bound : nat) : outcome bool :=
  match num_samples with
  | None => Raise TypeError
  | Some n => Ok (bound <? n)
  end.

Module PERMBU.
Section Defs.
Context {G : Generator} {U : Utils}.

Record self := {
  S : matrix;
  P : option matrix;
  y_hat : matrix;
  y_insample : list (list (option Q));
  y_hat_insample : list (list (option Q));
  sigmah : matrix;
  num_samples : option nat;
  seed : Z;
}.

Definition __init__ (S : matrix) (tags : gmap string (list nat)) (y_hat : matrix)
    (y_insample y_hat_insample : list (list (option Q))) (sigmah : matrix)
    (num_samples : option nat) (seed : Z) (P : option matrix) : outcome self :=
  (* PERMBU only works for strictly hierarchical structures *)
  if negb (is_strictly_hierarchical S tags) then Raise ValueError
  else
    Ok {| S := S; P := P; y_hat := y_hat; y_insample := y_insample;
          y_hat_insample := y_hat_insample; sigmah := sigmah;
          num_samples := num_samples; seed := seed |}.

(** One pass of the loop of [_obtain_ranks]:
    [ranks[i_row, temp[i_row, :]] = a_range]. *)
Definition rank_row (row : vector) : list nat :=
  let temp := argsort row in
  let a_range := seq 0 (length row) in
  foldl (fun ranks jk => <[jk.1 := jk.2]> ranks)
        (replicate (length row) 0) (zip temp a_range).

Definition _obtain_ranks (array : matrix) : list (list nat) := map rank_row array.

Definition _permutate_samples (samples : matrix) (permutations : list (list nat))
  : outcome matrix :=
  let n_rows := length permutations in
  let n_cols := ncols permutations in
  let permutate_idxs :=
    concat (zip_with (fun r perm => map (fun p => p + r * n_cols) perm)
                     (seq 0 n_rows) permutations) in
  let flat := concat samples in
  permutated_samples ← mapM (list_item flat) permutate_idxs;
  Ok (tabulate n_rows (fun r => take n_cols (drop (r * n_cols) permutated_samples))).

Definition slice_t (X : tensor) (t : nat) : matrix := map (fun Xi => nth t Xi []) X.

Definition _permutate_predictions (prediction_samples : tensor)
    (permutations : list (list nat)) : outcome tensor :=
  let n_horizon := ncols prediction_samples in
  slices ← mapM (fun t =>
                   r ← _permutate_samples (slice_t prediction_samples t) permutations;
                   (* permutated_prediction_samples[:, t, :] = r *)
                   if same_shape r (slice_t prediction_samples t) then Ok r
                   else Raise ValueError)
                (seq 0 n_horizon);
  Ok (tabulate (length prediction_samples) (fun i =>
        tabulate n_horizon (fun t => nth i (nth t slices []) []))).

Definition _nonzero_indexes_by_row (M : matrix) : list (list nat) :=
  map (fun row => filter (fun j => Qeq_bool (at_ row j) 0 = false) (seq 0 (length row))) M.

(** One pass of the [for level_idx in reversed(range(hier_levels))] loop;
    [g] is numpy's module-level generator. *)
Definition level_step (hier_links rank_permutations : list (list nat)) (n : nat)
    (rec_samples : tensor) (level_idx : nat) (g : rng) : outcome (tensor * rng) :=
  let children_links :=
    unique pair_ltb (map (fun l => (nth level_idx l 0, nth (level_idx + 1) l 0)) hier_links) in
  let children_idxs := unique Nat.ltb (map snd children_links) in
  let parent_idxs := unique Nat.ltb (map fst children_links) in
  let Agg := take (length parent_idxs) (transpose (fit_transform children_links)) in
  children_permutations ← take_rows rank_permutations children_idxs;
  childrenum_samples ← take_rows rec_samples children_idxs;
  childrenum_samples ← _permutate_predictions childrenum_samples children_permutations;
  parent_samples ← einsum_ab_bhs Agg childrenum_samples;
  let '(random_permutation, g') := draws (permutation n) (length parent_samples) g in
  parent_samples ← _permutate_predictions parent_samples random_permutation;
  rec_samples ← put_rows rec_samples parent_idxs parent_samples;
  Ok (rec_samples, g').

Fixpoint levels_loop (hier_links rank_permutations : list (list nat)) (n : nat)
    (rec_samples : tensor) (levels : list nat) (g : rng) : outcome (tensor * rng) :=
  match levels with
  | [] => Ok (rec_samples, g)
  | level_idx :: levels' =>
      '(rec_samples, g') ← level_step hier_links rank_permutations n rec_samples level_idx g;
      levels_loop hier_links rank_permutations n rec_samples levels' g'
  end.

(** [np.array(rows).reshape(n_series, n_horizon, n)] of a list of 1-D
    arrays of length [n]. *)
Definition reshape3 (rows : matrix) (n_series n_horizon n : nat) : outcome tensor :=
  if length rows * n =? n_series * n_horizon * n then
    Ok (tabulate n_series (fun i => tabulate n_horizon (fun t => nth (i * n_horizon + t) rows [])))
  else Raise ValueError.

(** [get_samples]; [g] is numpy's module-level generator ([np.random.choice],
    [np.random.permutation]), returned as the call leaves it. *)
Definition get_samples (me : self) (num_samples : option nat) (g : rng)
  : outcome (tensor * rng) :=
  (* Compute residuals and rank permutations *)
  '(residuals, T) ← residuals_of (y_insample me) (y_hat_insample me);
  (* Expand residuals to match num_samples *)
  expand ← py_gt num_samples T;
  '(residuals, T, g) ←
    (if expand : bool then
       '(residuals_expansion, g') ← choice (seq 0 T) num_samples g;
       residuals_expansion ← iterate residuals_expansion;
       Ok (map (fun r => map (at_ r) residuals_expansion) residuals,
           length residuals_expansion, g')
     else Ok (residuals, T, g));
  let rank_permutations := _obtain_ranks residuals in
  (* Sample h step-ahead base marginal distributions *)
  let n := match num_samples with None => T | Some n => n end in
  let state := RandomState (seed me) in
  let n_series := length (y_hat me) in
  let n_horizon := ncols (y_hat me) in
  let base_samples :=
    normal_rows (zip (concat (y_hat me)) (concat (sigmah me))) n state in
  base_samples ← reshape3 base_samples n_series n_horizon n;
  (* Initialize PERMBU utility *)
  let rec_samples := base_samples in
  hier_links ← vstack (_nonzero_indexes_by_row (transpose (S me)));
  (* BottomUp hierarchy traversing *)
  let hier_levels := ncols hier_links - 1 in
  levels_loop hier_links rank_permutations n rec_samples (rev (seq 0 hier_levels)) g.

Definition get_prediction_levels (me : self) (res : gmap string value) (level : list Z)
    (g : rng) : outcome (gmap string value * rng) :=
  '(samples, g') ← get_samples me (num_samples me) g;
  res ← levels_from_samples samples res level;
  Ok (res, g').

Definition get_prediction_quantiles (me : self) (res : gmap string value)
    (quantiles : list Q) (g : rng) : outcome (gmap string value * rng) :=
  '(samples, g') ← get_samples me (num_samples me) g;
  res ← quantiles_from_samples (length samples) (ncols samples) samples res quantiles;
  Ok (res, g').

End Defs.
End PERMBU.

(** ** The bounds of Normality in float64

    The two assignments of the loop of [Normality.get_prediction_levels],
    [res[f'lo-{lv}'] = res['mean'] - zs * self.sigmah_rec] and
    [res[f'hi-{lv}'] = res['mean'] + zs * self.sigmah_rec], in the arithmetic
    numpy computes them in: binary64, every product, sum and difference
    rounded to nearest. *)

Module Float64.

Abbreviation array := (list (list float)).

Definition lo_of (mean : array) (zs : float) (sigmah_rec : array) : array :=
  zip_with (zip_with (fun m s => PrimFloat.sub m (PrimFloat.mul zs s))) mean sigmah_rec.

Definition hi_of (mean : array) (zs : float) (sigmah_rec : array) : array :=
  zip_with (zip_with (fun m s => PrimFloat.add m (PrimFloat.mul zs s))) mean sigmah_rec.

(** [X - Y] *)
Definition minus (X Y : array) : array := zip_with (zip_with PrimFloat.sub) X Y.

(** [(X == Y).all()] for two arrays of one shape. *)
Definition all_equal (X Y : array) : bool :=
  forallb (fun r => forallb (fun xy => PrimFloat.eqb xy.1 xy.2) r)
          (zip_with zip X Y).

End Float64.

(** ** The helpers of [utils], from the specification *)

Module Modelled.

(** [S[i, j] != 0]: the series of row [i] aggregates the bottom series of
    column [j]. *)
Definition under (S : matrix) (i j : nat) : bool :=
  negb (Qeq_bool (at_ (nth i S []) j) 0).

(** "Each bottom series has exactly one ancestor per level": in every level
    of [tags], a set of row indices of [S], exactly one row has the bottom
    series [j] under it. *)
Definition one_ancestor_per_level (S : matrix) (tags : gmap string (list nat)) : Prop :=
  forall name idxs j,
    tags !! name = Some idxs -> j < ncols S ->
    exists i, i ∈ idxs /\ under S i j = true /\
      forall i', i' ∈ idxs -> under S i' j = true -> i' = i.

(** "A tree (no cross-links)", no "overlapping (non-tree) groupings": of
    two series of the levels, either one has every bottom series of the
    other under it, or they share none. *)
Definition nested_or_disjoint (S : matrix) (i i' : nat) : Prop :=
  (forall j, j < ncols S -> under S i j = true -> under S i' j = true) \/
  (forall j, j < ncols S -> under S i' j = true -> under S i j = true) \/
  (forall j, j < ncols S -> under S i j = true -> under S i' j = false).

Definition no_overlap (S : matrix) (tags : gmap string (list nat)) : Prop :=
  forall name idxs name' idxs' i i',
    tags !! name = Some idxs -> tags !! name' = Some idxs' ->
    i ∈ idxs -> i' ∈ idxs' -> nested_or_disjoint S i i'.

(** A strictly hierarchical structure, in the words of the specification:
    "each bottom series has exactly one ancestor per level, i.e., a tree,
    not a general DAG"; "a hierarchy representable as a tree (no
    cross-links)". *)
Definition strictly_hierarchical (S : matrix) (tags : gmap string (list nat)) : Prop :=
  one_ancestor_per_level S tags /\ no_overlap S tags.

Definition one_ancestor (S : matrix) (idxs : list nat) (j : nat) : bool :=
  match filter (fun i => under S i j = true) idxs with
  | [] => false
  | i :: rest => forallb (Nat.eqb i) rest
  end.

Definition nested_or_disjoint_b (S : matrix) (i i' : nat) : bool :=
  let bottoms := seq 0 (ncols S) in
  forallb (fun j => implb (under S i j) (under S i' j)) bottoms
  || forallb (fun j => implb (under S i' j) (under S i j)) bottoms
  || forallb (fun j => implb (under S i j) (negb (under S i' j))) bottoms.

(** Modelled from the spec: [is_strictly_hierarchical(S, tags)] of the
    package's [utils] module, which is not among the sources.  It answers
    whether the pair is a strictly hierarchical structure: every bottom
    series has exactly one ancestor in every level of [tags], and no two
    series of the levels overlap. *)
Definition is_strictly_hierarchical (S : matrix) (tags : gmap string (list nat)) : bool :=
  let levels := (map_to_list tags).*2 in
  let series := concat levels in
  forallb (fun idxs => forallb (one_ancestor S idxs) (seq 0 (ncols S))) levels
  && forallb (fun i => forallb (nested_or_disjoint_b S i) series) series.

(** Modelled from the spec: [cov2corr(W)] of the package's [utils] module,
    which is not among the sources: "convert [W] to a correlation matrix
    (divide by outer product of standard deviations)". *)
Definition cov2corr {Nu : Numerics} (W : matrix) : outcome matrix :=
  let sd := map sqrtQ (diagonal W) in
  ew2 Qdiv W (map (fun a => map (fun b => (a * b)%Q) sd) sd).

Definition utils {Nu : Numerics} : Utils :=
  Build_Utils is_strictly_hierarchical cov2corr.

End Modelled.

(** ** Properties of sample tensors *)

(** [out[:, :, k]]: the [k]-th sample path, one row per series. *)
Definition sample_path (out : tensor) (k : nat) : matrix :=
  map (map (fun s => at_ s k)) out.

(** [M[-b:]]: the rows of the bottom series. *)
Definition bottom_rows (b : nat) (M : matrix) : matrix := drop (length M - b) M.

(** Every row of the path is [S] applied to the bottom rows of the path. *)
Definition coherent (S path : matrix) : Prop :=
  forall i t, i < length path -> t < ncols path ->
    (at_ (nth i path []) t == dot (nth i S []) (col t (bottom_rows (ncols S) path)))%Q.

Definition rect (M : matrix) : Prop := Forall (fun r => length r = ncols M) M.

(** A summing matrix: rectangular, its last rows are the identity over the
    bottom series. *)
Definition summing (S : matrix) : Prop :=
  rect S /\ bottom_rows (ncols S) S = identity (ncols S).


(** Entry-wise [Qeq] of two 2-D arrays. *)
Definition meq (X Y : matrix) : Prop := Forall2 (Forall2 Qeq) X Y.

Section LevelBounds.
Context {Nu : Numerics}.

(** The multiplier of a level and the two bounds [get_prediction_levels]
    writes for it. *)
Definition z_of (lv : Z) : Q := ppf ((1 # 2) + inject_Z lv / 200)%Q.

Definition lo_of (me : Normality.self) (mean : matrix) (lv : Z) : matrix :=
  zip_with (zip_with Qminus) mean (mscale (z_of lv) (Normality.sigmah_rec me)).

Definition hi_of (me : Normality.self) (mean : matrix) (lv : Z) : matrix :=
  zip_with (zip_with Qplus) mean (mscale (z_of lv) (Normality.sigmah_rec me)).

End LevelBounds.

(** What the loop over the levels of the sample-based samplers leaves in
    the mapping: per level the two empirical quantiles of the samples, the
    lower one below the upper one for a level that is not negative, and
    every other key as it was. *)
Definition level_intervals (samples : tensor) (level : list Z)
    (res res' : gmap string value) : Prop :=
  (forall lv, lv ∈ level ->
     (-100 <= lv <= 100)%Z /\
     exists lo hi : matrix,
       res' !! lo_key lv = Some (Arr2 lo) /\
       res' !! hi_key lv = Some (Arr2 hi) /\
       lo = map (map (fun a => quantile_1d a (inject_Z (100 - lv) / 200)%Q)) samples /\
       hi = map (map (fun a =>
                   quantile_1d a (inject_Z (100 - lv) / 200 + inject_Z lv / 100)%Q)) samples /\
       ((0 <= lv)%Z -> Forall2 (Forall2 Qle) lo hi) /\
       ((lv <= 0)%Z -> Forall2 (Forall2 Qle) hi lo)) /\
  (forall k : string,
     (forall lv, lv ∈ level -> k <> lo_key lv /\ k <> hi_key lv) ->
     res' !! k = res !! k).

(** [cell.sum()]: the total of the samples of one cell. *)
Definition total (c : vector) : Q := foldr Qplus 0%Q c.

(** [bind_ok x H]: the goal is [(m ≫= k) = r -> _] with [r] a result; name
    the result of [m] and drop the case in which [m] raises. *)
Ltac bind_ok x H :=
  lazymatch goal with
  | |- (mbind _ ?m = _) -> _ =>
      destruct m as [x|] eqn:H; cbn [mbind outcome_bind]; [|discriminate]
  end.

(** ** A concrete generator and concrete external routines

    Used to run the samplers on explicit inputs: the generator state is a
    counter, the [k]-th standard normal draw is the number [k], and the
    uniform integer of [[0, max]] is the counter modulo [max + 1]. *)

Module Demo.

#[export] Instance counter : Generator := {|
  rng := Z;
  RandomState seed := seed;
  rk_gauss s := (inject_Z s, (s + 1)%Z);
  rk_interval max s := (Z.to_nat (s mod (Z.of_nat max + 1)), (s + 1)%Z);
|}.

(** The integer square root of the floor, an increasing affine map for the
    inverse normal distribution function, and [cov] itself for the factor of
    a draw (its rows span the row space of [cov]). *)
#[export] Instance numerics : Numerics := {|
  sqrtQ x := inject_Z (Z.sqrt (Qfloor x));
  ppf p := (p - (1 # 2))%Q;
  svd_factor cov := cov;
|}.

(** The helpers of [utils] as the specification describes them. *)
#[export] Instance utils : Utils := Modelled.utils.

(** One total series over two bottom series. *)
Definition S3 : matrix := [[1; 1]; [1; 0]; [0; 1]]%Q.
Definition P3 : matrix := [[0; 1; 0]; [0; 0; 1]]%Q.
Definition I3 : matrix := identity 3.



Definition some_rows (M : matrix) : list (list (option Q)) := map (map Some) M.

Definition permbu (n : option nat) : PERMBU.self := {|
  PERMBU.S := S3;
  PERMBU.P := None;
  PERMBU.y_hat := [[0]; [0]; [0]]%Q;
  PERMBU.y_insample := some_rows [[0; 0]; [0; 1]; [1; 0]]%Q;
  PERMBU.y_hat_insample := some_rows [[0; 0]; [0; 0]; [0; 0]]%Q;
  PERMBU.sigmah := [[1]; [1]; [2]]%Q;
  PERMBU.num_samples := n;
  PERMBU.seed := 0;
|}.

Definition bootstrap (insample : matrix) (n : option nat) : Bootstrap.self := {|
  Bootstrap.S := S3;
  Bootstrap.P := P3;
  Bootstrap.W := None;
  Bootstrap.y_hat := [[10]; [4]; [6]]%Q;
  Bootstrap.y_insample := some_rows insample;
  Bootstrap.y_hat_insample := some_rows (map (map (fun _ => 0%Q)) insample);
  Bootstrap.num_samples := n;
  Bootstrap.seed := 0;
|}.

Definition insample3 : matrix := [[1; 2; 3]; [1; -1; 1]; [5; 6; 7]]%Q.

Definition normality (y_hat : matrix) : outcome Normality.self :=
  Normality.__init__ S3 P3 y_hat [[1]; [1]; [1]]%Q I3 0.

End Demo.


(** * Properties *)

Section Generic.
Context {G : Generator} {Nu : Numerics} {U : Utils}.

(** ** The constructors *)

Lemma forallb_seq_spec (f : nat -> bool) (n : nat) :
  forallb f (seq 0 n) = true <-> forall j, j < n -> f j = true.
Proof.
  rewrite forallb_forall. split.
  - intros H j Hj. apply H, in_seq. lia.
  - intros H j Hj. apply in_seq in Hj. apply H. lia.
Qed.

Lemma one_ancestor_spec (S : matrix) (idxs : list nat) (j : nat) :
  Modelled.one_ancestor S idxs j = true <->
  exists i, i ∈ idxs /\ Modelled.under S i j = true /\
    forall i', i' ∈ idxs -> Modelled.under S i' j = true -> i' = i.
Proof.
  unfold Modelled.one_ancestor.
  destruct (filter _ idxs) as [|i rest] eqn:Hf.
  - split; [discriminate|]. intros (i & Hi & Hu & _).
    assert (Hin : i ∈ filter (fun i => Modelled.under S i j = true) idxs).
    { apply list_elem_of_filter. now split. }
    rewrite Hf in Hin. now apply elem_of_nil in Hin.
  - assert (Hmem : forall x, x ∈ i :: rest <-> Modelled.under S x j = true /\ x ∈ idxs).
    { intros x. rewrite <- Hf, list_elem_of_filter. reflexivity. }
    rewrite forallb_forall. split.
    + intros Hall. exists i.
      destruct (proj1 (Hmem i) ltac:(apply elem_of_cons; now left)) as [Hu Hi].
      split; [exact Hi|]. split; [exact Hu|].
      intros i' Hi' Hu'.
      assert (Hin : i' ∈ i :: rest) by (apply Hmem; now split).
      apply elem_of_cons in Hin as [->|Hin]; [reflexivity|].
      apply list_elem_of_In in Hin. symmetry. apply Nat.eqb_eq, Hall, Hin.
    + intros (i0 & Hi0 & Hu0 & Huniq) x Hx.
      apply Nat.eqb_eq.
      assert (Hi : i = i0).
      { apply Huniq; apply (Hmem i); apply elem_of_cons; now left. }
      assert (Hx' : x = i0).
      { apply Huniq; apply (Hmem x); apply elem_of_cons; right; now apply list_elem_of_In. }
      congruence.
Qed.

Lemma nested_or_disjoint_spec (S : matrix) (i i' : nat) :
  Modelled.nested_or_disjoint_b S i i' = true <-> Modelled.nested_or_disjoint S i i'.
Proof.
  unfold Modelled.nested_or_disjoint_b, Modelled.nested_or_disjoint.
  rewrite !orb_true_iff, !forallb_seq_spec.
  assert (Himpl : forall a b : bool, implb a b = true <-> (a = true -> b = true)).
  { intros [] []; simpl; intuition congruence. }
  assert (Hneg : forall a b : bool, implb a (negb b) = true <-> (a = true -> b = false)).
  { intros [] []; simpl; intuition congruence. }
  split.
  - intros [[H|H]|H]; [left|right; left|right; right]; intros j Hj.
    + apply Himpl, H, Hj.
    + apply Himpl, H, Hj.
    + apply Hneg, H, Hj.
  - intros [H|[H|H]]; [left; left|left; right|right]; intros j Hj.
    + apply Himpl, H, Hj.
    + apply Himpl, H, Hj.
    + apply Hneg, H, Hj.
Qed.

Lemma level_of_tags (tags : gmap string (list nat)) (idxs : list nat) :
  idxs ∈ (map_to_list tags).*2 <-> exists name, tags !! name = Some idxs.
Proof.
  rewrite list_elem_of_fmap. split.
  - intros ([name idxs'] & -> & Hin). exists name. now apply elem_of_map_to_list.
  - intros (name & Hname). exists (name, idxs). split; [reflexivity|].
    now apply elem_of_map_to_list.
Qed.

(** The validator modelled from the specification decides the property it
    is modelled on. *)
Lemma is_strictly_hierarchical_spec (S : matrix) (tags : gmap string (list nat)) :
  Modelled.is_strictly_hierarchical S tags = true <-> Modelled.strictly_hierarchical S tags.
Proof.
  unfold Modelled.is_strictly_hierarchical, Modelled.strictly_hierarchical.
  cbv zeta. rewrite andb_true_iff.
  apply Morphisms_Prop.and_iff_morphism.
  - rewrite forallb_forall. unfold Modelled.one_ancestor_per_level. split.
    + intros H name idxs j Hname Hj. apply one_ancestor_spec.
      assert (Hin : idxs ∈ (map_to_list tags).*2) by (apply level_of_tags; eauto).
      apply list_elem_of_In in Hin. specialize (H _ Hin).
      rewrite forallb_seq_spec in H. now apply H.
    + intros H idxs Hin. apply list_elem_of_In, level_of_tags in Hin as [name Hname].
      apply forallb_seq_spec. intros j Hj. apply one_ancestor_spec. eauto.
  - rewrite forallb_forall. unfold Modelled.no_overlap. split.
    + intros H name idxs name' idxs' i i' Hname Hname' Hi Hi'.
      apply nested_or_disjoint_spec.
      assert (Hs : forall nm l x, tags !! nm = Some l -> x ∈ l ->
                In x (concat (map_to_list tags).*2)).
      { intros nm l x Hnm Hx. apply in_concat.
        exists l. split; [|now apply list_elem_of_In].
        apply list_elem_of_In, level_of_tags. eauto. }
      specialize (H i (Hs _ _ _ Hname Hi)). rewrite forallb_forall in H.
      apply H. eapply Hs; eassumption.
    + intros H i Hi. apply forallb_forall. intros i' Hi'.
      apply nested_or_disjoint_spec.
      apply in_concat in Hi as (l & Hl & Hil).
      apply in_concat in Hi' as (l' & Hl' & Hil').
      apply list_elem_of_In, level_of_tags in Hl as [name Hname].
      apply list_elem_of_In, level_of_tags in Hl' as [name' Hname'].
      apply list_elem_of_In in Hil, Hil'.
      exact (H name l name' l' i i' Hname Hname' Hil Hil').
Qed.


Lemma PERMBU_init_accepts_hierarchical
    (S : matrix) (tags : gmap string (list nat)) (y_hat : matrix)
    (y_insample y_hat_insample : list (list (option Q))) (sigmah : matrix)
    (num_samples : option nat) (seed : Z) (P : option matrix) :
  Modelled.strictly_hierarchical S tags ->
  exists me,
    PERMBU.__init__ (U := Modelled.utils) S tags y_hat y_insample y_hat_insample
                    sigmah num_samples seed P = Ok me /\
    PERMBU.S me = S /\ PERMBU.y_hat me = y_hat /\ PERMBU.sigmah me = sigmah /\
    PERMBU.num_samples me = num_samples /\ PERMBU.seed me = seed.
Proof.
  intros Hok. apply is_strictly_hierarchical_spec in Hok.
  unfold PERMBU.__init__. cbn [is_strictly_hierarchical Modelled.utils].
  rewrite Hok. simpl. eexists. split; [reflexivity|]. auto.
Qed.

(** ** PERMBU.get_samples without a sample count *)

Lemma residuals_of_same_shape (a b : list (list (option Q))) :
  same_shape a b = true -> exists R T, residuals_of a b = Ok (R, T).
Proof.
  intros H. unfold residuals_of, ew2. rewrite H. simpl. eauto.
Qed.

(** C10. With [num_samples = None], [PERMBU.get_samples] never returns: it
    raises TypeError at [num_samples > residuals.shape[1]] as soon as the
    residuals are computable (the only step before the comparison), so the
    later [if num_samples is None] default is never reached; the two
    [get_prediction_*] methods forward the constructor's [num_samples] and
    fail the same way. *)
Theorem PERMBU_get_samples_None_raises (me : PERMBU.self) (g : rng) :
  raises (PERMBU.get_samples me None g) /\
  (same_shape (PERMBU.y_insample me) (PERMBU.y_hat_insample me) = true ->
   PERMBU.get_samples me None g = Raise TypeError /\
   (PERMBU.num_samples me = None ->
    forall res level quantiles,
      PERMBU.get_prediction_levels me res level g = Raise TypeError /\
      PERMBU.get_prediction_quantiles me res quantiles g = Raise TypeError)).
Proof.
  split.
  - unfold PERMBU.get_samples, raises.
    destruct (residuals_of _ _) as [[R T]|]; cbn; eauto.
  - intros Hshape.
    destruct (residuals_of_same_shape _ _ Hshape) as (R & T & HR).
    assert (Hnone : PERMBU.get_samples me None g = Raise TypeError).
    { unfold PERMBU.get_samples. rewrite HR. reflexivity. }
    split; [exact Hnone|].
    intros Hdef res level quantiles.
    unfold PERMBU.get_prediction_levels, PERMBU.get_prediction_quantiles.
    rewrite Hdef, Hnone. split; reflexivity.
Qed.

(** ** Bootstrap.get_samples on a short residual history *)

Lemma Bootstrap_empty_range_raises (me : Bootstrap.self) (n : option nat)
    (R : matrix) (T : nat) :
  residuals_of (Bootstrap.y_insample me) (Bootstrap.y_hat_insample me) = Ok (R, T) ->
  T <= ncols (Bootstrap.y_hat me) ->
  raises (Bootstrap.get_samples me n) /\
  (forall k, n = Some (Datatypes.S k) -> Bootstrap.get_samples me n = Raise ValueError).
Proof.
  intros HR Hle. unfold Bootstrap.get_samples. rewrite HR. cbn [mbind outcome_bind].
  replace (T - ncols (Bootstrap.y_hat me)) with 0 by lia.
  split.
  - destruct n as [[|k]|]; cbn.
    + destruct (matmul (Bootstrap.S me) (Bootstrap.P me)); cbn; unfold raises; eauto.
    + unfold raises; eauto.
    + unfold raises; eauto.
  - intros k ->. reflexivity.
Qed.

(** C5. Let [R] be [y_insample - y_hat_insample]. When the columns of [R]
    without a missing value are at most [h = y_hat.shape[1]], the range of
    start indices [arange(residual_columns - h)] is empty and
    [Bootstrap.get_samples] raises, whatever [num_samples] is, and returns no
    array; for a positive [num_samples] the exception is the ValueError of
    [choice] on an empty population. *)
Theorem Bootstrap_short_residuals_raise (me : Bootstrap.self) (n : option nat)
    (R : list (list (option Q))) :
  ew2 sub_nan (Bootstrap.y_insample me) (Bootstrap.y_hat_insample me) = Ok R ->
  length (kept_columns R) <= ncols (Bootstrap.y_hat me) ->
  raises (Bootstrap.get_samples me n) /\
  (forall k, n = Some (Datatypes.S k) -> Bootstrap.get_samples me n = Raise ValueError).
Proof.
  intros HR Hle.
  apply (Bootstrap_empty_range_raises me n (drop_nan_columns R) (length (kept_columns R)));
    [|exact Hle].
  unfold residuals_of. now rewrite HR.
Qed.

(** ** Normality.get_prediction_levels *)

Lemma lo_key_ne_hi_key (a b : Z) : lo_key a <> hi_key b.
Proof. unfold lo_key, hi_key. discriminate. Qed.

Lemma lo_key_inj (a b : Z) : lo_key a = lo_key b -> a = b.
Proof.
  unfold lo_key. intros H. apply (inj pretty). now simplify_eq/=.
Qed.

Lemma hi_key_inj (a b : Z) : hi_key a = hi_key b -> a = b.
Proof.
  unfold hi_key. intros H. apply (inj pretty). now simplify_eq/=.
Qed.

Lemma mean_ne_lo_key (a : Z) : "mean" <> lo_key a.
Proof. unfold lo_key. discriminate. Qed.

Lemma mean_ne_hi_key (a : Z) : "mean" <> hi_key a.
Proof. unfold hi_key. discriminate. Qed.

Lemma sigmah_ne_lo_key (a : Z) : "sigmah" <> lo_key a.
Proof. unfold lo_key. discriminate. Qed.

Lemma sigmah_ne_hi_key (a : Z) : "sigmah" <> hi_key a.
Proof. unfold hi_key. discriminate. Qed.

Lemma same_shape_mscale (mean M : matrix) (z : Q) :
  same_shape mean (mscale z M) = same_shape mean M.
Proof.
  unfold same_shape, mscale. rewrite length_map.
  destruct M as [|r M]; simpl; [reflexivity|]. now rewrite length_map.
Qed.

Lemma get_mean_ok (res : gmap string value) (mean : matrix) :
  res !! "mean" = Some (Arr2 mean) -> get_mean res = Ok mean.
Proof. intros H. unfold get_mean. now rewrite H. Qed.

Lemma ew2_ok {A B C} (f : A -> B -> C) (X : list (list A)) (Y : list (list B)) :
  same_shape X Y = true -> ew2 f X Y = Ok (zip_with (zip_with f) X Y).
Proof. intros H. unfold ew2. now rewrite H. Qed.

Lemma levels_loop_spec (me : Normality.self) (mean : matrix) (level : list Z) :
  same_shape mean (Normality.sigmah_rec me) = true ->
  forall res : gmap string value,
    res !! "mean" = Some (Arr2 mean) ->
    exists res' : gmap string value,
      Normality.levels_loop me res level = Ok res' /\
      (forall lv, lv ∈ level ->
         res' !! lo_key lv = Some (Arr2 (lo_of me mean lv)) /\
         res' !! hi_key lv = Some (Arr2 (hi_of me mean lv))) /\
      (forall k : string,
         (forall lv, lv ∈ level -> k <> lo_key lv /\ k <> hi_key lv) ->
         res' !! k = res !! k).
Proof.
  intros Hshape. induction level as [|lv level IH]; intros res Hmean.
  - exists res. split; [reflexivity|]. split; [|reflexivity].
    intros lv Hin. now apply elem_of_nil in Hin.
  - cbn [Normality.levels_loop].
    rewrite (get_mean_ok _ _ Hmean). cbn [mbind outcome_bind].
    rewrite ew2_ok by now rewrite same_shape_mscale.
    cbn [mbind outcome_bind].
    rewrite (get_mean_ok _ mean).
    2:{ rewrite lookup_insert_ne by (apply not_eq_sym, mean_ne_lo_key). exact Hmean. }
    cbn [mbind outcome_bind].
    rewrite ew2_ok by now rewrite same_shape_mscale.
    cbn [mbind outcome_bind].
    fold (z_of lv). fold (lo_of me mean lv). fold (hi_of me mean lv).
    set (res1 := <[hi_key lv := Arr2 (hi_of me mean lv)]>
                   (<[lo_key lv := Arr2 (lo_of me mean lv)]> res)).
    assert (Hmean1 : res1 !! "mean" = Some (Arr2 mean)).
    { unfold res1.
      rewrite lookup_insert_ne by (apply not_eq_sym, mean_ne_hi_key).
      rewrite lookup_insert_ne by (apply not_eq_sym, mean_ne_lo_key).
      exact Hmean. }
    destruct (IH res1 Hmean1) as (res' & Hrun & Hset & Hframe).
    exists res'. split; [exact Hrun|]. split.
    + intros lv' Hin.
      destruct (decide (lv' ∈ level)) as [Hin'|Hnotin]; [now apply Hset|].
      apply elem_of_cons in Hin as [->|Hin]; [|contradiction].
      split.
      * rewrite Hframe.
        { unfold res1. rewrite lookup_insert_ne by (apply not_eq_sym, lo_key_ne_hi_key).
          apply lookup_insert_eq. }
        intros lv2 Hin2. split.
        { intros Heq. apply lo_key_inj in Heq. now subst. }
        { apply lo_key_ne_hi_key. }
      * rewrite Hframe.
        { unfold res1. apply lookup_insert_eq. }
        intros lv2 Hin2. split.
        { apply not_eq_sym, lo_key_ne_hi_key. }
        { intros Heq. apply hi_key_inj in Heq. now subst. }
    + intros k Hk. rewrite Hframe.
      * unfold res1.
        assert (Hlv : lv ∈ lv :: level) by (apply elem_of_cons; now left).
        destruct (Hk lv Hlv) as [Hlo Hhi].
        rewrite lookup_insert_ne by (now apply not_eq_sym).
        rewrite lookup_insert_ne by (now apply not_eq_sym).
        reflexivity.
      * intros lv2 Hin2. apply Hk. apply elem_of_cons. now right.
Qed.

Lemma row_symmetry (z : Q) (m s : vector) :
  Forall2 Qeq (zip_with Qminus (zip_with Qplus m (map (Qmult z) s)) m)
              (zip_with Qminus m (zip_with Qminus m (map (Qmult z) s))).
Proof.
  revert s. induction m as [|x m IH]; intros [|y s]; simpl; constructor.
  - ring.
  - apply IH.
Qed.

Lemma interval_symmetry (me : Normality.self) (mean : matrix) (lv : Z) :
  meq (zip_with (zip_with Qminus) (hi_of me mean lv) mean)
      (zip_with (zip_with Qminus) mean (lo_of me mean lv)).
Proof.
  unfold hi_of, lo_of, mscale, meq.
  generalize (Normality.sigmah_rec me) as sig.
  induction mean as [|m mean IH]; intros [|s sig]; simpl; constructor.
  - apply row_symmetry.
  - apply IH.
Qed.

(** C6 (as the code has it). For a ['mean'] of the shape of [sigmah_rec]
    and integer levels strictly between -100 and 100 (where [norm.ppf] is
    finite), [Normality.get_prediction_levels] returns the mapping in which
    ['sigmah'] is [sigmah_rec] and, for every requested level [lv],
    ['lo-lv'] is [mean - z * sigmah_rec] and ['hi-lv'] is
    [mean + z * sigmah_rec] with [z = ppf(0.5 + lv / 200)]; hence, in exact
    arithmetic, [hi - mean] and [mean - lo] are equal entry by entry.  (In
    float64 each bound is rounded on its own and the two differences need
    not be equal.) *)
Theorem Normality_get_prediction_levels_spec (me : Normality.self)
    (res : gmap string value) (mean : matrix) (level : list Z) :
  res !! "mean" = Some (Arr2 mean) ->
  same_shape mean (Normality.sigmah_rec me) = true ->
  Forall (fun lv => (-100 < lv < 100)%Z) level ->
  exists res' : gmap string value,
    Normality.get_prediction_levels me res level = Ok res' /\
    res' !! "sigmah" = Some (Arr2 (Normality.sigmah_rec me)) /\
    res' !! "mean" = Some (Arr2 mean) /\
    forall lv, lv ∈ level ->
      exists lo hi : matrix,
        res' !! lo_key lv = Some (Arr2 lo) /\
        res' !! hi_key lv = Some (Arr2 hi) /\
        lo = zip_with (zip_with Qminus) mean
               (mscale (ppf ((1 # 2) + inject_Z lv / 200)%Q) (Normality.sigmah_rec me)) /\
        hi = zip_with (zip_with Qplus) mean
               (mscale (ppf ((1 # 2) + inject_Z lv / 200)%Q) (Normality.sigmah_rec me)) /\
        meq (zip_with (zip_with Qminus) hi mean) (zip_with (zip_with Qminus) mean lo).
Proof.
  intros Hmean Hshape _. unfold Normality.get_prediction_levels.
  set (res0 := <["sigmah" := Arr2 (Normality.sigmah_rec me)]> res).
  assert (Hmean0 : res0 !! "mean" = Some (Arr2 mean)).
  { unfold res0. now rewrite lookup_insert_ne by discriminate. }
  destruct (levels_loop_spec me mean level Hshape res0 Hmean0)
    as (res' & Hrun & Hset & Hframe).
  exists res'. split; [exact Hrun|].
  assert (Hfresh : forall k, k = "mean" \/ k = "sigmah" ->
            forall lv, lv ∈ level -> k <> lo_key lv /\ k <> hi_key lv).
  { intros k Hk lv _.
    destruct Hk as [-> | ->]; split;
      auto using mean_ne_lo_key, mean_ne_hi_key, sigmah_ne_lo_key, sigmah_ne_hi_key. }
  split; [|split].
  - rewrite Hframe by (apply Hfresh; now right).
    unfold res0. apply lookup_insert_eq.
  - rewrite Hframe by (apply Hfresh; now left). exact Hmean0.
  - intros lv Hin. destruct (Hset lv Hin) as [Hlo Hhi].
    exists (lo_of me mean lv), (hi_of me mean lv).
    repeat split; try assumption. apply interval_symmetry.
Qed.

(** ** Empirical quantiles *)

Lemma insert_sorted_Forall (P : Q -> Prop) (x : Q) (l : vector) :
  P x -> Forall P l -> Forall P (insert_sorted x l).
Proof.
  intros Hx Hl. induction Hl as [|y l Hy Hl IH]; simpl.
  - now repeat constructor.
  - destruct (Qle_bool x y); repeat constructor; assumption.
Qed.

Lemma insert_sorted_sorted (x : Q) (l : vector) :
  StronglySorted Qle l -> StronglySorted Qle (insert_sorted x l).
Proof.
  induction 1 as [|y l Hl IH Hy]; simpl.
  - repeat constructor.
  - destruct (Qle_bool x y) eqn:Hxy.
    + apply Qle_bool_iff in Hxy. constructor.
      * now constructor.
      * constructor; [exact Hxy|].
        eapply Forall_impl; [exact Hy|]. intros z Hz. simpl in Hz. lra.
    + assert (Hyx : (y <= x)%Q).
      { destruct (Qlt_le_dec y x) as [Hlt|Hle]; [lra|].
        apply Qle_bool_iff in Hle. congruence. }
      constructor; [exact IH|]. now apply insert_sorted_Forall.
Qed.

Lemma sortQ_sorted (l : vector) : StronglySorted Qle (sortQ l).
Proof.
  induction l as [|x l IH]; simpl; [constructor|]. now apply insert_sorted_sorted.
Qed.

Lemma insert_sorted_length (x : Q) (l : vector) :
  length (insert_sorted x l) = Datatypes.S (length l).
Proof.
  induction l as [|y l IH]; simpl; [reflexivity|].
  destruct (Qle_bool x y); simpl; congruence.
Qed.

Lemma sortQ_length (l : vector) : length (sortQ l) = length l.
Proof.
  induction l as [|x l IH]; simpl; [reflexivity|].
  now rewrite insert_sorted_length, IH.
Qed.

Lemma sorted_at (s : vector) (i j : nat) :
  StronglySorted Qle s -> i <= j -> j < length s -> (at_ s i <= at_ s j)%Q.
Proof.
  intros Hs. revert i j. induction Hs as [|x s Hs IH Hx]; intros i j Hij Hj.
  - simpl in Hj. lia.
  - destruct i as [|i], j as [|j]; simpl in *; try lia.
    + lra.
    + apply (proj1 (Forall_nth _ 0%Q s) Hx). lia.
    + apply IH; lia.
Qed.

(** The virtual index of a probability of [[0, 1]] stays within the sample. *)
Lemma virtual_index_bounds (m : nat) (q : Q) :
  (0 <= q)%Q -> (q <= 1)%Q ->
  (0 <= Qfloor (q * inject_Z (Z.of_nat m)) <= Z.of_nat m)%Z.
Proof.
  intros H0 H1.
  assert (Hm : (0 <= inject_Z (Z.of_nat m))%Q).
  { change 0%Q with (inject_Z 0). rewrite <- Zle_Qle. lia. }
  split.
  - rewrite <- (Qfloor_Z 0) at 1.
    apply Qfloor_resp_le. change (inject_Z 0) with 0%Q. nra.
  - rewrite <- (Qfloor_Z (Z.of_nat m)) at 2.
    apply Qfloor_resp_le. nra.
Qed.

Lemma lerp_between (s : vector) (q : Q) :
  StronglySorted Qle s -> 0 < length s -> (0 <= q)%Q -> (q <= 1)%Q ->
  let v := (q * inject_Z (Z.of_nat (length s - 1)))%Q in
  let lo := Z.to_nat (Qfloor v) in
  (at_ s lo <= lerp_sorted s q)%Q /\
  (lerp_sorted s q <= at_ s (Nat.min (lo + 1) (length s - 1)))%Q.
Proof.
  intros Hs Hlen H0 H1 v lo. unfold lerp_sorted. fold v. fold lo.
  pose proof (virtual_index_bounds (length s - 1) q H0 H1) as Hb. fold v in Hb.
  pose proof (Qfloor_le v) as Hfl. pose proof (Qlt_floor v) as Hfu.
  rewrite inject_Z_plus in Hfu. change (inject_Z 1) with 1%Q in Hfu.
  assert (Hord : (at_ s lo <= at_ s (Nat.min (lo + 1) (length s - 1)))%Q).
  { apply sorted_at; [exact Hs| |]; unfold lo; lia. }
  set (a := at_ s lo) in *. set (b := at_ s (Nat.min (lo + 1) (length s - 1))) in *.
  set (f := inject_Z (Qfloor v)) in *.
  split; nra.
Qed.

(** [np.quantile] of a sorted non-empty sample does not decrease with the
    probability. *)
Lemma lerp_sorted_mono (s : vector) (p q : Q) :
  StronglySorted Qle s -> 0 < length s ->
  (0 <= p)%Q -> (p <= q)%Q -> (q <= 1)%Q ->
  (lerp_sorted s p <= lerp_sorted s q)%Q.
Proof.
  intros Hs Hlen H0 Hpq H1.
  assert (Hp1 : (p <= 1)%Q) by lra. assert (Hq0 : (0 <= q)%Q) by lra.
  set (m := inject_Z (Z.of_nat (length s - 1))).
  assert (Hm : (0 <= m)%Q).
  { unfold m. change 0%Q with (inject_Z 0). rewrite <- Zle_Qle. lia. }
  assert (Hv : (p * m <= q * m)%Q) by nra.
  pose proof (Qfloor_resp_le _ _ Hv) as Hfloor.
  pose proof (virtual_index_bounds (length s - 1) p H0 Hp1) as Hbp.
  pose proof (virtual_index_bounds (length s - 1) q Hq0 H1) as Hbq.
  fold m in Hbp, Hbq.
  destruct (Z.eq_dec (Qfloor (p * m)) (Qfloor (q * m))) as [Heq|Hne].
  - unfold lerp_sorted. fold m. rewrite Heq.
    set (lo := Z.to_nat (Qfloor (q * m))).
    assert (Hord : (at_ s lo <= at_ s (Nat.min (lo + 1) (length s - 1)))%Q).
    { apply sorted_at; [exact Hs| |]; unfold lo; lia. }
    set (a := at_ s lo) in *. set (b := at_ s (Nat.min (lo + 1) (length s - 1))) in *.
    set (f := inject_Z (Qfloor (q * m))).
    nra.
  - destruct (lerp_between s p Hs Hlen H0 Hp1) as [_ Hup].
    destruct (lerp_between s q Hs Hlen Hq0 H1) as [Hlow _].
    fold m in Hup, Hlow.
    eapply Qle_trans; [exact Hup|]. eapply Qle_trans; [|exact Hlow].
    apply sorted_at; [exact Hs| |]; lia.
Qed.

Lemma nth_map_lookup {A B} (f : A -> B) (l : list A) (i : nat) (d : B) :
  nth i (map f l) d = match l !! i with Some a => f a | None => d end.
Proof.
  rewrite nth_lookup, list_lookup_fmap. now destruct (l !! i).
Qed.


Lemma quantile_axis2_ok (samples : tensor) (q : Q) (M : matrix) :
  quantile_axis2 samples q = Ok M ->
  (0 <= q)%Q /\ (q <= 1)%Q /\
  Forall (Forall (fun a => 0 < length a)) samples /\
  M = map (map (fun a => quantile_1d a q)) samples.
Proof.
  unfold quantile_axis2, in_unit_interval.
  destruct (Qle_bool 0 q) eqn:H0; [|discriminate].
  destruct (Qle_bool q 1) eqn:H1; [|discriminate]. cbn.
  destruct (forallb _ samples) eqn:Hne; [|discriminate].
  intros [= <-]. apply Qle_bool_iff in H0, H1.
  repeat split; try assumption.
  apply Forall_forall. intros r Hr. apply Forall_forall. intros a Ha.
  rewrite forallb_forall in Hne. apply list_elem_of_In in Hr, Ha.
  specialize (Hne r Hr). rewrite forallb_forall in Hne. specialize (Hne a Ha).
  destruct (length a); [discriminate|lia].
Qed.

Lemma quantiles_axis2_ok (samples : tensor) (qs : list Q) (sq : tensor) :
  quantiles_axis2 samples qs = Ok sq ->
  Forall (fun q => (0 <= q)%Q /\ (q <= 1)%Q) qs /\
  (qs <> [] -> Forall (Forall (fun a => 0 < length a)) samples) /\
  sq = map (fun q => map (map (fun a => quantile_1d a q)) samples) qs.
Proof.
  unfold quantiles_axis2. destruct (forallb _ qs); [|discriminate].
  revert sq. induction qs as [|q qs IH]; intros sq; simpl.
  - intros [= <-]. repeat split; [constructor|congruence].
  - destruct (quantile_axis2 samples q) as [M|] eqn:HM; [|discriminate]. cbn.
    destruct (mapM (quantile_axis2 samples) qs) as [sq'|] eqn:Hsq; [|discriminate]. cbn.
    intros [= <-]. apply quantile_axis2_ok in HM as (H0 & H1 & Hne & ->).
    destruct (IH sq' eq_refl) as (Hqs & _ & ->).
    repeat split; [now constructor|now intros _].
Qed.

Lemma quantile_1d_mono (a : vector) (p q : Q) :
  0 < length a -> (0 <= p)%Q -> (p <= q)%Q -> (q <= 1)%Q ->
  (quantile_1d a p <= quantile_1d a q)%Q.
Proof.
  intros Hlen H0 Hpq H1. unfold quantile_1d.
  apply lerp_sorted_mono; try assumption.
  - apply sortQ_sorted.
  - now rewrite sortQ_length.
Qed.


Lemma at_nonneg (c : vector) (i : nat) :
  Forall (fun x => (0 <= x)%Q) c -> (0 <= at_ c i)%Q.
Proof.
  intros Hc. unfold at_. rewrite nth_lookup.
  destruct (_ !! i) as [x|] eqn:Hx; simpl; [|apply Qle_refl].
  rewrite Forall_lookup in Hc. exact (Hc i x Hx).
Qed.

Lemma hstack_columns_nonneg (cols : list vector) (M : matrix) :
  hstack_columns cols = Ok M ->
  Forall (Forall (fun x => (0 <= x)%Q)) cols ->
  Forall (Forall (fun x => (0 <= x)%Q)) M.
Proof.
  unfold hstack_columns. destruct cols as [|c cols]; [discriminate|].
  destruct (forallb _ _); [|discriminate]. intros [= <-] Hcols.
  unfold tabulate. apply Forall_forall. intros row Hrow.
  apply list_elem_of_fmap in Hrow as (i & -> & _).
  change (Forall (fun x => (0 <= x)%Q) (map (fun c' => at_ c' i) (c :: cols))).
  apply Forall_forall. intros x Hx.
  apply list_elem_of_fmap in Hx as (c' & -> & Hc').
  apply at_nonneg. rewrite Forall_forall in Hcols. now apply Hcols.
Qed.

(** The reconciled standard deviations are square roots. *)
Lemma init_sigmah_rec_nonneg (S P y_hat sigmah W : matrix) (seed : Z)
    (me : Normality.self) :
  NumericsLaws Nu ->
  Normality.__init__ S P y_hat sigmah W seed = Ok me ->
  Forall (Forall (fun x => (0 <= x)%Q)) (Normality.sigmah_rec me).
Proof.
  intros L. unfold Normality.__init__.
  bind_ok SP HSP. bind_ok R1 HR1. bind_ok Wh HWh. bind_ok cov_rec Hcov.
  bind_ok sr Hsr.
  intros [= <-]. simpl. eapply hstack_columns_nonneg; [exact Hsr|].
  apply Forall_forall. intros c Hc.
  apply list_elem_of_fmap in Hc as (cov & -> & _).
  apply Forall_forall. intros x Hx.
  apply list_elem_of_fmap in Hx as (y & -> & _). apply (sqrtQ_nonneg _ L).
Qed.



(** ** Normality.get_samples and the generator *)

Lemma tabulate_length {A} (n : nat) (f : nat -> A) : length (tabulate n f) = n.
Proof. unfold tabulate. now rewrite length_map, length_seq. Qed.

Lemma nth_tabulate {A} (n : nat) (f : nat -> A) (i : nat) (d : A) :
  i < n -> nth i (tabulate n f) d = f i.
Proof.
  intros Hi. unfold tabulate. rewrite nth_map_lookup.
  now rewrite lookup_seq_lt by exact Hi.
Qed.

Lemma tabulate_ext {A} (n : nat) (f g : nat -> A) :
  (forall i, i < n -> f i = g i) -> tabulate n f = tabulate n g.
Proof.
  intros H. unfold tabulate. apply map_ext_in. intros i Hi.
  apply in_seq in Hi. apply H. lia.
Qed.

Lemma take_tabulate {A} (n m : nat) (f : nat -> A) :
  n <= m -> take n (tabulate m f) = tabulate n f.
Proof.
  intros Hnm. unfold tabulate. rewrite <- fmap_take. f_equal.
  rewrite take_seq. f_equal. lia.
Qed.

Lemma map_tabulate {A B} (h : A -> B) (n : nat) (f : nat -> A) :
  map h (tabulate n f) = tabulate n (fun i => h (f i)).
Proof. unfold tabulate. now rewrite map_map. Qed.

(** A shorter run of draws is the beginning of a longer one. *)
Lemma draws_prefix {A} (step : rng -> A * rng) (n m : nat) (g : rng) :
  n <= m -> (draws step n g).1 = take n (draws step m g).1.
Proof.
  revert m g. induction n as [|n IH]; intros m g Hnm.
  - now rewrite take_0.
  - destruct m as [|m]; [lia|]. simpl.
    destruct (step g) as [x g1].
    specialize (IH m g1 ltac:(lia)).
    destruct (draws step n g1) as [xs g2], (draws step m g1) as [ys g3].
    simpl in *. now rewrite IH.
Qed.

Lemma multivariate_normal_prefix (mean : vector) (cov : matrix) (n m : nat)
    (g : rng) (x y : matrix) (g1 g2 : rng) :
  n <= m ->
  multivariate_normal mean cov n g = Ok (x, g1) ->
  multivariate_normal mean cov m g = Ok (y, g2) ->
  x = take n y.
Proof.
  intros Hnm. unfold multivariate_normal, standard_normal.
  destruct (_ && _); [|discriminate].
  pose proof (draws_prefix (draws rk_gauss (length mean)) n m g Hnm) as Hpre.
  destruct (draws _ n g) as [zs h1], (draws _ m g) as [zs' h2]. simpl in Hpre.
  intros [= <- <-] [= <- <-]. now rewrite Hpre, fmap_take.
Qed.

Lemma tabulate_Forall {A} (Pr : A -> Prop) (n : nat) (f : nat -> A) :
  (forall i, i < n -> Pr (f i)) -> Forall Pr (tabulate n f).
Proof.
  intros H. unfold tabulate. apply Forall_forall. intros x Hx.
  apply list_elem_of_fmap in Hx as (i & -> & Hi). apply elem_of_seq in Hi.
  apply H. lia.
Qed.

Lemma transpose_120_shape (b c : nat) (X : tensor) :
  has_shape3 (transpose_120 b c X) b c (length X).
Proof.
  unfold has_shape3, transpose_120. split; [apply tabulate_length|].
  apply tabulate_Forall. intros i _. split; [apply tabulate_length|].
  apply tabulate_Forall. intros t _. apply length_map.
Qed.

(** Entry [(i, t)] of the returned tensor lists, sample by sample, entry [i]
    of the draws of step [t]. *)
Lemma Normality_get_samples_cells (me : Normality.self) (n : nat) (out : tensor) :
  Normality.get_samples me (Some n) = Ok out ->
  exists partials,
    Normality.draw_steps me n (seq 0 (ncols (Normality.y_hat me)))
      (RandomState (Normality.seed me)) = Ok partials /\
    out = tabulate (length (Normality.y_hat me)) (fun i =>
            tabulate (ncols (Normality.y_hat me)) (fun t =>
              tabulate n (fun k => at_ (nth k (nth t partials []) []) i))).
Proof.
  unfold Normality.get_samples. bind_ok partials Hp. intros [= <-].
  exists partials. split; [reflexivity|].
  unfold transpose_120. apply tabulate_ext. intros i Hi.
  apply tabulate_ext. intros t Ht.
  rewrite map_tabulate. apply tabulate_ext. intros k Hk.
  rewrite (nth_tabulate _ _ i) by exact Hi.
  unfold at_ at 1. now rewrite (nth_tabulate _ _ t) by exact Ht.
Qed.

(** X1. When [Normality.get_samples] returns, the array has one row per
    series of [y_hat], one column per horizon step and [num_samples]
    samples. *)
Theorem Normality_get_samples_shape (me : Normality.self) (n : nat) (out : tensor) :
  Normality.get_samples me (Some n) = Ok out ->
  has_shape3 out (length (Normality.y_hat me)) (ncols (Normality.y_hat me)) n.
Proof.
  intros Hrun. apply Normality_get_samples_cells in Hrun as (ps & _ & ->).
  unfold has_shape3. split; [apply tabulate_length|].
  apply tabulate_Forall. intros i _. split; [apply tabulate_length|].
  apply tabulate_Forall. intros t _. apply tabulate_length.
Qed.

(** C3 (as the code has it). [get_samples] seeds a fresh generator from the
    stored seed on every call, so a call replays the stream of the previous
    one: at the first horizon step, the samples of a call with [n] samples
    are the first [n] samples of a call with [n' >= n] samples, for every
    series. *)
Theorem Normality_get_samples_replays_stream (me : Normality.self) (n n' : nat)
    (out out' : tensor) :
  n <= n' ->
  Normality.get_samples me (Some n) = Ok out ->
  Normality.get_samples me (Some n') = Ok out' ->
  forall i, nth 0 (nth i out []) [] = take n (nth 0 (nth i out' []) []).
Proof.
  intros Hnn Hout Hout' i.
  apply Normality_get_samples_cells in Hout as (ps & Hps & ->).
  apply Normality_get_samples_cells in Hout' as (ps' & Hps' & ->).
  destruct (Nat.lt_ge_cases i (length (Normality.y_hat me))) as [Hi|Hi].
  2:{ rewrite !(nth_overflow (tabulate _ _)) by (rewrite tabulate_length; lia).
      simpl. now rewrite take_nil. }
  rewrite !(nth_tabulate _ _ i) by exact Hi.
  destruct (ncols (Normality.y_hat me)) as [|h] eqn:Hh.
  { simpl. now rewrite take_nil. }
  rewrite !(nth_tabulate _ _ 0) by lia.
  rewrite take_tabulate by exact Hnn.
  apply tabulate_ext. intros k Hk.
  assert (Hpre : nth 0 ps [] = take n (nth 0 ps' [])).
  { revert Hps Hps'. cbn [seq Normality.draw_steps].
    bind_ok mean Hmean. bind_ok cov Hcov.
    destruct (multivariate_normal mean cov n _) as [[x g1]|] eqn:Hx;
      cbn [mbind outcome_bind]; [|discriminate].
    destruct (length mean =? _); [|discriminate].
    bind_ok rest Hrest. intros [= <-].
    destruct (multivariate_normal mean cov n' _) as [[y g2]|] eqn:Hy;
      cbn [mbind outcome_bind]; [|discriminate].
    bind_ok rest' Hrest'. intros [= <-]. simpl.
    eapply multivariate_normal_prefix; eassumption. }
  rewrite Hpre. f_equal.
  rewrite !nth_lookup. now rewrite lookup_take_lt by exact Hk.
Qed.

(** ** Linear algebra on lists *)

Lemma dot_nil_r (u : vector) : dot u [] = 0%Q.
Proof. now destruct u. Qed.

Lemma dot_cons (x y : Q) (u v : vector) :
  dot (x :: u) (y :: v) = (x * y + dot u v)%Q.
Proof. reflexivity. Qed.

Lemma dot_proper (u u' v v' : vector) :
  Forall2 Qeq u u' -> Forall2 Qeq v v' -> (dot u v == dot u' v')%Q.
Proof.
  intros Hu. revert v v'. induction Hu as [|x x' u u' Hx Hu IH]; intros v v' Hv.
  - reflexivity.
  - destruct Hv as [|y y' v v' Hy Hv]; [reflexivity|].
    rewrite !dot_cons, Hx, Hy, (IH _ _ Hv). reflexivity.
Qed.

Lemma Forall2_Qeq_refl (u : vector) : Forall2 Qeq u u.
Proof. induction u; constructor; [reflexivity|assumption]. Qed.

Lemma Forall2_Qeq_tabulate (n : nat) (f g : nat -> Q) :
  (forall i, i < n -> (f i == g i)%Q) -> Forall2 Qeq (tabulate n f) (tabulate n g).
Proof.
  intros H. unfold tabulate. apply Forall2_fmap, Forall_Forall2_diag.
  apply Forall_forall. intros i Hi. apply elem_of_seq in Hi. apply H. lia.
Qed.

Lemma dot_comm (u v : vector) : (dot u v == dot v u)%Q.
Proof.
  revert v. induction u as [|x u IH]; intros [|y v]; try reflexivity.
  rewrite !dot_cons, IH. ring.
Qed.

(** [dot] is linear in a first argument given index by index. *)
Lemma dot_map_linear (x : Q) (f g : nat -> Q) (l : list nat) (v : vector) :
  (dot (map (fun c => x * f c + g c) l) v
   == x * dot (map f l) v + dot (map g l) v)%Q.
Proof.
  revert v. induction l as [|c l IH]; intros [|y v]; simpl map.
  - rewrite !dot_nil_r. ring.
  - unfold dot; simpl. ring.
  - rewrite !dot_nil_r. ring.
  - rewrite !dot_cons, IH. ring.
Qed.

Lemma dot_map_add (f g : nat -> Q) (l : list nat) (u : vector) :
  (dot u (map (fun c => f c + g c) l) == dot u (map f l) + dot u (map g l))%Q.
Proof.
  rewrite !(dot_comm u).
  rewrite (dot_proper (map (fun c => f c + g c) l)
             (map (fun c => 1 * f c + g c) l) u u)%Q.
  - rewrite dot_map_linear. ring.
  - apply Forall2_fmap, Forall_Forall2_diag, Forall_forall. intros c _. ring.
  - apply Forall2_Qeq_refl.
Qed.

Lemma dot_map_zero (l : list nat) (v : vector) :
  (dot (map (fun _ => 0) l) v == 0)%Q.
Proof.
  revert v. induction l as [|c l IH]; intros [|y v]; try reflexivity.
  simpl map. rewrite dot_cons, IH. ring.
Qed.

Lemma tabulate_at (r : vector) : tabulate (length r) (at_ r) = r.
Proof.
  unfold tabulate, at_. apply nth_ext with (d := 0%Q) (d' := 0%Q).
  - now rewrite length_map, length_seq.
  - intros i Hi. rewrite length_map, length_seq in Hi.
    rewrite nth_map_lookup, lookup_seq_lt by exact Hi. reflexivity.
Qed.

Lemma map_as_tabulate {A B} (f : A -> B) (l : list A) (d : A) :
  map f l = tabulate (length l) (fun i => f (nth i l d)).
Proof.
  unfold tabulate. apply nth_ext with (d := f d) (d' := f d).
  - now rewrite !length_map, length_seq.
  - intros i Hi. rewrite length_map in Hi.
    rewrite map_nth, nth_map_lookup, lookup_seq_lt by exact Hi. reflexivity.
Qed.

(** [(s @ P) . v = s . (P @ v)] *)
Lemma dot_assoc (N : nat) (s : vector) (P : matrix) (v : vector) :
  length s = length P -> Forall (fun r => length r = N) P ->
  (dot (tabulate N (fun c => dot s (col c P))) v == dot s (matvec P v))%Q.
Proof.
  intros Hlen HP. revert s Hlen.
  induction HP as [|r P Hr HP IH]; intros s Hlen.
  - destruct s; [|discriminate]. simpl. apply dot_map_zero.
  - destruct s as [|x s]; [discriminate|]. simpl in Hlen.
    unfold tabulate. simpl col. simpl matvec. rewrite dot_cons.
    rewrite (dot_map_linear x (at_ r) (fun c => dot s (col c P))).
    fold (tabulate N (at_ r)). fold (tabulate N (fun c => dot s (col c P))).
    rewrite <- Hr, tabulate_at, Hr. rewrite IH by lia. reflexivity.
Qed.

(** The product with a row of the identity picks an entry. *)
Lemma dot_unit_from (j k m : nat) (u : vector) :
  (dot (map (fun c => if j =? c then 1 else 0) (seq k m)) u
   == if (k <=? j) && (j <? k + m) then at_ u (j - k) else 0)%Q.
Proof.
  revert k u. induction m as [|m IH]; intros k u.
  - simpl. replace (j <? k + 0) with (j <? k) by (f_equal; lia).
    destruct (k <=? j) eqn:H1, (j <? k) eqn:H2; simpl; try reflexivity.
    apply Nat.leb_le in H1. apply Nat.ltb_lt in H2. lia.
  - destruct u as [|y u].
    + rewrite dot_nil_r. unfold at_.
      destruct (_ && _); [|reflexivity]. now destruct (j - k).
    + simpl seq. simpl map. rewrite dot_cons, IH.
      destruct (j =? k) eqn:Hjk.
      * apply Nat.eqb_eq in Hjk. subst k.
        rewrite Nat.leb_refl, Nat.sub_diag.
        replace (j <? j + Datatypes.S m) with true by (symmetry; apply Nat.ltb_lt; lia).
        replace (Datatypes.S j <=? j) with false by (symmetry; apply Nat.leb_gt; lia).
        simpl. unfold at_. simpl. ring.
      * apply Nat.eqb_neq in Hjk.
        destruct (k <=? j) eqn:H1.
        { apply Nat.leb_le in H1.
          replace (Datatypes.S k <=? j) with true by (symmetry; apply Nat.leb_le; lia).
          replace (j <? Datatypes.S k + m) with (j <? k + Datatypes.S m) by (f_equal; lia).
          simpl. destruct (j <? k + Datatypes.S m); [|ring].
          unfold at_. replace (j - k) with (Datatypes.S (j - Datatypes.S k)) by lia.
          simpl. ring. }
        { apply Nat.leb_gt in H1.
          replace (Datatypes.S k <=? j) with false by (symmetry; apply Nat.leb_gt; lia).
          simpl. ring. }
Qed.

Lemma dot_unit (b j : nat) (u : vector) :
  j < b ->
  (dot (tabulate b (fun c => if j =? c then 1 else 0)) u == at_ u j)%Q.
Proof.
  intros Hj. unfold tabulate. rewrite dot_unit_from. simpl.
  replace (j <? b) with true by (symmetry; apply Nat.ltb_lt; lia).
  now rewrite Nat.sub_0_r.
Qed.

(** ** Coherence of reconciled paths *)

Lemma nth_drop_plus {A} (a j : nat) (l : list A) (d : A) :
  nth j (drop a l) d = nth (a + j) l d.
Proof. now rewrite !nth_lookup, lookup_drop. Qed.

Lemma col_bottom_rows (b t : nat) (M : matrix) :
  b <= length M ->
  col t (bottom_rows b M)
  = tabulate b (fun j => at_ (nth (length M - b + j) M []) t).
Proof.
  intros Hb. unfold col, bottom_rows.
  rewrite (map_as_tabulate (fun r : vector => at_ r t) _ []), length_drop.
  replace (length M - (length M - b)) with b by lia.
  apply tabulate_ext. intros j _. now rewrite nth_drop_plus.
Qed.

Lemma rect_nth (M : matrix) (i : nat) :
  rect M -> i < length M -> length (nth i M []) = ncols M.
Proof.
  intros HM Hi. unfold rect in HM. rewrite Forall_lookup in HM.
  destruct (lookup_lt_is_Some_2 M i Hi) as [r Hr].
  rewrite nth_lookup, Hr. simpl. exact (HM i r Hr).
Qed.

Lemma summing_bottom_le (S : matrix) : summing S -> ncols S <= length S.
Proof.
  intros [_ Hbot]. apply (f_equal length) in Hbot.
  unfold bottom_rows, identity in Hbot.
  rewrite length_drop, tabulate_length in Hbot. lia.
Qed.

Lemma summing_bottom_row (S : matrix) (j : nat) :
  summing S -> j < ncols S ->
  nth (length S - ncols S + j) S []
  = tabulate (ncols S) (fun c => if j =? c then 1%Q else 0%Q).
Proof.
  intros HS Hj. destruct HS as [_ Hbot].
  rewrite <- nth_drop_plus. fold (bottom_rows (ncols S) S). rewrite Hbot.
  unfold identity. now rewrite nth_tabulate by exact Hj.
Qed.

(** A row of the identity times [P] is a row of [P]. *)
Lemma vecmat_unit (P : matrix) (j : nat) :
  rect P -> j < length P ->
  Forall2 Qeq (vecmat (tabulate (length P) (fun c => if j =? c then 1%Q else 0%Q)) P)
              (nth j P []).
Proof.
  intros HP Hj. unfold vecmat.
  rewrite <- (tabulate_at (nth j P [])), (rect_nth P j HP Hj).
  apply Forall2_Qeq_tabulate. intros c Hc.
  rewrite dot_unit by exact Hj.
  unfold col, at_ at 1. rewrite nth_map_lookup.
  destruct (lookup_lt_is_Some_2 P j Hj) as [r Hr].
  rewrite Hr, nth_lookup, Hr. reflexivity.
Qed.

(** A path whose entries are [S @ P] applied to one vector per horizon step,
    or to the sum of two, is coherent. *)
Lemma coherent_linear (S P M : matrix) :
  summing S -> ncols S = length P -> rect P -> length M = length S ->
  (forall t, t < ncols M ->
     exists x x' : vector, forall i, i < length S ->
       (at_ (nth i M []) t
        == dot (vecmat (nth i S []) P) x + dot (vecmat (nth i S []) P) x')%Q) ->
  coherent S M.
Proof.
  intros HS HSP HP HlenM Hlin i t Hi Ht.
  destruct (Hlin t Ht) as (x & x' & Hx).
  pose proof (summing_bottom_le S HS) as Hb.
  rewrite HlenM in Hi.
  assert (HSi : length (nth i S []) = length P).
  { rewrite rect_nth by (try apply HS; exact Hi). exact HSP. }
  rewrite col_bottom_rows by lia. rewrite HlenM.
  rewrite (dot_proper (nth i S []) (nth i S []) _
             (tabulate (ncols S)
                (fun j => dot (nth j P []) x + dot (nth j P []) x')%Q)).
  - unfold tabulate at 1. rewrite dot_map_add.
    fold (tabulate (ncols S) (fun j => dot (nth j P []) x)).
    fold (tabulate (ncols S) (fun j => dot (nth j P []) x')).
    rewrite HSP, <- !(map_as_tabulate (fun r => dot r _) P []).
    fold (matvec P x). fold (matvec P x').
    rewrite <- !(dot_assoc (ncols P)) by (try exact HSi; exact HP).
    apply Hx. exact Hi.
  - apply Forall2_Qeq_refl.
  - apply Forall2_Qeq_tabulate. intros j Hj.
    rewrite Hx by lia. rewrite summing_bottom_row by assumption.
    rewrite HSP. rewrite HSP in Hj.
    rewrite !(dot_proper _ _ _ _ (vecmat_unit P j HP Hj) (Forall2_Qeq_refl _)).
    reflexivity.
Qed.

Lemma mapM_Forall2 {A B} (f : A -> outcome B) (l : list A) (ys : list B) :
  mapM f l = Ok ys -> Forall2 (fun x y => f x = Ok y) l ys.
Proof.
  revert ys. induction l as [|x l IH]; intros ys; simpl.
  - intros [= <-]. constructor.
  - bind_ok y Hy. bind_ok ys' Hys. intros [= <-]. constructor; auto.
Qed.

Lemma mapM_matvec_chk (SP : matrix) (vs cols : list vector) :
  mapM (matvec_chk SP) vs = Ok cols -> cols = map (matvec SP) vs.
Proof.
  intros H. apply mapM_Forall2 in H.
  induction H as [|v c vs cols Hv _ IH]; [reflexivity|].
  simpl. rewrite IH. f_equal. unfold matvec_chk in Hv.
  destruct (_ =? _); congruence.
Qed.

Lemma ncols_zip_with {A B C} (f : A -> B -> C) (X : list (list A)) (Y : list (list B)) :
  same_shape X Y = true -> ncols (zip_with (zip_with f) X Y) = ncols X.
Proof.
  unfold same_shape. intros H. apply andb_true_iff in H as [H1 H2].
  apply Nat.eqb_eq in H1, H2.
  destruct X as [|r X], Y as [|r' Y]; simpl in *; try reflexivity; try discriminate.
  rewrite length_zip_with. lia.
Qed.

Lemma ncols_tabulate {A} (n : nat) (f : nat -> list A) :
  0 < n -> ncols (tabulate n f) = length (f 0).
Proof. destruct n; [lia|]. reflexivity. Qed.

Lemma nth_map_lt {A B} (f : A -> B) (l : list A) (i : nat) (d : B) (d' : A) :
  i < length l -> nth i (map f l) d = f (nth i l d').
Proof.
  intros Hi. rewrite nth_map_lookup, nth_lookup.
  now destruct (lookup_lt_is_Some_2 l i Hi) as [x ->].
Qed.

Lemma draws_length {A} (step : rng -> A * rng) (n : nat) (g : rng) :
  length (draws step n g).1 = n.
Proof.
  revert g. induction n as [|n IH]; intros g; simpl; [reflexivity|].
  destruct (step g) as [x g1]. specialize (IH g1).
  destruct (draws step n g1). simpl in *. now rewrite IH.
Qed.

Lemma Forall2_nth_lt {A B} (R : A -> B -> Prop) (l : list A) (l' : list B)
    (k : nat) (d : A) (d' : B) :
  Forall2 R l l' -> k < length l -> R (nth k l d) (nth k l' d').
Proof.
  intros H. revert k. induction H as [|x y l l' Hxy _ IH]; intros k Hk; simpl in *.
  - lia.
  - destruct k; [exact Hxy|]. apply IH. lia.
Qed.

(** The sample paths after [apply_along_axis] and the final transposition:
    entry [(i, t)] of path [k] is row [i] of [SP] times column [t] of the
    [k]-th base path. *)
Lemma apply_along_axis_paths (SP : matrix) (h : nat) (paths samples : list matrix) :
  Bootstrap.apply_along_axis_1 SP h paths = Ok samples ->
  Forall (fun p => ncols p = h) paths ->
  0 < length paths /\ 0 < h /\ length samples = length paths /\
  forall k, k < length paths ->
    sample_path (transpose_120 (length SP) h samples) k
    = tabulate (length SP) (fun i =>
        tabulate h (fun t => dot (nth i SP []) (col t (nth k paths [])))).
Proof.
  unfold Bootstrap.apply_along_axis_1. intros Hrun Hcols.
  destruct paths as [|p0 paths']; [discriminate|].
  set (paths := p0 :: paths') in *.
  destruct (h =? 0) eqn:Hh; [discriminate|]. apply Nat.eqb_neq in Hh.
  apply mapM_Forall2 in Hrun.
  pose proof (Forall2_length _ _ _ Hrun) as Hlen.
  split; [simpl; lia|]. split; [lia|]. split; [lia|].
  intros k Hk. unfold sample_path, transpose_120.
  rewrite map_tabulate. apply tabulate_ext. intros i Hi.
  rewrite map_tabulate. apply tabulate_ext. intros t Ht.
  unfold at_ at 1. rewrite (nth_map_lt _ _ _ _ []) by lia.
  pose proof (Forall2_nth_lt _ _ _ k [] [] Hrun Hk) as Hpath. cbv beta in Hpath.
  revert Hpath. bind_ok cols Hc. intros [= <-].
  apply mapM_matvec_chk in Hc. subst cols.
  assert (Hncols : ncols (nth k paths []) = h).
  { rewrite Forall_forall in Hcols. apply Hcols, list_elem_of_In, nth_In. exact Hk. }
  unfold transpose. rewrite Hncols, map_tabulate.
  rewrite ncols_tabulate by lia. unfold matvec at 1. rewrite length_map.
  rewrite (nth_tabulate _ _ i) by exact Hi.
  unfold col at 1. rewrite map_tabulate. unfold at_ at 1.
  rewrite (nth_tabulate _ _ t) by exact Ht.
  unfold at_, matvec. now rewrite (nth_map_lt _ _ _ _ []) by exact Hi.
Qed.

Lemma Bootstrap_sample_paths (me : Bootstrap.self) (n : option nat) (out : tensor) :
  Bootstrap.get_samples me n = Ok out ->
  exists paths : list matrix,
    n = Some (length paths) /\ 0 < length paths /\
    ncols (Bootstrap.S me) = length (Bootstrap.P me) /\
    has_shape3 out (length (Bootstrap.S me)) (ncols (Bootstrap.y_hat me))
      (length paths) /\
    0 < ncols (Bootstrap.y_hat me) /\
    forall k, k < length paths ->
      sample_path out k
      = tabulate (length (Bootstrap.S me)) (fun i =>
          tabulate (ncols (Bootstrap.y_hat me)) (fun t =>
            dot (vecmat (nth i (Bootstrap.S me) []) (Bootstrap.P me))
                (col t (nth k paths [])))).
Proof.
  unfold Bootstrap.get_samples.
  bind_ok RT HRT. destruct RT as [residuals T].
  bind_ok ch Hch. destruct ch as [samples_idx g'].
  bind_ok idxs Hidxs. bind_ok paths Hpaths. bind_ok SP HSP. bind_ok samples Hs.
  intros [= <-].
  apply mapM_Forall2 in Hpaths.
  assert (Hcols : Forall (fun p => ncols p = ncols (Bootstrap.y_hat me)) paths).
  { apply Forall_forall. intros p Hp.
    apply list_elem_of_lookup in Hp as [k Hk].
    destruct (Forall2_lookup_r _ _ _ _ _ Hpaths Hk) as (idx & _ & Hidx).
    unfold ew2 in Hidx. destruct (same_shape _ _) eqn:Hshape; [|discriminate].
    injection Hidx as <-. now apply ncols_zip_with. }
  destruct (apply_along_axis_paths _ _ _ _ Hs Hcols) as (Hpos & Hh & Hlen & Hpath).
  unfold matmul in HSP. destruct (_ =? _) eqn:Hdim; [|discriminate].
  apply Nat.eqb_eq in Hdim. injection HSP as <-.
  exists paths.
  split; [|split; [exact Hpos|split; [exact Hdim|split; [|split; [exact Hh|]]]]].
  - unfold choice in Hch. destruct n as [n|].
    + destruct (_ && _); [discriminate|].
      pose proof (draws_length
        (fun g => let '(j, g') :=
                    rk_interval (length (seq 0 (T - ncols (Bootstrap.y_hat me))) - 1) g
                  in (nth j (seq 0 (T - ncols (Bootstrap.y_hat me))) 0, g'))
        n (RandomState (Bootstrap.seed me))) as Hn.
      destruct (draws _ n _) as [xs g1]. injection Hch as <- <-.
      injection Hidxs as <-. simpl in Hn.
      apply Forall2_length in Hpaths. congruence.
    + destruct (_ =? 0); [discriminate|].
      destruct (rk_interval _ _). injection Hch as <- <-. discriminate.
  - rewrite <- Hlen. unfold matmul_raw. rewrite length_map.
    apply transpose_120_shape.
  - intros k Hk. rewrite (Hpath k Hk). unfold matmul_raw. rewrite length_map.
    apply tabulate_ext. intros i Hi. apply tabulate_ext. intros t Ht.
    now rewrite (nth_map_lt _ _ _ _ []) by exact Hi.
Qed.

(** X2. When [Bootstrap.get_samples] returns, [num_samples] is a positive
    integer and the array has one row per row of [S], one column per horizon
    step of [y_hat] and [num_samples] samples. *)
Theorem Bootstrap_get_samples_shape (me : Bootstrap.self) (n : option nat)
    (out : tensor) :
  Bootstrap.get_samples me n = Ok out ->
  exists k, n = Some k /\ 0 < k /\
    has_shape3 out (length (Bootstrap.S me)) (ncols (Bootstrap.y_hat me)) k.
Proof.
  intros Hrun.
  destruct (Bootstrap_sample_paths me _ out Hrun)
    as (paths & Hn & Hpos & _ & Hshape & _).
  exists (length paths). auto.
Qed.

Lemma Bootstrap_paths_coherent (me : Bootstrap.self) (n : nat) (out : tensor) :
  summing (Bootstrap.S me) -> rect (Bootstrap.P me) ->
  Bootstrap.get_samples me (Some n) = Ok out ->
  forall k, k < n -> coherent (Bootstrap.S me) (sample_path out k).
Proof.
  intros HS HP Hrun k Hk.
  destruct (Bootstrap_sample_paths me _ out Hrun)
    as (paths & Hn & Hpos & Hdim & _ & Hh & Hpath).
  injection Hn as ->. rewrite (Hpath k Hk).
  apply (coherent_linear _ (Bootstrap.P me)); try assumption.
  - apply tabulate_length.
  - intros t Ht. exists (col t (nth k paths [])), [].
    intros i Hi.
    destruct (length (Bootstrap.S me)) as [|m] eqn:Hm; [lia|].
    rewrite ncols_tabulate, tabulate_length in Ht by lia.
    rewrite (nth_tabulate _ _ i) by exact Hi.
    unfold at_ at 1. rewrite (nth_tabulate _ _ t) by exact Ht.
    rewrite dot_nil_r. ring.
Qed.

Lemma at_vadd (a b : vector) (i : nat) :
  i < length a -> length a = length b -> at_ (vadd a b) i = (at_ a i + at_ b i)%Q.
Proof.
  unfold at_, vadd. revert b i.
  induction a as [|x a IH]; intros [|y b] [|i] Hi Hlen;
    simpl in *; try lia; try reflexivity.
  apply IH; lia.
Qed.

Lemma Forall2_Qeq_at (a b : vector) (i : nat) :
  Forall2 Qeq a b -> (at_ a i == at_ b i)%Q.
Proof.
  unfold at_. intros H. revert i.
  induction H as [|x y a b Hxy _ IH]; intros [|i]; simpl;
    try reflexivity; [exact Hxy|apply IH].
Qed.

Lemma draws_Forall {A} (Pr : A -> Prop) (step : rng -> A * rng) (n : nat) (g : rng) :
  (forall g, Pr (step g).1) -> Forall Pr (draws step n g).1.
Proof.
  intros Hstep. revert g. induction n as [|n IH]; intros g; simpl; [constructor|].
  specialize (Hstep g). destruct (step g) as [x g1]. specialize (IH g1).
  destruct (draws step n g1). simpl in *. now constructor.
Qed.

Lemma multivariate_normal_rows (mean : vector) (cov : matrix) (n : nat) (g g' : rng)
    (p : matrix) :
  multivariate_normal mean cov n g = Ok (p, g') ->
  length cov = ncols cov /\ length mean = length cov /\
  forall k, k < n ->
    exists z, length z = length mean /\
      nth k p [] = vadd mean (vecmat z (svd_factor cov)).
Proof.
  unfold multivariate_normal, standard_normal.
  destruct (_ && _) eqn:Hchk; [|discriminate].
  apply andb_true_iff in Hchk as [H1 H2]. apply Nat.eqb_eq in H1, H2.
  pose proof (draws_length (draws rk_gauss (length mean)) n g) as Hlen.
  pose proof (draws_Forall (fun z => length z = length mean)
                (draws rk_gauss (length mean)) n g
                (fun g0 => draws_length rk_gauss (length mean) g0)) as Hall.
  destruct (draws _ n g) as [zs g1]. simpl in Hlen, Hall.
  intros [= <- <-]. repeat split; try assumption.
  intros k Hk. exists (nth k zs []). split.
  - rewrite Forall_forall in Hall. apply Hall, list_elem_of_In, nth_In. lia.
  - now rewrite (nth_map_lt _ _ _ _ []) by lia.
Qed.

Lemma col_transpose (M : matrix) (i : nat) :
  rect M -> i < length M -> col i (transpose M) = nth i M [].
Proof.
  intros HM Hi. unfold col at 1, transpose. rewrite map_tabulate.
  rewrite <- (tabulate_at (nth i M [])), (rect_nth M i HM Hi).
  apply tabulate_ext. intros c Hc. unfold col, at_ at 1.
  now rewrite (nth_map_lt _ _ _ _ []) by exact Hi.
Qed.

Lemma matmul_raw_rect (A B : matrix) : Forall (fun r => length r = ncols B) (matmul_raw A B).
Proof.
  unfold matmul_raw. apply Forall_forall. intros r Hr.
  apply list_elem_of_fmap in Hr as (a & -> & _). unfold vecmat. apply tabulate_length.
Qed.

Lemma rect_matmul_raw (A B : matrix) : rect (matmul_raw A B).
Proof.
  unfold rect. pose proof (matmul_raw_rect A B) as H.
  destruct (matmul_raw A B) as [|r M] eqn:HM; [constructor|].
  simpl. inversion H as [|? ? Hr _]; subst. now rewrite Hr.
Qed.

(** Entry [i] of a combination of the rows of a reconciled covariance
    [SP @ Wt @ SP.T] is row [i] of [SP] applied to a vector. *)
Lemma reconciled_cov_entry (SP Wt : matrix) (w : vector) (i : nat) :
  rect SP ->
  length (matmul_raw (matmul_raw SP Wt) (transpose SP))
  = ncols (matmul_raw (matmul_raw SP Wt) (transpose SP)) ->
  length w = length (matmul_raw (matmul_raw SP Wt) (transpose SP)) ->
  i < length SP ->
  (at_ (vecmat w (matmul_raw (matmul_raw SP Wt) (transpose SP))) i
   == dot (nth i SP []) (vecmat w (matmul_raw SP Wt)))%Q.
Proof.
  set (cov := matmul_raw (matmul_raw SP Wt) (transpose SP)).
  intros HSP Hsq Hw Hi. set (A := matmul_raw SP Wt) in *.
  assert (HlenA : length A = length SP) by (unfold A, matmul_raw; apply length_map).
  assert (Hlencov : length cov = length SP).
  { unfold cov, matmul_raw at 1. now rewrite length_map. }
  assert (HncolsB : ncols (transpose SP) = length SP).
  { rewrite <- Hlencov, Hsq. unfold cov, matmul_raw at 1.
    destruct A as [|a0 A']; [simpl in HlenA; lia|]. simpl. unfold vecmat.
    now rewrite tabulate_length. }
  unfold vecmat at 1, at_ at 1. rewrite nth_tabulate by lia.
  assert (Hcol : col i cov = matvec A (nth i SP [])).
  { unfold col, cov, matmul_raw at 1, matvec. rewrite map_map.
    apply map_ext. intros a. unfold vecmat, at_.
    rewrite nth_tabulate by lia. now rewrite col_transpose. }
  rewrite Hcol.
  rewrite <- (dot_assoc (ncols Wt)) by (try lia; apply matmul_raw_rect).
  rewrite dot_comm. apply dot_proper; [apply Forall2_Qeq_refl|].
  unfold vecmat.
  replace (ncols A) with (ncols Wt); [apply Forall2_Qeq_refl|].
  pose proof (matmul_raw_rect SP Wt) as HA. fold A in HA.
  destruct A as [|a0 A']; [simpl in HlenA; lia|].
  inversion HA; subst. simpl. congruence.
Qed.

Lemma Normality_init_fields (S P y_hat sigmah W : matrix) (seed : Z)
    (me : Normality.self) :
  Normality.__init__ S P y_hat sigmah W seed = Ok me ->
  Normality.S me = S /\ Normality.P me = P /\ Normality.y_hat me = y_hat /\
  ncols S = length P /\ Normality.SP me = matmul_raw S P /\
  Forall (fun cov => exists Wt,
            cov = matmul_raw (matmul_raw (Normality.SP me) Wt)
                             (transpose (Normality.SP me)))
         (Normality.cov_rec me).
Proof.
  unfold Normality.__init__.
  bind_ok SP HSP. bind_ok R1 HR1. bind_ok Wh HWh. bind_ok cov_rec Hcov.
  bind_ok sr Hsr. intros [= <-]. simpl.
  unfold matmul in HSP. destruct (_ =? _) eqn:Hdim; [|discriminate].
  apply Nat.eqb_eq in Hdim. injection HSP as <-.
  repeat split; try reflexivity; try assumption.
  apply mapM_Forall2 in Hcov. apply Forall_forall. intros cov Hin.
  apply list_elem_of_lookup in Hin as [k Hk].
  destruct (Forall2_lookup_r _ _ _ _ _ Hcov Hk) as (Wt & _ & HWt).
  revert HWt. bind_ok SW HSW. unfold matmul in *.
  destruct (_ =? _); [|discriminate]. injection HSW as <-.
  destruct (_ =? _); [|discriminate]. intros [= <-]. now exists Wt.
Qed.

Lemma draw_steps_Forall2 (me : Normality.self) (n : nat) (ts : list nat) (g : rng)
    (partials : list matrix) :
  Normality.draw_steps me n ts g = Ok partials ->
  Forall2 (fun t p => exists cov g1 g2,
             let mean := matvec (Normality.SP me) (col t (Normality.y_hat me)) in
             length mean = length (Normality.y_hat me) /\
             Normality.cov_rec me !! t = Some cov /\
             multivariate_normal mean cov n g1 = Ok (p, g2))
          ts partials.
Proof.
  revert g partials. induction ts as [|t ts IH]; intros g partials; simpl.
  - intros [= <-]. constructor.
  - bind_ok mean Hmean. bind_ok cov Hcov.
    destruct (multivariate_normal mean cov n g) as [[p g1]|] eqn:Hp;
      cbn [mbind outcome_bind]; [|discriminate].
    destruct (length mean =? _) eqn:Hlen; [|discriminate].
    bind_ok rest Hrest. intros [= <-].
    unfold matvec_chk in Hmean. destruct (_ =? _); [|discriminate].
    injection Hmean as <-. apply Nat.eqb_eq in Hlen.
    unfold list_item in Hcov. destruct (_ !! t) as [c|] eqn:Hc; [|discriminate].
    injection Hcov as ->.
    constructor; [|eapply IH; eassumption].
    exists cov, g, g1. auto.
Qed.

Lemma Normality_paths_coherent (S P y_hat sigmah W : matrix) (seed : Z)
    (me : Normality.self) (n : nat) (out : tensor) :
  NumericsLaws Nu -> summing S -> rect P ->
  Normality.__init__ S P y_hat sigmah W seed = Ok me ->
  Normality.get_samples me (Some n) = Ok out ->
  forall k, k < n -> coherent S (sample_path out k).
Proof.
  intros L HS HP Hinit Hrun k Hk.
  destruct (Normality_init_fields _ _ _ _ _ _ _ Hinit)
    as (HeS & HeP & Hey & Hdim & HSP & Hcovs).
  apply Normality_get_samples_cells in Hrun as (partials & Hsteps & ->).
  apply draw_steps_Forall2 in Hsteps.
  set (N := length (Normality.y_hat me)) in *.
  set (H := ncols (Normality.y_hat me)) in *.
  assert (Hpath : sample_path
            (tabulate N (fun i => tabulate H (fun t =>
               tabulate n (fun k0 => at_ (nth k0 (nth t partials []) []) i)))) k
          = tabulate N (fun i => tabulate H (fun t =>
               at_ (nth k (nth t partials []) []) i))).
  { unfold sample_path. rewrite map_tabulate. apply tabulate_ext. intros i Hi.
    rewrite map_tabulate. apply tabulate_ext. intros t Ht.
    unfold at_ at 1. now rewrite nth_tabulate by exact Hk. }
  rewrite Hpath. clear Hpath.
  destruct (Nat.eq_dec N 0) as [HN0|HN0].
  { rewrite HN0. intros i t Hi. simpl in Hi. lia. }
  destruct (Nat.eq_dec H 0) as [HH0|HH0].
  { rewrite HH0. intros i t _ Ht. rewrite ncols_tabulate in Ht by lia.
    simpl in Ht. lia. }
  assert (Hstep : forall t, t < H -> exists cov g1 g2,
            length (Normality.SP me) = N /\
            Normality.cov_rec me !! t = Some cov /\
            multivariate_normal
              (matvec (Normality.SP me) (col t (Normality.y_hat me))) cov n g1
            = Ok (nth t partials [], g2)).
  { intros t Ht.
    assert (Hlen : length (seq 0 H) = length partials)
      by (eapply Forall2_length; eassumption).
    pose proof (Forall2_nth_lt _ _ _ t 0 [] Hsteps) as Ht'.
    rewrite length_seq, seq_nth in Ht' by exact Ht.
    destruct (Ht' Ht) as (cov & g1 & g2 & Hm & Hc & Hmvn).
    exists cov, g1, g2. unfold matvec in Hm. rewrite length_map in Hm. auto. }
  assert (HlenS : N = length S).
  { destruct (Hstep 0 ltac:(lia)) as (_ & _ & _ & Hl & _).
    rewrite HSP in Hl. unfold matmul_raw in Hl. rewrite length_map in Hl. lia. }
  apply (coherent_linear _ P); try assumption.
  - now rewrite tabulate_length.
  - intros t Ht. rewrite ncols_tabulate, tabulate_length in Ht by lia.
    destruct (Hstep t Ht) as (cov & g1 & g2 & HlSP & Hcov & Hmvn).
    destruct (multivariate_normal_rows _ _ _ _ _ _ Hmvn) as (Hsq & Hml & Hrows).
    destruct (Hrows k Hk) as (z & Hz & Hrow).
    rewrite Forall_lookup in Hcovs. destruct (Hcovs t cov Hcov) as [Wt ->].
    set (cov := matmul_raw (matmul_raw (Normality.SP me) Wt)
                           (transpose (Normality.SP me))) in *.
    destruct (svd_factor_range _ L cov z ltac:(lia)) as (w & Hw & Hzw).
    exists (col t (Normality.y_hat me)),
           (vecmat w (matmul_raw (Normality.SP me) Wt)).
    intros i Hi.
    rewrite (nth_tabulate _ _ i) by lia.
    unfold at_ at 1. rewrite (nth_tabulate _ _ t) by exact Ht.
    rewrite Hrow.
    assert (Hmean_len : length (matvec (Normality.SP me) (col t (Normality.y_hat me)))
                        = length (Normality.SP me))
      by (unfold matvec; apply length_map).
    rewrite at_vadd.
    2:{ rewrite Hmean_len. lia. }
    2:{ unfold vecmat. rewrite tabulate_length, (svd_factor_ncols _ L). lia. }
    rewrite (Forall2_Qeq_at _ _ i Hzw). unfold cov.
    rewrite reconciled_cov_entry; try assumption; try lia.
    2:{ rewrite HSP. apply rect_matmul_raw. }
    assert (Hrowi : nth i (Normality.SP me) [] = vecmat (nth i S []) P).
    { rewrite HSP. unfold matmul_raw. now rewrite (nth_map_lt _ _ _ _ []) by lia. }
    unfold at_, matvec. rewrite (nth_map_lt _ _ _ _ []) by lia.
    rewrite Hrowi. reflexivity.
Qed.

(** C1 (as the code has it). Every sample path returned by
    [Normality.get_samples] and by [Bootstrap.get_samples] is coherent: each
    row of [out[:, :, k]] equals the matching row of the summing matrix
    applied to the bottom rows of the same path.  ([PERMBU] is not part of
    the statement: its parent rows are sums of reordered children.) *)
Theorem Normality_Bootstrap_paths_coherent :
  (forall (S P y_hat sigmah W : matrix) (seed : Z) (me : Normality.self)
          (n : nat) (out : tensor),
     NumericsLaws Nu -> summing S -> rect P ->
     Normality.__init__ S P y_hat sigmah W seed = Ok me ->
     Normality.get_samples me (Some n) = Ok out ->
     forall k, k < n -> coherent S (sample_path out k)) /\
  (forall (me : Bootstrap.self) (n : nat) (out : tensor),
     summing (Bootstrap.S me) -> rect (Bootstrap.P me) ->
     Bootstrap.get_samples me (Some n) = Ok out ->
     forall k, k < n -> coherent (Bootstrap.S me) (sample_path out k)).
Proof.
  split.
  - intros S P y_hat sigmah W seed me n out L HS HP Hinit Hrun.
    eapply Normality_paths_coherent; eassumption.
  - intros me n out HS HP Hrun. now apply Bootstrap_paths_coherent.
Qed.

(** ** A mismatch between S and P in Bootstrap *)

Lemma Bootstrap_mismatch_raises (me : Bootstrap.self) (n : option nat) :
  ncols (Bootstrap.S me) <> length (Bootstrap.P me) ->
  raises (Bootstrap.get_samples me n).
Proof.
  intros Hne. unfold Bootstrap.get_samples, raises.
  destruct (residuals_of _ _) as [[residuals T]|]; cbn [mbind outcome_bind]; eauto.
  destruct (choice _ _ _) as [[samples_idx g']|]; cbn [mbind outcome_bind]; eauto.
  destruct (iterate _) as [idxs|]; cbn [mbind outcome_bind]; eauto.
  destruct (mapM _ idxs) as [paths|]; cbn [mbind outcome_bind]; eauto.
  unfold matmul. apply Nat.eqb_neq in Hne. rewrite Hne. cbn. eauto.
Qed.


(** ** PERMBU.get_samples with fewer samples than residual columns *)

Lemma insert_index_length (row : vector) (i : nat) (l : list nat) :
  length (insert_index row i l) = Datatypes.S (length l).
Proof.
  induction l as [|j l IH]; simpl; [reflexivity|].
  destruct (Qle_bool _ _); simpl; congruence.
Qed.

Lemma insert_index_Forall (Pr : nat -> Prop) (row : vector) (i : nat) (l : list nat) :
  Pr i -> Forall Pr l -> Forall Pr (insert_index row i l).
Proof.
  intros Hi Hl. induction Hl as [|j l Hj Hl IH]; simpl.
  - now repeat constructor.
  - destruct (Qle_bool _ _); repeat constructor; assumption.
Qed.

Lemma argsort_from (row : vector) (Pr : nat -> Prop) (idxs acc : list nat) :
  Forall Pr idxs -> Forall Pr acc ->
  let r := foldl (fun acc i => insert_index row i acc) acc idxs in
  length r = length acc + length idxs /\ Forall Pr r.
Proof.
  intros His. revert acc.
  induction His as [|i idxs Hi His IH]; intros acc Hacc; simpl.
  - split; [lia|exact Hacc].
  - destruct (IH (insert_index row i acc)) as [Hlen Hall].
    { now apply insert_index_Forall. }
    rewrite insert_index_length in Hlen. split; [lia|exact Hall].
Qed.

Lemma argsort_spec (row : vector) :
  length (argsort row) = length row /\
  Forall (fun j => j < length row) (argsort row).
Proof.
  unfold argsort.
  destruct (argsort_from row (fun j => j < length row) (seq 0 (length row)) [])
    as [Hlen Hall].
  - apply Forall_forall. intros j Hj. apply elem_of_seq in Hj. lia.
  - constructor.
  - rewrite length_seq in Hlen. simpl in Hlen. split; assumption.
Qed.

Lemma foldl_insert_length (l : list (nat * nat)) (acc : list nat) :
  length (foldl (fun ranks jk => <[jk.1 := jk.2]> ranks) acc l) = length acc.
Proof.
  revert acc. induction l as [|jk l IH]; intros acc; simpl; [reflexivity|].
  now rewrite IH, length_insert.
Qed.

(** The largest rank is among the ranks of a non-empty row. *)
Lemma rank_row_spec (row : vector) :
  0 < length row ->
  length (PERMBU.rank_row row) = length row /\
  (length row - 1) ∈ PERMBU.rank_row row.
Proof.
  intros Hpos. destruct (argsort_spec row) as [Hlen Hall].
  unfold PERMBU.rank_row. split.
  { now rewrite foldl_insert_length, length_replicate. }
  destruct (length row) as [|T] eqn:HT; [lia|].
  destruct (argsort row) as [|j0 temp] eqn:Htemp using rev_ind; [discriminate|].
  clear IHtemp. rewrite length_app in Hlen. simpl in Hlen.
  rewrite seq_S. simpl. rewrite zip_with_app by (rewrite length_seq; lia).
  simpl. rewrite foldl_snoc. simpl. rewrite Nat.sub_0_r.
  apply list_elem_of_lookup. exists j0.
  apply list_lookup_insert_eq.
  rewrite foldl_insert_length. simpl. rewrite length_replicate.
  apply Forall_app in Hall as [_ Hj0]. now inversion Hj0.
Qed.

Lemma mapM_list_item_raises {A} (flat : list A) (idxs : list nat) (i : nat) :
  i ∈ idxs -> length flat <= i -> mapM (list_item flat) idxs = Raise IndexError.
Proof.
  intros Hin Hi. induction idxs as [|x idxs IH]; [now apply elem_of_nil in Hin|].
  simpl.
  assert (Hx : (exists a, list_item flat x = Ok a /\ x < length flat)
               \/ list_item flat x = Raise IndexError).
  { unfold list_item. destruct (flat !! x) as [a|] eqn:Hx; [left|now right].
    exists a. split; [reflexivity|]. eapply lookup_lt_Some; eassumption. }
  destruct Hx as [(a & -> & Hlt)| ->]; cbn [mbind outcome_bind]; [|reflexivity].
  apply elem_of_cons in Hin as [->|Hin]; [lia|]. now rewrite (IH Hin).
Qed.

Lemma insert_unique_nonempty {A} (ltb : A -> A -> bool) (x : A) (l : list A) :
  insert_unique ltb x l <> [].
Proof. destruct l as [|y l]; simpl; [discriminate|]. now repeat destruct (ltb _ _). Qed.

Lemma unique_nonempty {A} (ltb : A -> A -> bool) (l : list A) :
  l <> [] -> unique ltb l <> [].
Proof. destruct l; [congruence|]. intros _. apply insert_unique_nonempty. Qed.

Lemma take_rows_spec {A} (X : list A) (idxs : list nat) (Y : list A) :
  take_rows X idxs = Ok Y -> length Y = length idxs /\ Forall (fun y => y ∈ X) Y.
Proof.
  intros H. apply mapM_Forall2 in H. split.
  - symmetry. eapply Forall2_length; eassumption.
  - induction H as [|i y idxs Y Hi _ IH]; constructor; [|exact IH].
    unfold list_item in Hi. destruct (X !! i) as [a|] eqn:Ha; [|discriminate].
    injection Hi as <-. eapply list_elem_of_lookup_2; eassumption.
Qed.

Lemma length_concat_uniform {A} (n : nat) (l : list (list A)) :
  Forall (fun r => length r = n) l -> length (concat l) = length l * n.
Proof.
  induction 1 as [|r l Hr _ IH]; simpl; [reflexivity|].
  rewrite length_app, IH, Hr. lia.
Qed.

Lemma normal_rows_lengths (ms : list (Q * Q)) (n : nat) (g : rng) :
  Forall (fun r => length r = n) (normal_rows ms n g).
Proof.
  revert g. induction ms as [|[m s] ms IH]; intros g; simpl; [constructor|].
  unfold normal.
  pose proof (draws_length
    (fun g0 => let '(z, g') := rk_gauss g0 in ((m + s * z)%Q, g')) n g) as Hlen.
  destruct (draws _ n g) as [x g']. simpl in Hlen. constructor; [exact Hlen|apply IH].
Qed.

(** Every cell of the reshaped base samples holds [n] samples. *)
Lemma reshape3_cells (rows : matrix) (n_series n_horizon n : nat) (B : tensor) :
  PERMBU.reshape3 rows n_series n_horizon n = Ok B ->
  Forall (fun r => length r = n) rows ->
  Forall (fun Xi => length Xi = n_horizon /\ Forall (fun c => length c = n) Xi) B.
Proof.
  unfold PERMBU.reshape3. destruct (_ =? _) eqn:Hsize; [|discriminate].
  apply Nat.eqb_eq in Hsize. intros [= <-] Hrows.
  apply tabulate_Forall. intros i Hi. split; [apply tabulate_length|].
  apply tabulate_Forall. intros t Ht.
  destruct (Nat.lt_ge_cases (i * n_horizon + t) (length rows)) as [Hin|Hout].
  - rewrite Forall_forall in Hrows. apply Hrows, list_elem_of_In, nth_In. exact Hin.
  - rewrite nth_overflow by exact Hout. simpl.
    destruct n as [|n]; [reflexivity|].
    apply Nat.mul_cancel_r in Hsize; [|lia].
    assert (Datatypes.S i * n_horizon <= n_series * n_horizon)
      by (apply Nat.mul_le_mono_r; lia).
    lia.
Qed.

(** With [T > n] columns of ranks, the flat index built from the largest
    rank of the last child lies beyond the [C * n] flattened samples. *)
Lemma permutate_samples_raises (samples : matrix) (cp : list (list nat)) (n T : nat) :
  cp <> [] -> length samples = length cp ->
  Forall (fun r => length r = n) samples ->
  Forall (fun p => length p = T /\ (T - 1) ∈ p) cp ->
  n < T ->
  PERMBU._permutate_samples samples cp = Raise IndexError.
Proof.
  intros Hne Hlen Hsamples Hcp HnT. unfold PERMBU._permutate_samples.
  assert (HC : 0 < length cp) by (destruct cp; [congruence|simpl; lia]).
  assert (Hncols : ncols cp = T).
  { destruct cp as [|p0 cp']; [congruence|]. simpl. inversion Hcp; subst. tauto. }
  rewrite Hncols.
  assert (HC1 : length cp - 1 < length cp) by lia.
  destruct (lookup_lt_is_Some_2 cp (length cp - 1) HC1) as [p Hp].
  assert (HpT : (T - 1) ∈ p).
  { rewrite Forall_lookup in Hcp. exact (proj2 (Hcp _ _ Hp)). }
  rewrite (mapM_list_item_raises _ _ ((T - 1) + (length cp - 1) * T));
    [reflexivity| |].
  - apply list_elem_of_In, in_concat.
    exists (map (fun q => q + (length cp - 1) * T) p). split.
    + apply list_elem_of_In. eapply list_elem_of_lookup_2.
      rewrite lookup_zip_with, lookup_seq_lt by exact HC1. rewrite Hp. reflexivity.
    + apply list_elem_of_In, list_elem_of_fmap. exists (T - 1).
      split; [reflexivity|exact HpT].
  - rewrite (length_concat_uniform n) by exact Hsamples. rewrite Hlen.
    clear - HC HnT. nia.
Qed.

Lemma permutate_predictions_raises (cs : tensor) (cp : list (list nat))
    (n T H : nat) :
  cp <> [] -> length cs = length cp -> 0 < H ->
  Forall (fun Xi => length Xi = H /\ Forall (fun c => length c = n) Xi) cs ->
  Forall (fun p => length p = T /\ (T - 1) ∈ p) cp ->
  n < T ->
  PERMBU._permutate_predictions cs cp = Raise IndexError.
Proof.
  intros Hne Hlen HH Hcs Hcp HnT. unfold PERMBU._permutate_predictions.
  assert (Hncols : ncols cs = H).
  { destruct cs as [|c0 cs']; [destruct cp; [congruence|discriminate]|].
    simpl. inversion Hcs; subst. tauto. }
  rewrite Hncols. destruct H as [|H]; [lia|]. cbn [seq mapM].
  rewrite (permutate_samples_raises _ cp n T); try assumption; [reflexivity| |].
  - unfold PERMBU.slice_t. now rewrite length_map.
  - unfold PERMBU.slice_t. apply Forall_forall. intros r Hr.
    apply list_elem_of_fmap in Hr as (Xi & -> & HXi).
    rewrite Forall_forall in Hcs. destruct (Hcs Xi HXi) as [HlenXi Hcells].
    rewrite Forall_forall in Hcells. apply Hcells, list_elem_of_In, nth_In. lia.
Qed.

Lemma drop_nan_columns_lengths (R : list (list (option Q))) :
  Forall (fun r => length r = length (kept_columns R)) (drop_nan_columns R).
Proof.
  unfold drop_nan_columns. apply Forall_forall. intros r Hr.
  apply list_elem_of_fmap in Hr as (r0 & -> & _). apply length_map.
Qed.

(** X3. [PERMBU.get_samples] raises whenever fewer samples are asked for
    than there are complete residual columns, the forecasts have a horizon
    step and the hierarchy has two levels or more: the residuals are only
    widened to [num_samples], never narrowed, and the rank permutation of
    the last child then indexes past the flattened samples. *)
Theorem PERMBU_get_samples_below_residuals_raises (me : PERMBU.self) (n : nat)
    (g : rng) (R : list (list (option Q))) :
  ew2 sub_nan (PERMBU.y_insample me) (PERMBU.y_hat_insample me) = Ok R ->
  n < length (kept_columns R) ->
  0 < ncols (PERMBU.y_hat me) ->
  (forall hl, vstack (PERMBU._nonzero_indexes_by_row (transpose (PERMBU.S me))) = Ok hl ->
              2 <= ncols hl) ->
  raises (PERMBU.get_samples me (Some n) g).
Proof.
  intros HR HnT HH Hlevels. unfold PERMBU.get_samples, residuals_of. rewrite HR.
  cbn [mbind outcome_bind py_gt].
  set (T := length (kept_columns R)) in *.
  replace (T <? n) with false by (symmetry; apply Nat.ltb_ge; lia).
  cbn [mbind outcome_bind].
  set (rows := normal_rows _ n _).
  destruct (PERMBU.reshape3 rows _ _ n) as [B|] eqn:HB; cbn [mbind outcome_bind];
    [|unfold raises; eauto].
  pose proof (reshape3_cells _ _ _ _ _ HB (normal_rows_lengths _ _ _)) as Hcells.
  destruct (vstack _) as [hl|] eqn:Hhl; cbn [mbind outcome_bind];
    [|unfold raises; eauto].
  specialize (Hlevels hl eq_refl).
  assert (Hhlne : hl <> []).
  { unfold vstack in Hhl. destruct (PERMBU._nonzero_indexes_by_row _); [discriminate|].
    destruct (forallb _ _); [|discriminate]. injection Hhl as <-. discriminate. }
  destruct (ncols hl - 1) as [|k] eqn:Hk; [lia|].
  rewrite seq_S, rev_app_distr. cbn [rev app PERMBU.levels_loop Nat.add].
  unfold PERMBU.level_step.
  set (children_links := unique pair_ltb _).
  set (children_idxs := unique Nat.ltb (map snd children_links)).
  assert (Hci : children_idxs <> []).
  { apply unique_nonempty. intros Hnil. apply map_eq_nil in Hnil.
    revert Hnil. apply unique_nonempty. intros Hnil. apply map_eq_nil in Hnil.
    contradiction. }
  destruct (take_rows (PERMBU._obtain_ranks _) children_idxs) as [cp|] eqn:Hcp;
    cbn [mbind outcome_bind]; [|unfold raises; eauto].
  destruct (take_rows B children_idxs) as [cs|] eqn:Hcs;
    cbn [mbind outcome_bind]; [|unfold raises; eauto].
  apply take_rows_spec in Hcp as [Hcplen Hcpin].
  apply take_rows_spec in Hcs as [Hcslen Hcsin].
  rewrite (permutate_predictions_raises cs cp n T (ncols (PERMBU.y_hat me)));
    [unfold raises; eauto|..]; try assumption.
  - intros ->. destruct children_idxs; [congruence|discriminate].
  - lia.
  - eapply Forall_impl; [exact Hcsin|]. intros Xi HXi. cbv beta in HXi.
    rewrite Forall_forall in Hcells. now apply Hcells.
  - eapply Forall_impl; [exact Hcpin|]. intros p Hp. cbv beta in Hp.
    unfold PERMBU._obtain_ranks in Hp.
    apply list_elem_of_fmap in Hp as (row & -> & Hrow).
    pose proof (drop_nan_columns_lengths R) as Hlens.
    rewrite Forall_forall in Hlens. specialize (Hlens row Hrow). fold T in Hlens.
    destruct (rank_row_spec row ltac:(lia)) as [Hl Hmax].
    rewrite Hlens in Hl, Hmax. split; assumption.
Qed.


(** ** Ranks *)

Lemma insert_index_perm (row : vector) (i : nat) (l : list nat) :
  insert_index row i l ≡ₚ i :: l.
Proof.
  induction l as [|j l IH]; simpl; [reflexivity|].
  destruct (Qle_bool _ _); [|reflexivity].
  rewrite IH. apply Permutation_swap.
Qed.

Lemma argsort_perm (row : vector) : argsort row ≡ₚ seq 0 (length row).
Proof.
  unfold argsort.
  assert (Hgen : forall idxs acc,
            foldl (fun acc i => insert_index row i acc) acc idxs ≡ₚ acc ++ idxs).
  { induction idxs as [|i idxs IH]; intros acc; simpl.
    - now rewrite app_nil_r.
    - rewrite IH, insert_index_perm. simpl. apply Permutation_middle. }
  apply (Hgen _ []).
Qed.

Lemma insert_index_sorted (row : vector) (i : nat) (l : list nat) :
  StronglySorted (fun j k => (at_ row j <= at_ row k)%Q) l ->
  StronglySorted (fun j k => (at_ row j <= at_ row k)%Q) (insert_index row i l).
Proof.
  induction 1 as [|j l Hs IH Hj]; simpl.
  - repeat constructor.
  - destruct (Qle_bool (at_ row j) (at_ row i)) eqn:E.
    + constructor; [exact IH|].
      apply insert_index_Forall; [now apply Qle_bool_iff|exact Hj].
    + assert (Hlt : (at_ row i < at_ row j)%Q).
      { apply Qnot_le_lt. intros Hle. apply Qle_bool_iff in Hle. congruence. }
      constructor; [now constructor|].
      constructor; [now apply Qlt_le_weak|].
      eapply Forall_impl; [exact Hj|]. intros k Hk. simpl in Hk.
      eapply Qle_trans; [apply Qlt_le_weak, Hlt|exact Hk].
Qed.

Lemma argsort_sorted (row : vector) :
  StronglySorted (fun j k => (at_ row j <= at_ row k)%Q) (argsort row).
Proof.
  unfold argsort.
  assert (Hgen : forall idxs acc,
            StronglySorted (fun j k => (at_ row j <= at_ row k)%Q) acc ->
            StronglySorted (fun j k => (at_ row j <= at_ row k)%Q)
              (foldl (fun acc i => insert_index row i acc) acc idxs)).
  { induction idxs as [|i idxs IH]; intros acc Hacc; simpl; [exact Hacc|].
    apply IH, insert_index_sorted, Hacc. }
  apply Hgen. constructor.
Qed.

Lemma StronglySorted_lookup {A} (R : A -> A -> Prop) (l : list A) (a b : nat) (x y : A) :
  StronglySorted R l -> a < b -> l !! a = Some x -> l !! b = Some y -> R x y.
Proof.
  intros Hs. revert a b. induction Hs as [|z l Hs IH Hz]; intros a b Hab Ha Hb.
  - discriminate.
  - destruct b as [|b]; [lia|]. simpl in Hb. destruct a as [|a].
    + simpl in Ha. injection Ha as <-.
      rewrite Forall_lookup in Hz. eapply Hz, Hb.
    + simpl in Ha. eapply (IH a b); [lia|exact Ha|exact Hb].
Qed.

(** The scatter [ranks[idx] = vals] through distinct indices. *)
Lemma foldl_insert_frame (l : list (nat * nat)) (acc : list nat) (j : nat) :
  j ∉ l.*1 ->
  foldl (fun ranks jk => <[jk.1 := jk.2]> ranks) acc l !! j = acc !! j.
Proof.
  revert acc. induction l as [|[j0 v0] l IH]; intros acc Hj; simpl; [reflexivity|].
  rewrite fmap_cons, not_elem_of_cons in Hj. destruct Hj as [Hne Hj]. simpl in Hne.
  rewrite IH by exact Hj. now apply list_lookup_insert_ne.
Qed.

Lemma foldl_insert_lookup (l : list (nat * nat)) (acc : list nat) (k j v : nat) :
  NoDup l.*1 -> Forall (fun jk => jk.1 < length acc) l ->
  l !! k = Some (j, v) ->
  foldl (fun ranks jk => <[jk.1 := jk.2]> ranks) acc l !! j = Some v.
Proof.
  revert acc k. induction l as [|[j0 v0] l IH]; intros acc k Hnd Hlt Hk; [discriminate|].
  rewrite fmap_cons, NoDup_cons in Hnd. destruct Hnd as [Hfresh Hnd].
  apply Forall_cons in Hlt. destruct Hlt as [Hj0 Hlt]. simpl in *.
  destruct k as [|k].
  - injection Hk as -> ->.
    rewrite foldl_insert_frame by exact Hfresh.
    now apply list_lookup_insert_eq.
  - eapply IH; [exact Hnd| |exact Hk].
    eapply Forall_impl; [exact Hlt|]. intros jk Hjk. simpl in Hjk.
    now rewrite length_insert.
Qed.

Lemma rank_row_inverse (row : vector) (k : nat) :
  k < length row ->
  nth (nth k (argsort row) 0) (PERMBU.rank_row row) 0 = k.
Proof.
  intros Hk. destruct (argsort_spec row) as [Hlen Hrange].
  unfold PERMBU.rank_row.
  assert (Hz : zip (argsort row) (seq 0 (length row)) !! k
               = Some (nth k (argsort row) 0, k)).
  { apply lookup_zip_Some. split; [|now apply lookup_seq_lt].
    rewrite nth_lookup. destruct (argsort row !! k) eqn:E; [reflexivity|].
    apply lookup_ge_None in E. lia. }
  assert (Hfst : (zip (argsort row) (seq 0 (length row))).*1 = argsort row).
  { apply fst_zip. rewrite length_seq. lia. }
  erewrite nth_lookup, foldl_insert_lookup; [reflexivity| | |exact Hz].
  - rewrite Hfst. rewrite argsort_perm. apply NoDup_seq.
  - rewrite Forall_forall. intros [j v] Hin. simpl.
    rewrite length_replicate.
    assert (Hj : j ∈ (zip (argsort row) (seq 0 (length row))).*1).
    { apply list_elem_of_fmap. exists (j, v). split; [reflexivity|exact Hin]. }
    rewrite Hfst in Hj. rewrite Forall_forall in Hrange. now apply Hrange.
Qed.

Lemma rank_row_length (row : vector) : length (PERMBU.rank_row row) = length row.
Proof. unfold PERMBU.rank_row. now rewrite foldl_insert_length, length_replicate. Qed.

Lemma rank_row_perm (row : vector) : PERMBU.rank_row row ≡ₚ seq 0 (length row).
Proof.
  pose proof (rank_row_length row) as Hlen.
  destruct (argsort_spec row) as [Hlen' _].
  set (g := fun j => nth j (PERMBU.rank_row row) 0).
  assert (H1 : map g (argsort row) = seq 0 (length row)).
  { apply (nth_ext _ _ 0 0).
    - now rewrite length_map, length_seq.
    - intros k Hk. rewrite length_map, Hlen' in Hk.
      rewrite (nth_map_lt _ _ _ _ 0) by lia.
      rewrite seq_nth by exact Hk. apply rank_row_inverse, Hk. }
  assert (H2 : map g (seq 0 (length row)) = PERMBU.rank_row row).
  { apply (nth_ext _ _ 0 0).
    - now rewrite length_map, length_seq.
    - intros k Hk. rewrite length_map, length_seq in Hk.
      rewrite (nth_map_lt _ _ _ _ 0) by (rewrite length_seq; lia).
      now rewrite seq_nth by exact Hk. }
  apply (Permutation_trans (l' := map g (argsort row))).
  - rewrite <- H2. apply Permutation_map. symmetry. apply argsort_perm.
  - now rewrite H1.
Qed.

Lemma rank_row_order (row : vector) (i j : nat) :
  i < length row -> j < length row -> (at_ row i < at_ row j)%Q ->
  nth i (PERMBU.rank_row row) 0 < nth j (PERMBU.rank_row row) 0.
Proof.
  intros Hi Hj Hlt. destruct (argsort_spec row) as [Hlen _].
  assert (Hpos : forall x, x < length row ->
            exists a, a < length row /\ argsort row !! a = Some x /\
                      nth x (PERMBU.rank_row row) 0 = a).
  { intros x Hx.
    assert (Hin : x ∈ argsort row).
    { rewrite argsort_perm. apply elem_of_seq. lia. }
    apply list_elem_of_lookup in Hin. destruct Hin as [a Ha].
    assert (Hal : a < length row) by (apply lookup_lt_Some in Ha; lia).
    exists a. split; [exact Hal|]. split; [exact Ha|].
    rewrite <- (nth_lookup_Some _ _ 0 x Ha). now apply rank_row_inverse. }
  destruct (Hpos i Hi) as (a & Ha & Hai & ->).
  destruct (Hpos j Hj) as (b & Hb & Hbj & ->).
  destruct (lt_eq_lt_dec a b) as [[Hab|Hab]|Hab]; [exact Hab| |].
  - subst b. rewrite Hai in Hbj. injection Hbj as ->.
    now apply Qlt_irrefl in Hlt.
  - pose proof (StronglySorted_lookup _ _ _ _ _ _ (argsort_sorted row) Hab Hbj Hai) as Hle.
    simpl in Hle. exfalso. exact (Qlt_not_le _ _ Hlt Hle).
Qed.

(** X4. [_obtain_ranks] ranks every row on its own: the ranks of a row of
    length T are a permutation of 0, ..., T-1, they invert a sorting
    permutation of the row (there is a permutation [temp] of the indices
    that puts the values in non-decreasing order, with
    [ranks[temp[k]] = k]), and a strictly smaller value has a strictly
    smaller rank.  Nothing is said of the order of the ranks of equal
    values, which numpy's sort does not fix. *)
Theorem obtain_ranks_are_rankings (array : matrix) :
  length (PERMBU._obtain_ranks array) = length array /\
  forall r, r < length array ->
    let row := nth r array [] in
    let ranks := nth r (PERMBU._obtain_ranks array) [] in
    ranks ≡ₚ seq 0 (length row) /\
    (exists temp : list nat,
       temp ≡ₚ seq 0 (length row) /\
       StronglySorted (fun j k => (at_ row j <= at_ row k)%Q) temp /\
       forall k, k < length row -> nth (nth k temp 0) ranks 0 = k) /\
    (forall i j, i < length row -> j < length row ->
       (at_ row i < at_ row j)%Q -> nth i ranks 0 < nth j ranks 0).
Proof.
  unfold PERMBU._obtain_ranks. split; [apply length_map|].
  intros r Hr. cbv zeta. rewrite (nth_map_lt _ _ _ _ []) by exact Hr.
  split; [apply rank_row_perm|]. split.
  - exists (argsort (nth r array [])).
    split; [apply argsort_perm|]. split; [apply argsort_sorted|].
    intros k Hk. now apply rank_row_inverse.
  - intros i j. apply rank_row_order.
Qed.

(** ** Reordering of samples *)

Lemma nth_concat_uniform {A} (C : nat) (l : list (list A)) (r p : nat) (d : A) :
  Forall (fun x => length x = C) l -> p < C ->
  nth (p + r * C) (concat l) d = nth p (nth r l []) d.
Proof.
  intros Hl Hp. revert r. induction Hl as [|x l Hx Hl IH]; intros r.
  - simpl. destruct (p + r * C); destruct r; destruct p; reflexivity.
  - simpl. destruct r as [|r].
    + simpl. rewrite Nat.add_0_r. apply app_nth1. lia.
    + rewrite app_nth2 by (simpl; lia).
      replace (p + Datatypes.S r * C - length x) with (p + r * C) by (simpl; lia).
      apply IH.
Qed.

Lemma take_drop_concat_uniform {A} (C : nat) (l : list (list A)) (r : nat) :
  Forall (fun x => length x = C) l -> r < length l ->
  take C (drop (r * C) (concat l)) = nth r l [].
Proof.
  intros Hl. revert r. induction Hl as [|x l Hx Hl IH]; intros r Hr; simpl in *; [lia|].
  destruct r as [|r].
  - simpl. now apply take_app_length'.
  - replace (Datatypes.S r * C) with (length x + r * C) by (simpl; lia).
    rewrite drop_app_add. apply IH. lia.
Qed.

Lemma mapM_ok_map {A B} (f : A -> outcome B) (g : A -> B) (l : list A) :
  Forall (fun x => f x = Ok (g x)) l -> mapM f l = Ok (map g l).
Proof.
  induction 1 as [|x l Hx Hl IH]; simpl; [reflexivity|].
  rewrite Hx. cbn [mbind outcome_bind]. rewrite IH. reflexivity.
Qed.

Lemma list_item_ok {A} (l : list A) (i : nat) (d : A) :
  i < length l -> list_item l i = Ok (nth i l d).
Proof.
  intros Hi. unfold list_item. rewrite nth_lookup.
  destruct (l !! i) eqn:E; [reflexivity|]. apply lookup_ge_None in E. lia.
Qed.

Lemma nth_zip_with {A B C} (f : A -> B -> C) (l : list A) (k : list B) (r : nat)
    (d : C) (da : A) (db : B) :
  r < length l -> r < length k ->
  nth r (zip_with f l k) d = f (nth r l da) (nth r k db).
Proof.
  revert k r. induction l as [|x l IH]; intros [|y k] [|r] Hl Hk; simpl in *;
    try lia; [reflexivity|]. apply IH; lia.
Qed.

Lemma tabulate_nth {A} (l : list A) (d : A) : tabulate (length l) (fun i => nth i l d) = l.
Proof.
  apply (nth_ext _ _ d d); [apply tabulate_length|].
  intros i Hi. rewrite tabulate_length in Hi. now rewrite nth_tabulate.
Qed.

(** With index rows of the width [C] of the samples, every index smaller
    than [C], [_permutate_samples] answers [samples[r][perm[r][k]]]. *)
Lemma permutate_samples_spec (samples : matrix) (perms : list (list nat)) (C : nat) :
  length samples = length perms ->
  Forall (fun s => length s = C) samples ->
  Forall (fun p => length p = C /\ Forall (fun k => k < C) p) perms ->
  PERMBU._permutate_samples samples perms
  = Ok (zip_with (fun s p => map (at_ s) p) samples perms).
Proof.
  intros Hlen Hs Hp. unfold PERMBU._permutate_samples.
  destruct perms as [|p0 perms'] eqn:Eperms.
  { destruct samples; [reflexivity|discriminate]. }
  rewrite <- Eperms in *.
  assert (Hnc : ncols perms = C).
  { rewrite Eperms in Hp |- *. simpl. apply Forall_cons in Hp. tauto. }
  rewrite Hnc. clear Eperms p0 perms'.
  set (R := length perms) in *.
  set (flat := concat samples).
  set (g := fun (r : nat) (perm : list nat) => map (fun p => p + r * C) perm).
  assert (Hflat : length flat = R * C).
  { unfold flat. rewrite (length_concat_uniform C) by exact Hs. now rewrite Hlen. }
  assert (Hidx : Forall (fun i => list_item flat i = Ok (nth i flat 0%Q))
                   (concat (zip_with g (seq 0 R) perms))).
  { apply Forall_concat. rewrite Forall_lookup. intros r row Hrow.
    apply lookup_zip_with_Some in Hrow. destruct Hrow as (r' & perm & -> & Hr' & Hperm).
    assert (Hr : r < R) by (apply lookup_lt_Some in Hperm; exact Hperm).
    rewrite lookup_seq_lt in Hr' by exact Hr. injection Hr' as <-.
    rewrite Forall_lookup in Hp. destruct (Hp _ _ Hperm) as [_ Hk].
    unfold g. rewrite Forall_map. eapply Forall_impl; [exact Hk|].
    intros k Hkc. simpl in Hkc. apply list_item_ok. rewrite Hflat.
    clear - Hr Hkc. nia. }
  rewrite (mapM_ok_map _ _ _ Hidx). cbn [mbind outcome_bind]. f_equal.
  rewrite concat_map.
  assert (Hrows : Forall (fun x => length x = C)
                    (map (map (fun i => nth i flat 0%Q)) (zip_with g (seq 0 R) perms))).
  { rewrite Forall_map. rewrite Forall_lookup. intros r row Hrow.
    apply lookup_zip_with_Some in Hrow. destruct Hrow as (r' & perm & -> & Hr' & Hperm).
    rewrite Forall_lookup in Hp. destruct (Hp _ _ Hperm) as [Hl _].
    unfold g. now rewrite !length_map. }
  assert (Hrl : length (map (map (fun i => nth i flat 0%Q)) (zip_with g (seq 0 R) perms)) = R).
  { rewrite length_map, length_zip_with, length_seq. fold R. lia. }
  apply (nth_ext _ _ [] []).
  { rewrite tabulate_length, length_zip_with. fold R. lia. }
  intros r Hr. rewrite tabulate_length in Hr. rewrite nth_tabulate by exact Hr.
  rewrite (take_drop_concat_uniform C) by (rewrite ?Hrl; assumption).
  rewrite (nth_map_lt _ _ _ _ []) by (rewrite length_zip_with, length_seq; fold R; lia).
  rewrite (nth_zip_with _ _ _ _ _ 0 []) by (rewrite ?length_seq; fold R; lia).
  rewrite (nth_zip_with _ _ _ _ _ [] []) by (fold R; lia).
  rewrite seq_nth by exact Hr. simpl. unfold g. rewrite map_map.
  apply map_ext_in. intros k Hk.
  assert (Hkc : k < C).
  { assert (Hrow : Forall (fun k => k < C) (nth r perms [])).
    { rewrite Forall_lookup in Hp.
      destruct (perms !! r) as [pr|] eqn:E; [|apply lookup_ge_None in E; fold R in E; lia].
      rewrite (nth_lookup_Some _ _ _ _ E). apply (Hp _ _ E). }
    rewrite Forall_forall in Hrow. apply Hrow. now apply list_elem_of_In. }
  unfold flat, at_. now apply nth_concat_uniform.
Qed.

Lemma map_at_perm (s : vector) (p : list nat) :
  p ≡ₚ seq 0 (length s) -> map (at_ s) p ≡ₚ s.
Proof.
  intros Hp. rewrite <- (tabulate_at s) at 2. unfold tabulate.
  now apply Permutation_map.
Qed.

(** X5. [_permutate_samples] reorders every row of the samples by the row
    of indices of the same position: for index rows as wide as the samples
    and indices within the row, [out[r][k] = samples[r][perm[r][k]]]; with a
    permutation of 0, ..., C-1 the row keeps its values, reordered. *)
Theorem permutate_samples_reorders_rows (samples : matrix) (perms : list (list nat))
    (C : nat) :
  length samples = length perms ->
  Forall (fun s => length s = C) samples ->
  Forall (fun p => length p = C /\ Forall (fun k => k < C) p) perms ->
  exists out,
    PERMBU._permutate_samples samples perms = Ok out /\
    length out = length samples /\
    forall r, r < length samples ->
      length (nth r out []) = C /\
      (forall k, k < C ->
         at_ (nth r out []) k = at_ (nth r samples []) (nth k (nth r perms []) 0)) /\
      (nth r perms [] ≡ₚ seq 0 C -> nth r out [] ≡ₚ nth r samples []).
Proof.
  intros Hlen Hs Hp. eexists. split; [now apply (permutate_samples_spec _ _ C)|].
  split; [rewrite length_zip_with; lia|].
  intros r Hr.
  rewrite (nth_zip_with _ _ _ _ _ [] []) by lia.
  assert (Hpr : length (nth r perms []) = C).
  { rewrite Forall_lookup in Hp.
    destruct (perms !! r) as [pr|] eqn:E; [|apply lookup_ge_None in E; lia].
    rewrite (nth_lookup_Some _ _ _ _ E). apply (Hp _ _ E). }
  assert (Hsr : length (nth r samples []) = C).
  { rewrite Forall_lookup in Hs.
    destruct (samples !! r) as [sr|] eqn:E; [|apply lookup_ge_None in E; lia].
    rewrite (nth_lookup_Some _ _ _ _ E). apply (Hs _ _ E). }
  split; [now rewrite length_map|]. split.
  - intros k Hk. unfold at_ at 1. rewrite (nth_map_lt _ _ _ _ 0) by lia. reflexivity.
  - intros Hperm. apply map_at_perm. now rewrite Hsr.
Qed.

Lemma nth_Forall {A} (Pr : A -> Prop) (l : list A) (i : nat) (d : A) :
  Forall Pr l -> i < length l -> Pr (nth i l d).
Proof.
  intros Hl Hi. rewrite Forall_lookup in Hl.
  destruct (l !! i) as [x|] eqn:E; [|apply lookup_ge_None in E; lia].
  rewrite (nth_lookup_Some _ _ _ _ E). apply (Hl _ _ E).
Qed.

(** [_permutate_predictions] applies the index rows at every horizon step. *)
Lemma permutate_predictions_spec (pred : tensor) (perms : list (list nat)) (H C : nat) :
  length pred = length perms ->
  Forall (fun Xi => length Xi = H /\ Forall (fun c => length c = C) Xi) pred ->
  Forall (fun p => length p = C /\ Forall (fun k => k < C) p) perms ->
  PERMBU._permutate_predictions pred perms
  = Ok (zip_with (fun Xi p => map (fun c => map (at_ c) p) Xi) pred perms).
Proof.
  intros Hlen Hpred Hp. unfold PERMBU._permutate_predictions.
  destruct pred as [|X0 pred'] eqn:Epred.
  { destruct perms; [reflexivity|discriminate]. }
  rewrite <- Epred in *.
  assert (Hnc : ncols pred = H).
  { rewrite Epred in Hpred |- *. simpl. apply Forall_cons in Hpred. tauto. }
  assert (Hpos : 0 < length pred) by (rewrite Epred; simpl; lia).
  rewrite Hnc. clear Epred X0 pred'.
  set (Gt := fun t => zip_with (fun s p => map (at_ s) p) (PERMBU.slice_t pred t) perms).
  rewrite (mapM_ok_map _ Gt).
  2:{ rewrite Forall_forall. intros t Ht. apply elem_of_seq in Ht.
      rewrite (permutate_samples_spec _ _ C); [| | |exact Hp].
      - cbn [mbind outcome_bind]. fold (Gt t).
        replace (same_shape (Gt t) (PERMBU.slice_t pred t)) with true; [reflexivity|].
        symmetry. unfold same_shape, Gt, PERMBU.slice_t.
        apply andb_true_intro. split; apply Nat.eqb_eq.
        + rewrite length_zip_with, !length_map. lia.
        + destruct pred as [|X0 pred']; [simpl in Hpos; lia|].
          destruct perms as [|p0 perms']; [discriminate|]. simpl.
          apply Forall_cons in Hpred. destruct Hpred as [[HX0 Hc0] _].
          apply Forall_cons in Hp. destruct Hp as [[Hp0 _] _].
          rewrite length_map, Hp0. symmetry.
          apply (nth_Forall _ _ _ _ Hc0). lia.
      - unfold PERMBU.slice_t. now rewrite length_map.
      - unfold PERMBU.slice_t. rewrite Forall_map.
        eapply Forall_impl; [exact Hpred|]. intros Xi [HXi Hci]. simpl.
        apply (nth_Forall _ _ _ _ Hci). lia. }
  cbn [mbind outcome_bind]. f_equal.
  apply (nth_ext _ _ [] []).
  { rewrite tabulate_length, length_zip_with. lia. }
  intros i Hi. rewrite tabulate_length in Hi. rewrite nth_tabulate by exact Hi.
  rewrite (nth_zip_with _ _ _ _ _ [] []) by lia.
  assert (HXi : length (nth i pred []) = H).
  { apply (nth_Forall (fun Xi => length Xi = H /\ _) _ _ _ Hpred Hi). }
  apply (nth_ext _ _ [] []).
  { now rewrite tabulate_length, length_map. }
  intros t Ht. rewrite tabulate_length in Ht. rewrite nth_tabulate by exact Ht.
  rewrite (nth_map_lt _ _ _ _ 0) by (rewrite length_seq; exact Ht).
  rewrite seq_nth by exact Ht. simpl. unfold Gt.
  rewrite (nth_zip_with _ _ _ _ _ [] []) by (unfold PERMBU.slice_t; rewrite ?length_map; lia).
  unfold PERMBU.slice_t.
  rewrite (nth_map_lt _ _ _ _ []) by exact Hi.
  rewrite (nth_map_lt _ (nth i pred []) _ _ []) by lia.
  reflexivity.
Qed.

(** X6. [_permutate_predictions] applies the index row of a series at every
    horizon step: for a (series, horizon, samples) array and index rows as
    wide as the sample axis, [out[i][t][k] = pred[i][t][perm[i][k]]]; the
    shape is kept, and with a permutation every cell keeps its values. *)
Theorem permutate_predictions_reorders_cells (pred : tensor) (perms : list (list nat))
    (H C : nat) :
  length pred = length perms ->
  Forall (fun Xi => length Xi = H /\ Forall (fun c => length c = C) Xi) pred ->
  Forall (fun p => length p = C /\ Forall (fun k => k < C) p) perms ->
  exists out,
    PERMBU._permutate_predictions pred perms = Ok out /\
    has_shape3 out (length pred) H C /\
    forall i t, i < length pred -> t < H ->
      (forall k, k < C ->
         at_ (nth t (nth i out []) []) k
         = at_ (nth t (nth i pred []) []) (nth k (nth i perms []) 0)) /\
      (nth i perms [] ≡ₚ seq 0 C ->
       nth t (nth i out []) [] ≡ₚ nth t (nth i pred []) []).
Proof.
  intros Hlen Hpred Hp. eexists.
  split; [now apply (permutate_predictions_spec _ _ H C)|].
  assert (Hcell : forall i t, i < length pred -> t < H ->
            length (nth i pred []) = H /\ length (nth t (nth i pred []) []) = C /\
            length (nth i perms []) = C /\
            nth t (nth i (zip_with (fun Xi p => map (fun c => map (at_ c) p) Xi) pred perms)
                      []) []
            = map (at_ (nth t (nth i pred []) [])) (nth i perms [])).
  { intros i t Hi Ht.
    destruct (nth_Forall _ _ i [] Hpred Hi) as [HXi Hci].
    destruct (nth_Forall _ _ i [] Hp ltac:(lia)) as [Hpi _].
    split; [exact HXi|]. split; [apply (nth_Forall _ _ _ _ Hci); lia|].
    split; [exact Hpi|].
    rewrite (nth_zip_with _ _ _ _ _ [] []) by lia.
    now rewrite (nth_map_lt _ _ _ _ []) by lia. }
  split.
  - split; [rewrite length_zip_with; lia|].
    apply (Forall_nth _ []). intros i Hi. rewrite length_zip_with in Hi.
    assert (Hi' : i < length pred) by lia.
    rewrite (nth_zip_with _ _ _ _ _ [] []) by lia.
    destruct (nth_Forall _ _ i [] Hpred Hi') as [HXi Hci].
    split; [now rewrite length_map|].
    rewrite Forall_map. eapply Forall_impl; [exact Hci|]. intros c Hc. simpl.
    rewrite length_map. destruct (nth_Forall _ _ i [] Hp ltac:(lia)) as [Hpi _]. exact Hpi.
  - intros i t Hi Ht. destruct (Hcell i t Hi Ht) as (HXi & Hc & Hpi & ->). split.
    + intros k Hk. unfold at_ at 1. rewrite (nth_map_lt _ _ _ _ 0) by lia. reflexivity.
    + intros Hperm. apply map_at_perm. now rewrite Hc.
Qed.

(** ** The bottom-up pass of PERMBU *)

Lemma swap_length (l : list nat) (i j : nat) : length (swap l i j) = length l.
Proof. unfold swap. now rewrite !length_insert. Qed.

Lemma shuffle_from_length (i : nat) (x : list nat) (g : rng) :
  length (shuffle_from i x g).1 = length x.
Proof.
  revert x g. induction i as [|i IH]; intros x g; [reflexivity|].
  cbn [shuffle_from]. destruct (rk_interval _ g) as [j g1].
  rewrite IH. apply swap_length.
Qed.

Lemma permutation_length (n : nat) (g : rng) : length (permutation n g).1 = n.
Proof. unfold permutation. rewrite shuffle_from_length. apply length_seq. Qed.

Lemma mapM_length {A B} (f : A -> outcome B) (l : list A) (ys : list B) :
  mapM f l = Ok ys -> length ys = length l.
Proof. intros H. apply mapM_Forall2 in H. symmetry. eapply Forall2_length, H. Qed.

(** Whatever the indices, the rows that [_permutate_samples] returns are as
    wide as the index rows. *)
Lemma permutate_samples_shape (samples : matrix) (perms : list (list nat)) (W : nat)
    (out : matrix) :
  Forall (fun p => length p = W) perms ->
  PERMBU._permutate_samples samples perms = Ok out ->
  length out = length perms /\ Forall (fun r => length r = W) out.
Proof.
  intros Hp. unfold PERMBU._permutate_samples. cbv zeta.
  bind_ok picked Hpicked. intros [= <-].
  split; [apply tabulate_length|]. apply tabulate_Forall. intros r Hr.
  assert (Hnc : ncols perms = W).
  { destruct perms as [|p0 perms']; [simpl in Hr; lia|].
    apply Forall_cons in Hp. simpl. tauto. }
  rewrite Hnc in *. apply mapM_length in Hpicked.
  rewrite length_take, length_drop, Hpicked.
  rewrite (length_concat_uniform W).
  - rewrite length_zip_with, length_seq. clear - Hr. nia.
  - rewrite Forall_lookup. intros i row Hrow.
    apply lookup_zip_with_Some in Hrow. destruct Hrow as (r' & perm & -> & _ & Hperm).
    rewrite length_map. rewrite Forall_lookup in Hp. apply (Hp _ _ Hperm).
Qed.

Lemma permutate_predictions_shape (pred : tensor) (perms : list (list nat))
    (H n W : nat) (out : tensor) :
  Forall (fun p => length p = W) perms ->
  Forall (fun Xi => length Xi = H /\ Forall (fun c => length c = n) Xi) pred ->
  PERMBU._permutate_predictions pred perms = Ok out ->
  length out = length pred /\
  Forall (fun Xi => length Xi = H /\ Forall (fun c => length c = n) Xi) out.
Proof.
  intros Hp Hpred. unfold PERMBU._permutate_predictions. cbv zeta.
  bind_ok slices Hsl. intros [= <-].
  split; [apply tabulate_length|].
  destruct pred as [|X0 pred'] eqn:Epred; [constructor|].
  rewrite <- Epred in *.
  assert (Hnc : ncols pred = H).
  { rewrite Epred in Hpred |- *. simpl. apply Forall_cons in Hpred. tauto. }
  rewrite Hnc in *.
  apply tabulate_Forall. intros i Hi. split; [apply tabulate_length|].
  apply tabulate_Forall. intros t Ht.
  apply mapM_Forall2 in Hsl.
  pose proof (Forall2_nth_lt _ _ _ t 0 [] Hsl) as Ht'.
  rewrite length_seq, seq_nth in Ht' by exact Ht. specialize (Ht' Ht). simpl in Ht'.
  revert Ht'. bind_ok r Hr.
  destruct (same_shape r _) eqn:Ess; [|discriminate]. intros [= <-].
  destruct (permutate_samples_shape _ _ _ _ Hp Hr) as [Hrl Hrw].
  unfold same_shape in Ess. apply andb_prop in Ess. destruct Ess as [E1 E2].
  apply Nat.eqb_eq in E1, E2. unfold PERMBU.slice_t in E1, E2.
  rewrite length_map in E1.
  assert (HWn : W = n).
  { rewrite Epred in E2. simpl in E2.
    destruct r as [|r0 r']; [rewrite Epred in E1; discriminate|].
    apply Forall_cons in Hrw. destruct Hrw as [Hr0 _]. simpl in E2.
    rewrite Epred in Hpred. apply Forall_cons in Hpred. destruct Hpred as [[HX0 Hc0] _].
    rewrite <- Hr0, E2. apply (nth_Forall _ _ _ _ Hc0). lia. }
  subst W. apply (nth_Forall _ _ _ _ Hrw). lia.
Qed.

Lemma einsum_shape (Agg : matrix) (X Y : tensor) (H n : nat) :
  X <> [] ->
  Forall (fun Xi => length Xi = H /\ Forall (fun c => length c = n) Xi) X ->
  einsum_ab_bhs Agg X = Ok Y ->
  length Y = length Agg /\
  Forall (fun Xi => length Xi = H /\ Forall (fun c => length c = n) Xi) Y.
Proof.
  intros Hne HX. unfold einsum_ab_bhs. destruct (_ =? _); [|discriminate].
  intros [= <-]. split; [apply tabulate_length|].
  destruct X as [|X0 X']; [congruence|].
  apply Forall_cons in HX. destruct HX as [[HX0 Hc0] _]. simpl.
  apply tabulate_Forall. intros a Ha. rewrite HX0. split; [apply tabulate_length|].
  apply tabulate_Forall. intros h Hh. rewrite tabulate_length.
  destruct X0 as [|c0 X0']; [simpl in HX0; lia|].
  apply Forall_cons in Hc0. simpl. tauto.
Qed.

Lemma put_rows_spec {A} (Pr : A -> Prop) (X : list A) (idxs : list nat) (Y X' : list A) :
  put_rows X idxs Y = Ok X' -> Forall Pr X -> Forall Pr Y ->
  length X' = length X /\ Forall Pr X' /\
  forall i, i ∉ idxs -> X' !! i = X !! i.
Proof.
  revert X Y. induction idxs as [|j idxs IH]; intros X [|y Y] Hput HX HY;
    simpl in Hput; try discriminate.
  - injection Hput as <-. auto.
  - destruct (j <? length X) eqn:E; [|discriminate].
    apply Forall_cons in HY. destruct HY as [Hy HY].
    apply IH in Hput; [|now apply Forall_insert|exact HY].
    destruct Hput as (Hl & Hf & Hfr). rewrite length_insert in Hl.
    split; [exact Hl|]. split; [exact Hf|].
    intros i Hi. rewrite not_elem_of_cons in Hi. destruct Hi as [Hne Hi].
    rewrite Hfr by exact Hi. apply list_lookup_insert_ne. congruence.
Qed.

Lemma insert_unique_elem {A} (ltb : A -> A -> bool) (x y : A) (l : list A) :
  x ∈ insert_unique ltb y l -> x = y \/ x ∈ l.
Proof.
  induction l as [|z l IH]; simpl.
  - rewrite list_elem_of_singleton. tauto.
  - destruct (ltb y z).
    + rewrite elem_of_cons. tauto.
    + destruct (ltb z y); [|tauto].
      rewrite !elem_of_cons. intros [->|Hin]; [tauto|]. apply IH in Hin. tauto.
Qed.

Lemma unique_elem {A} (ltb : A -> A -> bool) (x : A) (l : list A) :
  x ∈ unique ltb l -> x ∈ l.
Proof.
  induction l as [|y l IH]; simpl; [trivial|].
  intros Hin. apply insert_unique_elem in Hin. rewrite elem_of_cons.
  destruct Hin as [->|Hin]; [tauto|]. right. apply IH, Hin.
Qed.

(** One level of the pass keeps the shape of the samples and writes only
    the rows of the parents of that level. *)
Lemma level_step_spec (hl rp : list (list nat)) (n : nat) (rec_samples : tensor)
    (lev : nat) (g : rng) (rec_samples' : tensor) (g' : rng) (H W : nat) :
  hl <> [] -> Forall (fun p => length p = W) rp ->
  Forall (fun Xi => length Xi = H /\ Forall (fun c => length c = n) Xi) rec_samples ->
  PERMBU.level_step hl rp n rec_samples lev g = Ok (rec_samples', g') ->
  length rec_samples' = length rec_samples /\
  Forall (fun Xi => length Xi = H /\ Forall (fun c => length c = n) Xi) rec_samples' /\
  forall i, (forall l, l ∈ hl -> nth lev l 0 <> i) -> rec_samples' !! i = rec_samples !! i.
Proof.
  intros Hne Hrp Hrec. unfold PERMBU.level_step. cbv zeta.
  set (children_links := unique pair_ltb _).
  set (children_idxs := unique Nat.ltb (map snd children_links)).
  set (parent_idxs := unique Nat.ltb (map fst children_links)).
  assert (Hci : children_idxs <> []).
  { apply unique_nonempty. intros Hnil. apply map_eq_nil in Hnil.
    revert Hnil. apply unique_nonempty. intros Hnil. apply map_eq_nil in Hnil.
    contradiction. }
  bind_ok cp Hcp. bind_ok cs Hcs. bind_ok cs' Hcs'. bind_ok ps Hps.
  destruct (draws _ _ g) as [rperm g1] eqn:Hd.
  bind_ok ps' Hps'. bind_ok rec'' Hput. intros [= <- <-].
  apply take_rows_spec in Hcp as [Hcplen Hcpin].
  apply take_rows_spec in Hcs as [Hcslen Hcsin].
  assert (Hcsh : Forall (fun Xi => length Xi = H /\ Forall (fun c => length c = n) Xi) cs).
  { eapply Forall_impl; [exact Hcsin|]. intros Xi HXi. cbv beta in HXi.
    rewrite Forall_forall in Hrec. now apply Hrec. }
  assert (Hcpw : Forall (fun p => length p = W) cp).
  { eapply Forall_impl; [exact Hcpin|]. intros p Hp. cbv beta in Hp.
    rewrite Forall_forall in Hrp. now apply Hrp. }
  destruct (permutate_predictions_shape _ _ _ _ _ _ Hcpw Hcsh Hcs') as [Hcl' Hcsh'].
  assert (Hcs'ne : cs' <> []).
  { intros ->. simpl in Hcl'. destruct children_idxs; [congruence|].
    simpl in Hcslen. lia. }
  destruct (einsum_shape _ _ _ _ _ Hcs'ne Hcsh' Hps) as [_ Hpsh].
  assert (Hrperm : Forall (fun p => length p = n) rperm).
  { pose proof (draws_Forall (fun p => length p = n) (permutation n) (length ps) g
                  (permutation_length n)) as Hall.
    now rewrite Hd in Hall. }
  destruct (permutate_predictions_shape _ _ _ _ _ _ Hrperm Hpsh Hps') as [_ Hpsh'].
  destruct (put_rows_spec _ _ _ _ _ Hput Hrec Hpsh') as (Hl & Hf & Hfr).
  split; [exact Hl|]. split; [exact Hf|].
  intros i Hi. apply Hfr. intros Hin.
  apply unique_elem, list_elem_of_fmap in Hin. destruct Hin as ([p c] & -> & Hpc).
  apply unique_elem, list_elem_of_fmap in Hpc. destruct Hpc as (l & [= -> ->] & Hl').
  now apply (Hi l).
Qed.

Lemma PERMBU_levels_loop_spec (hl rp : list (list nat)) (n H W : nat) (levels : list nat) :
  hl <> [] -> Forall (fun p => length p = W) rp ->
  forall (rec_samples : tensor) (g : rng) (rec_samples' : tensor) (g' : rng),
    Forall (fun Xi => length Xi = H /\ Forall (fun c => length c = n) Xi) rec_samples ->
    PERMBU.levels_loop hl rp n rec_samples levels g = Ok (rec_samples', g') ->
    length rec_samples' = length rec_samples /\
    Forall (fun Xi => length Xi = H /\ Forall (fun c => length c = n) Xi) rec_samples' /\
    forall i, (forall l lev, l ∈ hl -> lev ∈ levels -> nth lev l 0 <> i) ->
              rec_samples' !! i = rec_samples !! i.
Proof.
  intros Hne Hrp. induction levels as [|lev levels IH];
    intros rec_samples g rec_samples' g' Hrec; simpl.
  - intros [= <- <-]. auto.
  - bind_ok x Hstep. destruct x as [rec1 g1].
    destruct (level_step_spec _ _ _ _ _ _ _ _ H W Hne Hrp Hrec Hstep) as (Hl1 & Hf1 & Hfr1).
    intros Hloop. destruct (IH _ _ _ _ Hf1 Hloop) as (Hl2 & Hf2 & Hfr2).
    split; [lia|]. split; [exact Hf2|].
    intros i Hi. rewrite Hfr2, Hfr1; [reflexivity| |].
    + intros l Hl. apply (Hi l lev Hl). apply elem_of_cons. now left.
    + intros l lev' Hl Hlev. apply (Hi l lev' Hl). apply elem_of_cons. now right.
Qed.

Lemma rank_permutations_width (residuals : matrix) (W : nat) :
  Forall (fun r => length r = W) residuals ->
  Forall (fun p => length p = W) (PERMBU._obtain_ranks residuals).
Proof.
  intros Hr. unfold PERMBU._obtain_ranks. rewrite Forall_map.
  eapply Forall_impl; [exact Hr|]. intros r Hl. simpl. now rewrite rank_row_length.
Qed.

(** What a returned [get_samples(n)] went through: the base samples, the
    hierarchy links, and the pass over the levels. *)
Lemma PERMBU_get_samples_inv (me : PERMBU.self) (n : nat) (g : rng) (out : tensor)
    (g' : rng) :
  PERMBU.get_samples me (Some n) g = Ok (out, g') ->
  exists (base : tensor) (hl : list (list nat)),
    PERMBU.reshape3
      (normal_rows (zip (concat (PERMBU.y_hat me)) (concat (PERMBU.sigmah me))) n
                   (RandomState (PERMBU.seed me)))
      (length (PERMBU.y_hat me)) (ncols (PERMBU.y_hat me)) n = Ok base /\
    vstack (PERMBU._nonzero_indexes_by_row (transpose (PERMBU.S me))) = Ok hl /\
    has_shape3 out (length (PERMBU.y_hat me)) (ncols (PERMBU.y_hat me)) n /\
    forall i, (forall l lev, l ∈ hl -> lev < ncols hl - 1 -> nth lev l 0 <> i) ->
              out !! i = base !! i.
Proof.
  unfold PERMBU.get_samples. bind_ok x Hres. destruct x as [R T].
  cbn [py_gt mbind outcome_bind].
  assert (HR : Forall (fun r => length r = T) R).
  { revert Hres. unfold residuals_of. bind_ok R0 HR0. intros [= <- <-].
    apply drop_nan_columns_lengths. }
  set (m := if T <? n then _ else _).
  assert (Hm : forall r T' g1, m = Ok (r, T', g1) -> exists W, Forall (fun x => length x = W) r).
  { unfold m. destruct (T <? n).
    - intros r T' g1. bind_ok x Hch. destruct x as [e g2].
      bind_ok idxs Hit. intros [= <- <- <-].
      exists (length idxs). rewrite Forall_map. apply Forall_true. intros x.
      apply length_map.
    - intros r T' g1 [= <- <- <-]. eauto. }
  destruct m as [[[r T'] g1]|] eqn:Em; cbn [mbind outcome_bind]; [|discriminate].
  destruct (Hm _ _ _ eq_refl) as [W HW]. clear Hm.
  bind_ok base Hbase. bind_ok hl Hhl. intros Hloop.
  exists base, hl. split; [reflexivity|]. split; [reflexivity|].
  assert (Hhlne : hl <> []).
  { unfold vstack in Hhl. destruct (PERMBU._nonzero_indexes_by_row _); [discriminate|].
    destruct (forallb _ _); [|discriminate]. injection Hhl as <-. discriminate. }
  pose proof (reshape3_cells _ _ _ _ _ Hbase (normal_rows_lengths _ _ _)) as Hcells.
  assert (Hbl : length base = length (PERMBU.y_hat me)).
  { revert Hbase. unfold PERMBU.reshape3. destruct (_ =? _); [|discriminate].
    intros [= <-]. apply tabulate_length. }
  destruct (PERMBU_levels_loop_spec _ _ _ _ _ _ Hhlne (rank_permutations_width _ _ HW)
              _ _ _ _ Hcells Hloop) as (Hl & Hf & Hfr).
  split; [split; [lia|exact Hf]|].
  intros i Hi. apply Hfr. intros l lev Hl' Hlev. apply (Hi l lev Hl').
  apply list_elem_of_In, in_rev, in_seq in Hlev. lia.
Qed.

(** X7. When [PERMBU.get_samples(n)] returns, the array has shape
    (rows of y_hat, columns of y_hat, n). *)
Theorem PERMBU_get_samples_shape (me : PERMBU.self) (n : nat) (g : rng) (out : tensor)
    (g' : rng) :
  PERMBU.get_samples me (Some n) g = Ok (out, g') ->
  has_shape3 out (length (PERMBU.y_hat me)) (ncols (PERMBU.y_hat me)) n.
Proof.
  intros Hrun. destruct (PERMBU_get_samples_inv _ _ _ _ _ Hrun) as (base & hl & _ & _ & Hs & _).
  exact Hs.
Qed.

(** X8. [PERMBU.get_samples] rewrites only the rows of parents: a series
    whose index stands in no column of the hierarchy links but the last
    keeps its base samples, the independent normal draws
    [normal(y_hat[i, t], sigmah[i, t], n)] of the seeded generator. *)
Theorem PERMBU_get_samples_keeps_bottom_draws (me : PERMBU.self) (n : nat) (g : rng)
    (out : tensor) (g' : rng) :
  PERMBU.get_samples me (Some n) g = Ok (out, g') ->
  exists (base : tensor) (hl : list (list nat)),
    PERMBU.reshape3
      (normal_rows (zip (concat (PERMBU.y_hat me)) (concat (PERMBU.sigmah me))) n
                   (RandomState (PERMBU.seed me)))
      (length (PERMBU.y_hat me)) (ncols (PERMBU.y_hat me)) n = Ok base /\
    vstack (PERMBU._nonzero_indexes_by_row (transpose (PERMBU.S me))) = Ok hl /\
    forall i, (forall l lev, l ∈ hl -> lev < ncols hl - 1 -> nth lev l 0 <> i) ->
              out !! i = base !! i.
Proof.
  intros Hrun. destruct (PERMBU_get_samples_inv _ _ _ _ _ Hrun) as (base & hl & Hb & Hh & _ & Hfr).
  exists base, hl. auto.
Qed.

(** ** Prediction levels from samples *)

Lemma level_probabilities (lv : Z) :
  let min_q := (inject_Z (100 - lv) / 200)%Q in
  let max_q := (min_q + inject_Z lv / 100)%Q in
  ((0 <= min_q)%Q -> (min_q <= 1)%Q -> (-100 <= lv <= 100)%Z) /\
  ((0 <= lv)%Z -> (min_q <= max_q)%Q) /\
  ((lv <= 0)%Z -> (max_q <= min_q)%Q).
Proof.
  cbv zeta.
  assert (Hm : (inject_Z (100 - lv) == 100 - inject_Z lv)%Q).
  { unfold Z.sub. rewrite inject_Z_plus, inject_Z_opp. ring. }
  rewrite Hm. unfold Qdiv.
  change (/ 200)%Q with (1 # 200)%Q. change (/ 100)%Q with (1 # 100)%Q.
  split; [|split].
  - intros H0 H1.
    assert (H : (inject_Z (-100) <= inject_Z lv)%Q /\ (inject_Z lv <= inject_Z 100)%Q).
    { change (inject_Z (-100)) with (-100)%Q. change (inject_Z 100) with 100%Q.
      split; lra. }
    destruct H as [Ha Hb]. rewrite <- Zle_Qle in Ha, Hb. lia.
  - intros H. rewrite Zle_Qle in H. change (inject_Z 0) with 0%Q in H. lra.
  - intros H. rewrite Zle_Qle in H. change (inject_Z 0) with 0%Q in H. lra.
Qed.

Lemma level_bounds (lv : Z) :
  (-100 <= lv <= 100)%Z ->
  let min_q := (inject_Z (100 - lv) / 200)%Q in
  let max_q := (min_q + inject_Z lv / 100)%Q in
  (0 <= min_q)%Q /\ (min_q <= 1)%Q /\ (0 <= max_q)%Q /\ (max_q <= 1)%Q.
Proof.
  intros [Ha Hb]. cbv zeta.
  assert (Hm : (inject_Z (100 - lv) == 100 - inject_Z lv)%Q).
  { unfold Z.sub. rewrite inject_Z_plus, inject_Z_opp. ring. }
  rewrite Hm. unfold Qdiv.
  change (/ 200)%Q with (1 # 200)%Q. change (/ 100)%Q with (1 # 100)%Q.
  rewrite Zle_Qle in Ha, Hb.
  change (inject_Z (-100)) with (-100)%Q in Ha. change (inject_Z 100) with 100%Q in Hb.
  repeat split; lra.
Qed.

Lemma level_probabilities_mono (lv lv' : Z) :
  (lv <= lv')%Z ->
  (inject_Z (100 - lv') / 200 <= inject_Z (100 - lv) / 200)%Q /\
  (inject_Z (100 - lv) / 200 + inject_Z lv / 100
   <= inject_Z (100 - lv') / 200 + inject_Z lv' / 100)%Q.
Proof.
  intros Hle.
  assert (Hm : forall x, (inject_Z (100 - x) == 100 - inject_Z x)%Q).
  { intros x. unfold Z.sub. rewrite inject_Z_plus, inject_Z_opp. ring. }
  rewrite !Hm. unfold Qdiv.
  change (/ 200)%Q with (1 # 200)%Q. change (/ 100)%Q with (1 # 100)%Q.
  rewrite Zle_Qle in Hle. split; lra.
Qed.

Lemma Forall2_map_map {A B} (R : B -> B -> Prop) (Pr : A -> Prop) (f g : A -> B)
    (l : list A) :
  Forall Pr l -> (forall a, Pr a -> R (f a) (g a)) -> Forall2 R (map f l) (map g l).
Proof. intros Hl Hfg. induction Hl; simpl; constructor; auto. Qed.

Lemma quantiles_entrywise_le (samples : tensor) (p q : Q) :
  Forall (Forall (fun a => 0 < length a)) samples ->
  (0 <= p)%Q -> (p <= q)%Q -> (q <= 1)%Q ->
  Forall2 (Forall2 Qle) (map (map (fun a => quantile_1d a p)) samples)
                        (map (map (fun a => quantile_1d a q)) samples).
Proof.
  intros Hs H0 Hpq H1.
  apply (Forall2_map_map _ _ _ _ _ Hs). intros Xi HXi.
  apply (Forall2_map_map _ _ _ _ _ HXi). intros a Ha.
  now apply quantile_1d_mono.
Qed.

(** What a returned loop over the levels has computed. *)
Lemma levels_from_samples_inv (samples : tensor) (level : list Z) :
  forall res res' : gmap string value,
    levels_from_samples samples res level = Ok res' ->
    (level <> [] -> Forall (Forall (fun a => 0 < length a)) samples) /\
    (forall lv, lv ∈ level ->
       (-100 <= lv <= 100)%Z /\
       res' !! lo_key lv
       = Some (Arr2 (map (map (fun a => quantile_1d a (inject_Z (100 - lv) / 200)%Q))
                         samples)) /\
       res' !! hi_key lv
       = Some (Arr2 (map (map (fun a =>
                      quantile_1d a (inject_Z (100 - lv) / 200 + inject_Z lv / 100)%Q))
                         samples))) /\
    (forall k : string,
       (forall lv, lv ∈ level -> k <> lo_key lv /\ k <> hi_key lv) ->
       res' !! k = res !! k).
Proof.
  induction level as [|lv0 level IH]; intros res res'; simpl.
  - intros [= <-]. split; [congruence|]. split; [intros lv Hlv; inversion Hlv|reflexivity].
  - bind_ok lo Hlo. bind_ok hi Hhi. intros Hrest.
    apply quantile_axis2_ok in Hlo as (Hlo0 & Hlo1 & Hne & ->).
    apply quantile_axis2_ok in Hhi as (Hhi0 & Hhi1 & _ & ->).
    destruct (IH _ _ Hrest) as (_ & Hkeys & Hframe).
    destruct (level_probabilities lv0) as (Hrange & _ & _).
    split; [intros _; exact Hne|]. split.
    + intros lv Hlv. destruct (decide (lv ∈ level)) as [Hin|Hnin].
      { exact (Hkeys lv Hin). }
      apply elem_of_cons in Hlv. destruct Hlv as [->|Hin]; [|contradiction].
      split; [now apply Hrange|]. split.
      * rewrite Hframe.
        -- rewrite lookup_insert_ne by (apply not_eq_sym, lo_key_ne_hi_key).
           apply lookup_insert_eq.
        -- intros lv Hlv. split; [|apply lo_key_ne_hi_key].
           intros Heq. apply lo_key_inj in Heq. congruence.
      * rewrite Hframe; [apply lookup_insert_eq|].
        intros lv Hlv. split; [apply not_eq_sym, lo_key_ne_hi_key|].
        intros Heq. apply hi_key_inj in Heq. congruence.
    + intros k Hk. rewrite Hframe.
      * destruct (Hk lv0 ltac:(apply elem_of_cons; now left)) as [Hklo Hkhi].
        now rewrite !lookup_insert_ne by congruence.
      * intros lv Hlv. apply Hk. apply elem_of_cons. now right.
Qed.

Lemma levels_from_samples_spec (samples : tensor) (level : list Z)
    (res res' : gmap string value) :
  levels_from_samples samples res level = Ok res' ->
  level_intervals samples level res res'.
Proof.
  intros Hrun. destruct (levels_from_samples_inv _ _ _ _ Hrun) as (Hne & Hkeys & Hframe).
  split; [|exact Hframe].
  intros lv Hlv. destruct (Hkeys lv Hlv) as (Hrange & Hlo & Hhi).
  split; [exact Hrange|].
  assert (Hcells : Forall (Forall (fun a => 0 < length a)) samples).
  { apply Hne. intros ->. inversion Hlv. }
  destruct (level_probabilities lv) as (_ & Hup & Hdown).
  destruct (level_bounds lv Hrange) as (H0 & H1 & H2 & H3).
  eexists. eexists.
  split; [exact Hlo|]. split; [exact Hhi|].
  split; [reflexivity|]. split; [reflexivity|]. split.
  - intros Hpos. apply quantiles_entrywise_le; auto.
  - intros Hneg. apply quantiles_entrywise_le; auto.
Qed.

(** A wider level has a lower lower bound and a higher upper bound. *)
Lemma levels_from_samples_nested (samples : tensor) (level : list Z)
    (res res' : gmap string value) (lv lv' : Z) :
  levels_from_samples samples res level = Ok res' ->
  lv ∈ level -> lv' ∈ level -> (lv <= lv')%Z ->
  exists lo hi lo' hi' : matrix,
    res' !! lo_key lv = Some (Arr2 lo) /\ res' !! hi_key lv = Some (Arr2 hi) /\
    res' !! lo_key lv' = Some (Arr2 lo') /\ res' !! hi_key lv' = Some (Arr2 hi') /\
    Forall2 (Forall2 Qle) lo' lo /\ Forall2 (Forall2 Qle) hi hi'.
Proof.
  intros Hrun Hlv Hlv' Hle.
  destruct (levels_from_samples_inv _ _ _ _ Hrun) as (Hne & Hkeys & _).
  destruct (Hkeys lv Hlv) as (Hrange & Hlo & Hhi).
  destruct (Hkeys lv' Hlv') as (Hrange' & Hlo' & Hhi').
  assert (Hcells : Forall (Forall (fun a => 0 < length a)) samples).
  { apply Hne. intros ->. inversion Hlv. }
  destruct (level_bounds lv Hrange) as (H0 & H1 & H2 & H3).
  destruct (level_bounds lv' Hrange') as (H0' & H1' & H2' & H3').
  destruct (level_probabilities_mono lv lv' Hle) as (Hmin & Hmax).
  do 4 eexists.
  split; [exact Hlo|]. split; [exact Hhi|]. split; [exact Hlo'|]. split; [exact Hhi'|].
  split; apply quantiles_entrywise_le; auto.
Qed.

(** X9. The prediction levels of the sample-based samplers: when
    [Bootstrap.get_prediction_levels] or [PERMBU.get_prediction_levels]
    returns, the samples are those of [get_samples(self.num_samples)], every
    requested level lies in [-100, 100], ['lo-lv'] and ['hi-lv'] hold the
    empirical quantiles [(100 - lv) / 200] and [(100 - lv) / 200 + lv / 100]
    of each cell, the lower bound is entrywise at most the upper bound for
    [lv >= 0] (and the other way round for a negative level), and every
    other key of [res], ['mean'] among them, is as it was. *)
Theorem sample_prediction_levels_spec (level : list Z) :
  (forall (me : Bootstrap.self) (res res' : gmap string value),
     Bootstrap.get_prediction_levels me res level = Ok res' ->
     exists samples,
       Bootstrap.get_samples me (Bootstrap.num_samples me) = Ok samples /\
       level_intervals samples level res res' /\
       res' !! "mean" = res !! "mean") /\
  (forall (me : PERMBU.self) (res : gmap string value) (g : rng)
          (res' : gmap string value) (g' : rng),
     PERMBU.get_prediction_levels me res level g = Ok (res', g') ->
     exists samples,
       PERMBU.get_samples me (PERMBU.num_samples me) g = Ok (samples, g') /\
       level_intervals samples level res res' /\
       res' !! "mean" = res !! "mean").
Proof.
  split.
  - intros me res res'. unfold Bootstrap.get_prediction_levels.
    bind_ok samples Hs. intros Hl. exists samples. split; [reflexivity|].
    apply levels_from_samples_spec in Hl. split; [exact Hl|].
    apply Hl. intros lv _. split; [apply mean_ne_lo_key|apply mean_ne_hi_key].
  - intros me res g res' g'. unfold PERMBU.get_prediction_levels.
    bind_ok x Hs. destruct x as [samples g1]. bind_ok res1 Hl. intros [= <- <-].
    exists samples. split; [reflexivity|].
    apply levels_from_samples_spec in Hl. split; [exact Hl|].
    apply Hl. intros lv _. split; [apply mean_ne_lo_key|apply mean_ne_hi_key].
Qed.

(** X10. The intervals of the sample-based samplers are nested: of two
    requested levels the larger one has the lower ['lo-'] bound and the
    higher ['hi-'] bound, entry by entry. *)
Theorem sample_intervals_nested (level : list Z) (lv lv' : Z) :
  lv ∈ level -> lv' ∈ level -> (lv <= lv')%Z ->
  (forall (me : Bootstrap.self) (res res' : gmap string value),
     Bootstrap.get_prediction_levels me res level = Ok res' ->
     exists lo hi lo' hi' : matrix,
       res' !! lo_key lv = Some (Arr2 lo) /\ res' !! hi_key lv = Some (Arr2 hi) /\
       res' !! lo_key lv' = Some (Arr2 lo') /\ res' !! hi_key lv' = Some (Arr2 hi') /\
       Forall2 (Forall2 Qle) lo' lo /\ Forall2 (Forall2 Qle) hi hi') /\
  (forall (me : PERMBU.self) (res : gmap string value) (g : rng)
          (res' : gmap string value) (g' : rng),
     PERMBU.get_prediction_levels me res level g = Ok (res', g') ->
     exists lo hi lo' hi' : matrix,
       res' !! lo_key lv = Some (Arr2 lo) /\ res' !! hi_key lv = Some (Arr2 hi) /\
       res' !! lo_key lv' = Some (Arr2 lo') /\ res' !! hi_key lv' = Some (Arr2 hi') /\
       Forall2 (Forall2 Qle) lo' lo /\ Forall2 (Forall2 Qle) hi hi').
Proof.
  intros Hlv Hlv' Hle. split.
  - intros me res res'. unfold Bootstrap.get_prediction_levels.
    bind_ok samples Hs. intros Hl.
    now apply (levels_from_samples_nested samples level res).
  - intros me res g res' g'. unfold PERMBU.get_prediction_levels.
    bind_ok x Hs. destruct x as [samples g1]. bind_ok res1 Hl. intros [= <- <-].
    now apply (levels_from_samples_nested samples level res).
Qed.

(** ** The shapes Normality's constructor leaves *)

Lemma diag_of_length (v : vector) : length (diag_of v) = length v.
Proof. apply tabulate_length. Qed.

Lemma matmul_ok (A B C : matrix) :
  matmul A B = Ok C -> ncols A = length B /\ C = matmul_raw A B.
Proof.
  unfold matmul. destruct (_ =? _) eqn:E; [|discriminate].
  apply Nat.eqb_eq in E. now intros [= <-].
Qed.

Lemma matmul_raw_length (A B : matrix) : length (matmul_raw A B) = length A.
Proof. apply length_map. Qed.

Lemma ncols_transpose (M : matrix) : 0 < ncols M -> ncols (transpose M) = length M.
Proof.
  intros H. unfold transpose. rewrite ncols_tabulate by exact H.
  unfold col. apply length_map.
Qed.

(** What a returning constructor has checked on the way: the shapes of the
    correlation matrix of [W], the inner dimensions of the products, and the
    shapes of what it stores. *)
Lemma Normality_init_inv (S P y_hat sigmah W : matrix) (seed : Z)
    (me : Normality.self) :
  Normality.__init__ S P y_hat sigmah W seed = Ok me ->
  (exists R1, cov2corr W = Ok R1 /\
     length R1 = length sigmah /\ ncols R1 = length sigmah) /\
  0 < ncols sigmah /\ 0 < length S /\
  ncols S = length P /\ ncols P = length sigmah /\
  length (Normality.cov_rec me) = ncols sigmah /\
  Forall (fun cov => length cov = length S /\ Forall (fun r => length r = length S) cov)
         (Normality.cov_rec me) /\
  length (Normality.sigmah_rec me) = length S /\
  Forall (fun r => length r = ncols sigmah) (Normality.sigmah_rec me).
Proof.
  unfold Normality.__init__.
  bind_ok SP HSP. bind_ok R1 HR1. bind_ok Wh HWh. bind_ok cov_rec Hcov.
  bind_ok sr Hsr. intros [= <-]. simpl.
  apply matmul_ok in HSP as [HSPdim ->].
  pose proof (mapM_length _ _ _ HWh) as HWhlen.
  pose proof (mapM_length _ _ _ Hcov) as Hcovlen.
  unfold transpose in HWhlen at 1. rewrite tabulate_length in HWhlen.
  assert (Hne : cov_rec <> []).
  { intros ->. discriminate. }
  assert (HH : 0 < ncols sigmah).
  { destruct cov_rec; [congruence|]. simpl in Hcovlen. lia. }
  assert (HL : 0 < length sigmah).
  { destruct sigmah; [simpl in HH; lia|simpl; lia]. }
  (* the correlation matrix fits [np.diag(sigma)] on both sides *)
  assert (HR1dims : length R1 = length sigmah /\ ncols R1 = length sigmah).
  { apply mapM_Forall2 in HWh.
    assert (H0 : transpose sigmah !! 0 = Some (col 0 sigmah)).
    { unfold transpose, tabulate. rewrite list_lookup_fmap, lookup_seq_lt by exact HH.
      reflexivity. }
    destruct (Forall2_lookup_l _ _ _ _ _ HWh H0) as (Wt & _ & Hrun).
    revert Hrun. bind_ok DR HDR. intros HWt.
    assert (Hsig : length (col 0 sigmah) = length sigmah) by (unfold col; apply length_map).
    assert (Hdcols : ncols (diag_of (col 0 sigmah)) = length sigmah).
    { unfold diag_of. rewrite ncols_tabulate by lia. rewrite tabulate_length. exact Hsig. }
    apply matmul_ok in HDR as [Hd1 ->]. apply matmul_ok in HWt as [Hd2 _].
    split; [congruence|].
    unfold transpose in Hd2. rewrite tabulate_length, Hdcols in Hd2.
    rewrite <- Hd2. unfold matmul_raw, diag_of, tabulate.
    destruct (length (col 0 sigmah)) as [|m] eqn:Em; [lia|].
    simpl. unfold vecmat. now rewrite tabulate_length. }
  split; [now exists R1|].
  (* every [W_h] has one row per row of sigmah *)
  assert (HWt : Forall (fun Wt => length Wt = length sigmah) Wh).
  { apply mapM_Forall2 in HWh. apply Forall_forall. intros Wt Hin.
    apply list_elem_of_lookup in Hin as [k Hk].
    destruct (Forall2_lookup_r _ _ _ _ _ HWh Hk) as (sigma & Hsigma & Hrun).
    revert Hrun. bind_ok DR HDR. intros HWt.
    apply matmul_ok in HDR as [_ ->]. apply matmul_ok in HWt as [_ ->].
    rewrite !matmul_raw_length, diag_of_length.
    apply list_elem_of_lookup_2 in Hsigma. unfold transpose, tabulate in Hsigma.
    apply list_elem_of_fmap in Hsigma as (j & -> & _). unfold col. apply length_map. }
  (* hence the inner dimension of [SP @ W_h], and the square covariances *)
  assert (Hcovs : ncols (matmul_raw S P) = length sigmah /\
                  Forall (fun cov => length cov = length S /\
                                     Forall (fun r => length r = length S) cov) cov_rec).
  { apply mapM_Forall2 in Hcov.
    assert (Hdim : ncols (matmul_raw S P) = length sigmah).
    { destruct cov_rec as [|cov0 cov_rec']; [congruence|].
      inversion Hcov as [|Wt0 ? Wh' ? Hrun _]; subst.
      apply Forall_cons in HWt. destruct HWt as [HWt0 _].
      revert Hrun. bind_ok SW HSW. intros _.
      apply matmul_ok in HSW as [Hd _]. congruence. }
    split; [exact Hdim|].
    apply Forall_forall. intros cov Hin.
    apply list_elem_of_lookup in Hin as [k Hk].
    destruct (Forall2_lookup_r _ _ _ _ _ Hcov Hk) as (Wt & _ & Hrun).
    revert Hrun. bind_ok SW HSW. intros Hc.
    apply matmul_ok in HSW as [_ ->]. apply matmul_ok in Hc as [_ ->].
    split; [now rewrite !matmul_raw_length|].
    pose proof (matmul_raw_rect (matmul_raw (matmul_raw S P) Wt)
                  (transpose (matmul_raw S P))) as Hrect.
    rewrite ncols_transpose, matmul_raw_length in Hrect by lia. exact Hrect. }
  destruct Hcovs as [Hdim Hcovs].
  assert (HS : 0 < length S).
  { destruct S; [simpl in Hdim; lia|simpl; lia]. }
  assert (HP : ncols P = length sigmah).
  { rewrite <- Hdim. destruct S as [|s0 S']; [simpl in HS; lia|].
    simpl. unfold vecmat. now rewrite tabulate_length. }
  split; [exact HH|]. split; [exact HS|]. split; [exact HSPdim|]. split; [exact HP|].
  split; [lia|]. split; [exact Hcovs|].
  (* the reconciled standard deviations *)
  unfold hstack_columns in Hsr.
  destruct cov_rec as [|cov0 cov_rec'] eqn:Ecov; [congruence|].
  rewrite <- Ecov in *. rewrite Ecov in Hsr at 1. cbn [map] in Hsr.
  destruct (forallb _ _); [|discriminate]. injection Hsr as <-.
  assert (Hc0 : length (map sqrtQ (diagonal cov0)) = length S).
  { rewrite Ecov in Hcovs. apply Forall_cons in Hcovs. destruct Hcovs as [[Hl0 Hr0] _].
    rewrite length_map. unfold diagonal. rewrite tabulate_length, Hl0.
    destruct cov0 as [|r0 cov0']; [simpl in Hl0; lia|].
    apply Forall_cons in Hr0. simpl. lia. }
  rewrite Hc0. split; [apply tabulate_length|].
  apply tabulate_Forall. intros i Hi.
  rewrite !length_map. lia.
Qed.

(** X11. For [S], [P] and [sigmah] with at least one row each: when
    [Normality.__init__] returns, the dimensions fit.  sigmah has a column,
    the inner dimensions of [S @ P] and of [SP @ W_h] agree (P has as many
    columns as sigmah has rows), [cov_rec] holds one square matrix of the
    size of the rows of S per column of sigmah, and [sigmah_rec] has shape
    (rows of S, columns of sigmah). *)
Theorem Normality_init_shapes (S P y_hat sigmah W : matrix) (seed : Z)
    (me : Normality.self) :
  S <> [] -> P <> [] -> sigmah <> [] ->
  Normality.__init__ S P y_hat sigmah W seed = Ok me ->
  0 < ncols sigmah /\
  ncols S = length P /\ ncols P = length sigmah /\
  length (Normality.cov_rec me) = ncols sigmah /\
  Forall (fun cov => length cov = length S /\ Forall (fun r => length r = length S) cov)
         (Normality.cov_rec me) /\
  length (Normality.sigmah_rec me) = length S /\
  Forall (fun r => length r = ncols sigmah) (Normality.sigmah_rec me).
Proof.
  intros _ _ _ Hinit.
  destruct (Normality_init_inv _ _ _ _ _ _ _ Hinit)
    as (_ & HH & _ & HSP & HP & Hlen & Hcov & Hl & Hr).
  auto 10.
Qed.

(** ** Dimension mismatches and the constructors *)

(** C9 (as the code has it). Dimension mismatches between [S], [P],
    [y_hat] and [W]/[sigmah] are raised at construction only by
    [Normality], through the matrix products its constructor computes.  For
    arrays with at least one row: [Normality.__init__] raises ValueError, at
    [S @ P], when the columns of [S] are not as many as the rows of [P]; it
    raises when the columns of [P] are not as many as the rows of [sigmah],
    and when the correlation matrix of [W] does not have as many rows and as
    many columns as [sigmah] has rows.  It never reads the shape of [y_hat]:
    construction returns or raises the same whatever [y_hat] is, and a
    [y_hat] with at least one column whose rows are not as many as the
    columns of [SP] raises ValueError only in [get_samples].  [Bootstrap.__init__] stores its arguments and always
    returns; a mismatch between [S] and [P] raises only in
    [Bootstrap.get_samples].  [PERMBU.__init__] passes [S] and [tags] to the
    hierarchy validator and stores the rest: whether it returns does not
    depend on [y_hat], [sigmah], [P] or the in-sample arrays. *)
Theorem dimension_mismatches_and_constructors :
  (forall S P y_hat sigmah W seed,
     S <> [] -> ncols S <> length P ->
     Normality.__init__ S P y_hat sigmah W seed = Raise ValueError) /\
  (forall S P y_hat sigmah W seed,
     S <> [] -> P <> [] -> ncols P <> length sigmah ->
     raises (Normality.__init__ S P y_hat sigmah W seed)) /\
  (forall S P y_hat sigmah W seed R1,
     cov2corr W = Ok R1 ->
     length R1 <> length sigmah \/ ncols R1 <> length sigmah ->
     raises (Normality.__init__ S P y_hat sigmah W seed)) /\
  (forall S P y_hat y_hat' sigmah W seed,
     (forall me, Normality.__init__ S P y_hat sigmah W seed = Ok me ->
        exists me', Normality.__init__ S P y_hat' sigmah W seed = Ok me' /\
                    Normality.y_hat me' = y_hat') /\
     (forall e, Normality.__init__ S P y_hat sigmah W seed = Raise e ->
        Normality.__init__ S P y_hat' sigmah W seed = Raise e)) /\
  (forall me n,
     Normality.SP me <> [] -> 0 < ncols (Normality.y_hat me) ->
     ncols (Normality.SP me) <> length (Normality.y_hat me) ->
     Normality.get_samples me (Some n) = Raise ValueError) /\
  (forall S P y_hat y_insample y_hat_insample num_samples seed W,
     exists me,
       Bootstrap.__init__ S P y_hat y_insample y_hat_insample num_samples seed W = Ok me /\
       Bootstrap.S me = S /\ Bootstrap.P me = P /\ Bootstrap.y_hat me = y_hat) /\
  (forall me n,
     Bootstrap.S me <> [] ->
     ncols (Bootstrap.S me) <> length (Bootstrap.P me) ->
     raises (Bootstrap.get_samples me n)) /\
  (forall S tags y_hat y_insample y_hat_insample sigmah num_samples seed P
          y_hat' y_insample' y_hat_insample' sigmah' P' me,
     PERMBU.__init__ S tags y_hat y_insample y_hat_insample sigmah num_samples seed P
     = Ok me ->
     exists me',
       PERMBU.__init__ S tags y_hat' y_insample' y_hat_insample' sigmah' num_samples seed P'
       = Ok me' /\
       PERMBU.y_hat me' = y_hat' /\ PERMBU.sigmah me' = sigmah' /\ PERMBU.P me' = P').
Proof.
  assert (Hraises : forall (A : Type) (m : outcome A),
            (forall a, m = Ok a -> False) -> raises m).
  { intros A [a|e] H; [destruct (H a eq_refl)|unfold raises; eauto]. }
  split; [|split; [|split; [|split; [|split; [|split; [|split]]]]]].
  - intros S P y_hat sigmah W seed _ Hne. unfold Normality.__init__, matmul.
    apply Nat.eqb_neq in Hne. now rewrite Hne.
  - intros S P y_hat sigmah W seed _ _ Hne. apply Hraises. intros me Hme.
    apply Normality_init_inv in Hme. tauto.
  - intros S P y_hat sigmah W seed R1 HR1 Hne. apply Hraises. intros me Hme.
    apply Normality_init_inv in Hme. destruct Hme as ((R1' & HR1' & Hl & Hc) & _).
    rewrite HR1 in HR1'. injection HR1' as <-. lia.
  - intros S P y_hat y_hat' sigmah W seed. unfold Normality.__init__. split.
    + intros me. bind_ok SP HSP. bind_ok R1 HR1. bind_ok Wh HWh. bind_ok cov_rec Hcov.
      bind_ok sr Hsr. intros _. eexists. split; reflexivity.
    + intros e.
      destruct (matmul S P) as [SP|]; cbn [mbind outcome_bind]; [|trivial].
      destruct (cov2corr W) as [R1|]; cbn [mbind outcome_bind]; [|trivial].
      destruct (mapM _ (transpose sigmah)) as [Wh|]; cbn [mbind outcome_bind]; [|trivial].
      destruct (mapM _ Wh) as [cov_rec|]; cbn [mbind outcome_bind]; [|trivial].
      destruct (hstack_columns _) as [sr|]; cbn [mbind outcome_bind]; [discriminate|trivial].
  - intros me n _ Hh Hne. unfold Normality.get_samples.
    destruct (ncols (Normality.y_hat me)) as [|h]; [lia|].
    cbn [seq Normality.draw_steps]. unfold matvec_chk, col.
    rewrite length_map. apply Nat.eqb_neq in Hne. now rewrite Hne.
  - intros. eexists. split; [reflexivity|]. auto.
  - intros me n _. apply Bootstrap_mismatch_raises.
  - intros S tags y_hat y_insample y_hat_insample sigmah num_samples seed P
           y_hat' y_insample' y_hat_insample' sigmah' P' me.
    unfold PERMBU.__init__.
    destruct (is_strictly_hierarchical S tags); cbn [negb]; [|discriminate].
    intros _. eexists. split; [reflexivity|]. auto.
Qed.

(** ** The blocks of the bootstrap *)

Lemma nth_seq_lt (j m : nat) : 0 < m -> nth j (seq 0 m) 0 < m.
Proof.
  intros Hm. destruct (Nat.lt_ge_cases j m) as [Hj|Hj].
  - now rewrite seq_nth.
  - rewrite nth_overflow; [exact Hm|]. now rewrite length_seq.
Qed.

(** X12. Every sample path of [Bootstrap.get_samples] is [S @ P] applied to
    [y_hat] plus one block of [h] consecutive columns of the complete
    residuals, [h] the horizon.  The block starts at an index smaller than
    [T - h], [T] the number of complete residual columns, so it never
    reaches the last residual column. *)
Theorem Bootstrap_paths_are_residual_blocks (me : Bootstrap.self) (n : nat)
    (out : tensor) :
  Bootstrap.get_samples me (Some n) = Ok out ->
  exists (R : matrix) (T : nat) (starts : list nat),
    residuals_of (Bootstrap.y_insample me) (Bootstrap.y_hat_insample me) = Ok (R, T) /\
    length starts = n /\
    Forall (fun idx => idx + ncols (Bootstrap.y_hat me) < T) starts /\
    forall k, k < n ->
      sample_path out k
      = tabulate (length (Bootstrap.S me)) (fun i =>
          tabulate (ncols (Bootstrap.y_hat me)) (fun t =>
            dot (vecmat (nth i (Bootstrap.S me) []) (Bootstrap.P me))
                (col t (zip_with (zip_with Qplus) (Bootstrap.y_hat me)
                          (map (fun r => take (ncols (Bootstrap.y_hat me))
                                           (drop (nth k starts 0) r)) R))))).
Proof.
  unfold Bootstrap.get_samples.
  bind_ok RT HRT. destruct RT as [R T].
  bind_ok ch Hch. destruct ch as [samples_idx g'].
  bind_ok idxs Hidxs. bind_ok paths Hpaths. bind_ok SP HSP. bind_ok samples Hs.
  intros [= <-].
  set (h := ncols (Bootstrap.y_hat me)) in *.
  apply mapM_Forall2 in Hpaths.
  pose proof (Forall2_length _ _ _ Hpaths) as Hplen.
  assert (Hpath : forall k, k < length idxs ->
            nth k paths []
            = zip_with (zip_with Qplus) (Bootstrap.y_hat me)
                (map (fun r => take h (drop (nth k idxs 0) r)) R)).
  { intros k Hk. pose proof (Forall2_nth_lt _ _ _ k 0 [] Hpaths Hk) as Hidx.
    cbv beta in Hidx. unfold ew2 in Hidx.
    destruct (same_shape _ _); [|discriminate]. now injection Hidx as <-. }
  assert (Hcols : Forall (fun p => ncols p = h) paths).
  { apply Forall_forall. intros p Hp.
    apply list_elem_of_lookup in Hp as [k Hk].
    destruct (Forall2_lookup_r _ _ _ _ _ Hpaths Hk) as (idx & _ & Hidx).
    unfold ew2 in Hidx. destruct (same_shape _ _) eqn:Hshape; [|discriminate].
    injection Hidx as <-. now apply ncols_zip_with. }
  destruct (apply_along_axis_paths _ _ _ _ Hs Hcols) as (Hpos & Hh & Hlen & Hsp).
  apply matmul_ok in HSP as [_ ->].
  unfold choice in Hch.
  destruct (_ && _) eqn:Hguard; [discriminate|].
  set (step := fun g : rng =>
         let '(j, g') := rk_interval (length (seq 0 (T - h)) - 1) g in
         (nth j (seq 0 (T - h)) 0, g')) in Hch.
  pose proof (draws_length step n (RandomState (Bootstrap.seed me))) as Hn.
  assert (Hn0 : 0 < n).
  { destruct (draws step n _) as [xs g1]. injection Hch as <- <-.
    injection Hidxs as <-. simpl in Hn. lia. }
  assert (HT : 0 < T - h).
  { apply andb_false_iff in Hguard. destruct Hguard as [Hg|Hg].
    - apply Nat.eqb_neq in Hg. rewrite length_seq in Hg. lia.
    - apply negb_false_iff, Nat.eqb_eq in Hg. lia. }
  pose proof (draws_Forall (fun idx => idx + h < T) step n
                (RandomState (Bootstrap.seed me))) as Hall.
  destruct (draws step n _) as [xs g1]. injection Hch as <- <-.
  injection Hidxs as <-. simpl in Hn, Hall.
  exists R, T, xs. split; [reflexivity|]. split; [exact Hn|]. split.
  - apply Hall. intros g. unfold step. destruct (rk_interval _ g) as [j g2]. simpl.
    pose proof (nth_seq_lt j (T - h) HT). lia.
  - intros k Hk. rewrite (Hsp k) by lia. rewrite matmul_raw_length.
    apply tabulate_ext. intros i Hi. apply tabulate_ext. intros t Ht.
    unfold matmul_raw. rewrite (nth_map_lt _ _ _ _ []) by exact Hi.
    rewrite Hpath by lia. reflexivity.
Qed.

(** ** The residuals and their missing values *)

Lemma filter_seq_sorted (Pr : nat -> Prop) `{!forall x, Decision (Pr x)} (a n : nat) :
  StronglySorted lt (filter Pr (seq a n)).
Proof.
  revert a. induction n as [|n IH]; intros a; simpl; [constructor|].
  rewrite filter_cons. destruct (decide (Pr a)); [|apply IH].
  constructor; [apply IH|]. apply Forall_forall. intros x Hx.
  apply list_elem_of_filter in Hx as [_ Hx]. apply elem_of_seq in Hx. lia.
Qed.

Lemma nth_zip_with_sub_nan (a b : list (option Q)) (j : nat) :
  nth j (zip_with sub_nan a b) None = sub_nan (nth j a None) (nth j b None).
Proof.
  revert b j. induction a as [|x a IH]; intros b j.
  - simpl. now destruct j.
  - destruct b as [|y b]; simpl.
    + destruct j; simpl; [now destruct x|]. now destruct (nth j a None).
    + destruct j; [reflexivity|]. apply IH.
Qed.

Lemma complete_column_spec (R : list (list (option Q))) (j : nat) :
  complete_column R j = true <-> forall r, r ∈ R -> nth j r None <> None.
Proof.
  unfold complete_column. rewrite Nat.eqb_eq. split.
  - intros Hlen r Hr Hnone. apply nil_length_inv in Hlen.
    eapply (filter_nil_not_elem_of _ _ (nth j r None) Hlen).
    + now rewrite Hnone.
    + apply list_elem_of_fmap. now exists r.
  - intros Hall. induction R as [|r R IH]; [reflexivity|]. simpl.
    rewrite filter_cons_False.
    + apply IH. intros r' Hr'. apply Hall. apply elem_of_cons. now right.
    + pose proof (Hall r ltac:(apply elem_of_cons; now left)) as Hr.
      destruct (nth j r None); [discriminate|congruence].
Qed.

(** X13. The residuals keep a time index exactly when no series has a
    missing actual or fitted value there; the kept indices stay in their
    order, and entry [(i, k)] of the residuals is actual minus fitted of
    series [i] at the [k]-th kept index. *)
Theorem residuals_keep_complete_columns (y_insample y_hat_insample : list (list (option Q)))
    (R : matrix) (T : nat) :
  residuals_of y_insample y_hat_insample = Ok (R, T) ->
  exists kept : list nat,
    length kept = T /\ T <= ncols y_insample /\ StronglySorted lt kept /\
    (forall j, j ∈ kept <->
       j < ncols y_insample /\
       forall i, i < length y_insample ->
         nth j (nth i y_insample []) None <> None /\
         nth j (nth i y_hat_insample []) None <> None) /\
    length R = length y_insample /\
    forall i, i < length y_insample ->
      length (nth i R []) = T /\
      forall k, k < T ->
        sub_nan (nth (nth k kept 0) (nth i y_insample []) None)
                (nth (nth k kept 0) (nth i y_hat_insample []) None)
        = Some (at_ (nth i R []) k).
Proof.
  unfold residuals_of. bind_ok R0 HR0. intros [= <- <-].
  unfold ew2 in HR0. destruct (same_shape _ _) eqn:Hshape; [|discriminate].
  injection HR0 as <-.
  pose proof (ncols_zip_with sub_nan _ _ Hshape) as Hnc.
  unfold same_shape in Hshape. apply andb_prop in Hshape. destruct Hshape as [Hlen _].
  apply Nat.eqb_eq in Hlen.
  set (R0 := zip_with (zip_with sub_nan) y_insample y_hat_insample) in *.
  assert (HR0len : length R0 = length y_insample).
  { unfold R0. rewrite length_zip_with. lia. }
  assert (Hrow : forall i, i < length y_insample ->
            nth i R0 [] = zip_with sub_nan (nth i y_insample []) (nth i y_hat_insample [])).
  { intros i Hi. unfold R0. apply nth_zip_with; lia. }
  assert (Hkept : forall j, j ∈ kept_columns R0 <->
            j < ncols y_insample /\
            forall i, i < length y_insample ->
              nth j (nth i y_insample []) None <> None /\
              nth j (nth i y_hat_insample []) None <> None).
  { intros j. unfold kept_columns. rewrite list_elem_of_filter, elem_of_seq, Hnc.
    rewrite complete_column_spec. split.
    - intros [Hall Hj]. split; [lia|]. intros i Hi.
      assert (Hin : nth i R0 [] ∈ R0).
      { apply list_elem_of_In, nth_In. lia. }
      specialize (Hall _ Hin). rewrite Hrow, nth_zip_with_sub_nan in Hall by exact Hi.
      destruct (nth j (nth i y_insample []) None),
               (nth j (nth i y_hat_insample []) None); simpl in Hall;
        split; congruence.
    - intros [Hj Hall]. split; [|lia]. intros r Hr.
      apply list_elem_of_lookup in Hr as [i Hi].
      assert (Hil : i < length y_insample) by (apply lookup_lt_Some in Hi; lia).
      rewrite <- (nth_lookup_Some _ _ [] _ Hi), Hrow, nth_zip_with_sub_nan by exact Hil.
      destruct (Hall i Hil) as [Ha Hb].
      destruct (nth j (nth i y_insample []) None),
               (nth j (nth i y_hat_insample []) None); simpl; congruence. }
  exists (kept_columns R0). split; [reflexivity|]. split.
  { unfold kept_columns. etransitivity; [apply length_filter|].
    rewrite length_seq. lia. }
  split; [apply filter_seq_sorted|]. split; [exact Hkept|].
  unfold drop_nan_columns. split; [now rewrite length_map|].
  intros i Hi. rewrite (nth_map_lt _ _ _ _ []) by lia.
  split; [apply length_map|]. intros k Hk.
  unfold at_. rewrite (nth_map_lt _ _ _ _ 0) by exact Hk.
  assert (Hin : nth k (kept_columns R0) 0 ∈ kept_columns R0).
  { apply list_elem_of_In, nth_In. exact Hk. }
  apply Hkept in Hin. destruct Hin as [_ Hall]. destruct (Hall i Hi) as [Ha Hb].
  rewrite Hrow, nth_zip_with_sub_nan by exact Hi.
  destruct (nth _ (nth i y_insample []) None),
           (nth _ (nth i y_hat_insample []) None); simpl; congruence.
Qed.

(** ** The result mapping of Normality *)

Lemma get_mean_inv (res : gmap string value) (mean : matrix) :
  get_mean res = Ok mean -> res !! "mean" = Some (Arr2 mean).
Proof.
  unfold get_mean. destruct (res !! "mean") as [[m|t]|]; try discriminate.
  now intros [= ->].
Qed.

Lemma get_mean_missing (res : gmap string value) :
  res !! "mean" = None -> get_mean res = Raise KeyError.
Proof. intros H. unfold get_mean. now rewrite H. Qed.

Lemma ew2_inv {A B C} (f : A -> B -> C) (X : list (list A)) (Y : list (list B))
    (Z : list (list C)) :
  ew2 f X Y = Ok Z -> same_shape X Y = true /\ Z = zip_with (zip_with f) X Y.
Proof. unfold ew2. destruct (same_shape X Y); [|discriminate]. now intros [= <-]. Qed.

Lemma Normality_levels_loop_frame (me : Normality.self) (level : list Z) :
  forall res res' : gmap string value,
    Normality.levels_loop me res level = Ok res' ->
    forall k : string,
      (forall lv, lv ∈ level -> k <> lo_key lv /\ k <> hi_key lv) ->
      res' !! k = res !! k.
Proof.
  induction level as [|lv level IH]; intros res res'; simpl.
  - now intros [= <-].
  - bind_ok mean Hmean. bind_ok lo Hlo. bind_ok mean' Hmean'. bind_ok hi Hhi.
    intros Hrest k Hk. rewrite (IH _ _ Hrest).
    + destruct (Hk lv ltac:(apply elem_of_cons; now left)) as [Hklo Hkhi].
      now rewrite !lookup_insert_ne by congruence.
    + intros lv' Hlv'. apply Hk. apply elem_of_cons. now right.
Qed.

(** X14. The keys of Normality's result mapping.  Without a ['mean'] entry
    [get_prediction_levels] raises KeyError as soon as one level is asked
    for (with no level it only stores ['sigmah']) and
    [get_prediction_quantiles] always raises KeyError.  When they return,
    ['sigmah'] holds the reconciled standard deviations and every key other
    than ['sigmah'] and the written bounds, respectively ['sigmah'] and
    ['quantiles'], is as it was. *)
Theorem Normality_result_mapping_keys (me : Normality.self) (res : gmap string value) :
  (res !! "mean" = None ->
   (forall lv level,
      Normality.get_prediction_levels me res (lv :: level) = Raise KeyError) /\
   Normality.get_prediction_levels me res []
   = Ok (<["sigmah" := Arr2 (Normality.sigmah_rec me)]> res) /\
   (forall quantiles,
      Normality.get_prediction_quantiles me res quantiles = Raise KeyError)) /\
  (forall level res',
     Normality.get_prediction_levels me res level = Ok res' ->
     res' !! "sigmah" = Some (Arr2 (Normality.sigmah_rec me)) /\
     forall k : string, k <> "sigmah" ->
       (forall lv, lv ∈ level -> k <> lo_key lv /\ k <> hi_key lv) ->
       res' !! k = res !! k) /\
  (forall quantiles res',
     Normality.get_prediction_quantiles me res quantiles = Ok res' ->
     res' !! "sigmah" = Some (Arr2 (Normality.sigmah_rec me)) /\
     forall k : string, k <> "sigmah" -> k <> "quantiles" -> res' !! k = res !! k).
Proof.
  split; [|split].
  - intros Hmiss.
    assert (Hmiss' : <["sigmah" := Arr2 (Normality.sigmah_rec me)]> res !! "mean" = None).
    { now rewrite lookup_insert_ne by discriminate. }
    split; [|split].
    + intros lv level. unfold Normality.get_prediction_levels. simpl.
      now rewrite (get_mean_missing _ Hmiss').
    + reflexivity.
    + intros quantiles. unfold Normality.get_prediction_quantiles.
      now rewrite (get_mean_missing _ Hmiss').
  - intros level res'. unfold Normality.get_prediction_levels. intros Hloop.
    pose proof (Normality_levels_loop_frame _ _ _ _ Hloop) as Hframe. split.
    + rewrite Hframe; [apply lookup_insert_eq|].
      intros lv _. split; [apply sigmah_ne_lo_key|apply sigmah_ne_hi_key].
    + intros k Hk Hlv. rewrite (Hframe k Hlv). now apply lookup_insert_ne.
  - intros quantiles res'. unfold Normality.get_prediction_quantiles.
    bind_ok mean Hmean. bind_ok q Hq. intros [= <-].
    split.
    + rewrite lookup_insert_ne by discriminate. apply lookup_insert_eq.
    + intros k Hk Hkq. now rewrite !lookup_insert_ne by congruence.
Qed.

Lemma singleton_cells (z : Q) (m s : vector) :
  zip_with (fun a b => map (fun zq => (a + zq * b)%Q) [z]) m s
  = map (fun x => [x]) (zip_with Qplus m (map (Qmult z) s)).
Proof.
  revert s. induction m as [|a m IH]; intros [|b s]; simpl; try reflexivity.
  now rewrite IH.
Qed.

Lemma singleton_cells_matrix (z : Q) (mean sig : matrix) :
  zip_with (zip_with (fun a b => map (fun zq => (a + zq * b)%Q) [z])) mean sig
  = map (map (fun x => [x])) (zip_with (zip_with Qplus) mean (mscale z sig)).
Proof.
  unfold mscale. revert sig.
  induction mean as [|m mean IH]; intros [|s sig]; simpl; try reflexivity.
  f_equal; [apply singleton_cells|apply IH].
Qed.

(** X15. The two outputs of Normality agree: the quantile array for the
    single probability [0.5 + lv / 200] is, entry by entry, the bound
    ['hi-lv'] that [get_prediction_levels] writes for the level [lv]. *)
Theorem Normality_quantile_is_upper_bound (me : Normality.self)
    (res resL resQ : gmap string value) (lv : Z) :
  Normality.get_prediction_levels me res [lv] = Ok resL ->
  Normality.get_prediction_quantiles me res [((1 # 2) + inject_Z lv / 200)%Q] = Ok resQ ->
  exists hi : matrix,
    resL !! hi_key lv = Some (Arr2 hi) /\
    resQ !! "quantiles" = Some (Arr3 (map (map (fun x => [x])) hi)).
Proof.
  intros HL HQ. unfold Normality.get_prediction_levels in HL.
  cbn [Normality.levels_loop] in HL. cbv zeta in HL. revert HL.
  bind_ok mean Hmean. bind_ok lo Hlo. bind_ok mean' Hmean'. bind_ok hi Hhi.
  intros [= <-].
  apply get_mean_inv in Hmean, Hmean'.
  rewrite lookup_insert_ne in Hmean' by apply not_eq_sym, mean_ne_lo_key.
  assert (mean' = mean) by congruence. subst mean'.
  unfold Normality.get_prediction_quantiles in HQ.
  rewrite (get_mean_ok _ _ Hmean) in HQ. cbn [mbind outcome_bind] in HQ. revert HQ.
  bind_ok q Hq. intros [= <-].
  apply ew2_inv in Hhi as [_ ->]. apply ew2_inv in Hq as [_ ->].
  eexists. split; [apply lookup_insert_eq|].
  rewrite lookup_insert_eq. do 2 f_equal.
  apply singleton_cells_matrix.
Qed.

(** ** Quantiles from samples *)

Lemma insert_sorted_elem (x y : Q) (l : vector) :
  x ∈ insert_sorted y l -> x = y \/ x ∈ l.
Proof.
  induction l as [|z l IH]; simpl.
  - rewrite list_elem_of_singleton. tauto.
  - destruct (Qle_bool y z).
    + rewrite elem_of_cons. tauto.
    + rewrite !elem_of_cons. intros [->|Hin]; [tauto|]. apply IH in Hin. tauto.
Qed.

Lemma sortQ_elem (x : Q) (a : vector) : x ∈ sortQ a -> x ∈ a.
Proof.
  induction a as [|y a IH]; simpl; [trivial|].
  intros Hin. apply insert_sorted_elem in Hin. rewrite elem_of_cons.
  destruct Hin as [->|Hin]; [tauto|]. right. apply IH, Hin.
Qed.

(** An empirical quantile lies between two of the samples. *)
Lemma quantile_1d_within (a : vector) (q : Q) :
  0 < length a -> (0 <= q)%Q -> (q <= 1)%Q ->
  exists u v, u ∈ a /\ v ∈ a /\ (u <= quantile_1d a q)%Q /\ (quantile_1d a q <= v)%Q.
Proof.
  intros Ha H0 H1. unfold quantile_1d.
  pose proof (sortQ_length a) as Hlen.
  destruct (lerp_between (sortQ a) q (sortQ_sorted a) ltac:(lia) H0 H1) as [Hlo Hhi].
  pose proof (virtual_index_bounds (length (sortQ a) - 1) q H0 H1) as Hv.
  cbv zeta in Hlo, Hhi.
  set (lo := Z.to_nat (Qfloor (q * inject_Z (Z.of_nat (length (sortQ a) - 1))))) in *.
  assert (Hlo_lt : lo < length (sortQ a)) by (unfold lo; lia).
  exists (at_ (sortQ a) lo), (at_ (sortQ a) (Nat.min (lo + 1) (length (sortQ a) - 1))).
  split; [|split; [|split; assumption]].
  - apply sortQ_elem, list_elem_of_In, nth_In. exact Hlo_lt.
  - apply sortQ_elem, list_elem_of_In, nth_In. lia.
Qed.

Lemma quantiles_from_samples_cells (samples : tensor) (H : nat)
    (res res' : gmap string value) (qs : list Q) :
  Forall (fun Xi => length Xi = H) samples ->
  quantiles_from_samples (length samples) (ncols samples) samples res qs = Ok res' ->
  res' = <["quantiles" :=
            Arr3 (map (map (fun a => map (quantile_1d a) qs)) samples)]> res /\
  Forall (fun q => (0 <= q)%Q /\ (q <= 1)%Q) qs /\
  Forall (Forall (fun a =>
            Forall (fun q => exists u v, u ∈ a /\ v ∈ a /\
                               (u <= quantile_1d a q)%Q /\ (quantile_1d a q <= v)%Q) qs))
         samples.
Proof.
  intros Hrect. unfold quantiles_from_samples. bind_ok sq Hsq. intros [= <-].
  apply quantiles_axis2_ok in Hsq as (Hqs & Hne & ->).
  split; [|split; [exact Hqs|]].
  - do 2 f_equal. unfold transpose_120.
    apply (nth_ext _ _ [] []); [now rewrite tabulate_length, length_map|].
    intros i Hi. rewrite tabulate_length in Hi. rewrite nth_tabulate by exact Hi.
    rewrite (nth_map_lt _ _ _ _ []) by exact Hi.
    assert (Hnc : ncols samples = length (nth i samples [])).
    { rewrite (nth_Forall _ _ _ _ Hrect Hi).
      destruct samples as [|X0 samples']; [simpl in Hi; lia|].
      apply Forall_cons in Hrect. simpl. tauto. }
    rewrite Hnc.
    apply (nth_ext _ _ [] []); [now rewrite tabulate_length, length_map|].
    intros t Ht. rewrite tabulate_length in Ht. rewrite nth_tabulate by exact Ht.
    rewrite (nth_map_lt _ _ _ _ []) by exact Ht.
    rewrite map_map. apply map_ext. intros q. unfold at_.
    rewrite (nth_map_lt _ _ _ _ []) by exact Hi.
    now rewrite (nth_map_lt _ _ _ _ []) by exact Ht.
  - destruct qs as [|q0 qs']; [|].
    { apply Forall_forall. intros Xi _. apply Forall_forall. intros a _. constructor. }
    specialize (Hne ltac:(discriminate)).
    eapply Forall_impl; [exact Hne|]. intros Xi HXi. simpl in HXi.
    eapply Forall_impl; [exact HXi|]. intros a Ha. simpl in Ha.
    eapply Forall_impl; [exact Hqs|]. intros q [Hq0 Hq1]. simpl.
    now apply quantile_1d_within.
Qed.

(** X16. The quantiles of the sample-based samplers: when
    [Bootstrap.get_prediction_quantiles] or [PERMBU.get_prediction_quantiles]
    returns, every probability lies in [0, 1], ['quantiles'] holds, for
    series [i] and step [t], the list of the empirical quantiles of the
    samples of that cell, in the order of the probabilities (the quantile
    axis is last), each of them between two samples of the cell, and the
    other keys of [res] are as they were. *)
Theorem sample_prediction_quantiles_spec (quantiles : list Q) :
  (forall (me : Bootstrap.self) (res res' : gmap string value),
     Bootstrap.get_prediction_quantiles me res quantiles = Ok res' ->
     exists samples,
       Bootstrap.get_samples me (Bootstrap.num_samples me) = Ok samples /\
       res' = <["quantiles" :=
                 Arr3 (map (map (fun a => map (quantile_1d a) quantiles)) samples)]> res /\
       Forall (fun q => (0 <= q)%Q /\ (q <= 1)%Q) quantiles /\
       Forall (Forall (fun a =>
                 Forall (fun q => exists u v, u ∈ a /\ v ∈ a /\
                           (u <= quantile_1d a q)%Q /\ (quantile_1d a q <= v)%Q)
                        quantiles)) samples) /\
  (forall (me : PERMBU.self) (res : gmap string value) (g : rng)
          (res' : gmap string value) (g' : rng),
     PERMBU.get_prediction_quantiles me res quantiles g = Ok (res', g') ->
     exists samples,
       PERMBU.get_samples me (PERMBU.num_samples me) g = Ok (samples, g') /\
       res' = <["quantiles" :=
                 Arr3 (map (map (fun a => map (quantile_1d a) quantiles)) samples)]> res /\
       Forall (fun q => (0 <= q)%Q /\ (q <= 1)%Q) quantiles /\
       Forall (Forall (fun a =>
                 Forall (fun q => exists u v, u ∈ a /\ v ∈ a /\
                           (u <= quantile_1d a q)%Q /\ (quantile_1d a q <= v)%Q)
                        quantiles)) samples).
Proof.
  split.
  - intros me res res'. unfold Bootstrap.get_prediction_quantiles.
    bind_ok samples Hs. intros Hq. exists samples. split; [reflexivity|].
    destruct (Bootstrap_sample_paths _ _ _ Hs) as (paths & _ & _ & _ & [_ Hshape] & _).
    apply (quantiles_from_samples_cells _ (ncols (Bootstrap.y_hat me))); [|exact Hq].
    eapply Forall_impl; [exact Hshape|]. now intros Xi [HXi _].
  - intros me res g res' g'. unfold PERMBU.get_prediction_quantiles.
    bind_ok x Hs. destruct x as [samples g1]. bind_ok res1 Hq. intros [= <- <-].
    exists samples. split; [reflexivity|].
    destruct (PERMBU.num_samples me) as [n|].
    + destruct (PERMBU_get_samples_inv _ _ _ _ _ Hs) as (_ & _ & _ & _ & [_ Hshape] & _).
      apply (quantiles_from_samples_cells _ (ncols (PERMBU.y_hat me))); [|exact Hq].
      eapply Forall_impl; [exact Hshape|]. now intros Xi [HXi _].
    + exfalso. revert Hs. unfold PERMBU.get_samples.
      bind_ok x Hres. destruct x as [R T]. cbn [py_gt mbind outcome_bind]. discriminate.
Qed.

(** ** Nested intervals of Normality *)

Lemma row_bounds_nested (z z' : Q) (m s : vector) :
  (z <= z')%Q -> Forall (fun x => (0 <= x)%Q) s ->
  Forall2 Qle (zip_with Qminus m (map (Qmult z') s)) (zip_with Qminus m (map (Qmult z) s)) /\
  Forall2 Qle (zip_with Qplus m (map (Qmult z) s)) (zip_with Qplus m (map (Qmult z') s)).
Proof.
  intros Hz Hs. revert m. induction Hs as [|b s Hb Hs IH]; intros [|a m]; simpl;
    try (split; constructor).
  - nra.
  - apply IH.
  - nra.
  - apply IH.
Qed.

Lemma bounds_nested (z z' : Q) (mean sig : matrix) :
  (z <= z')%Q -> Forall (Forall (fun x => (0 <= x)%Q)) sig ->
  Forall2 (Forall2 Qle) (zip_with (zip_with Qminus) mean (mscale z' sig))
                        (zip_with (zip_with Qminus) mean (mscale z sig)) /\
  Forall2 (Forall2 Qle) (zip_with (zip_with Qplus) mean (mscale z sig))
                        (zip_with (zip_with Qplus) mean (mscale z' sig)).
Proof.
  intros Hz Hs. unfold mscale. revert mean.
  induction Hs as [|s sig Hs0 Hs IH]; intros [|m mean]; simpl; try (split; constructor).
  - apply (row_bounds_nested z z' m s Hz Hs0).
  - apply IH.
  - apply (row_bounds_nested z z' m s Hz Hs0).
  - apply IH.
Qed.

(** X17. The intervals of Normality are nested: for two requested levels
    [-100 < lv <= lv' < 100] the bounds of the larger level enclose those of
    the smaller one, entry by entry ([norm.ppf] does not decrease and the
    reconciled standard deviations are square roots). *)
Theorem Normality_intervals_nested (S P y_hat sigmah W : matrix) (seed : Z)
    (me : Normality.self) (res : gmap string value) (mean : matrix) (level : list Z)
    (lv lv' : Z) :
  NumericsLaws Nu ->
  Normality.__init__ S P y_hat sigmah W seed = Ok me ->
  res !! "mean" = Some (Arr2 mean) ->
  same_shape mean (Normality.sigmah_rec me) = true ->
  lv ∈ level -> lv' ∈ level -> (-100 < lv)%Z -> (lv <= lv')%Z -> (lv' < 100)%Z ->
  exists (res' : gmap string value) (lo hi lo' hi' : matrix),
    Normality.get_prediction_levels me res level = Ok res' /\
    res' !! lo_key lv = Some (Arr2 lo) /\ res' !! hi_key lv = Some (Arr2 hi) /\
    res' !! lo_key lv' = Some (Arr2 lo') /\ res' !! hi_key lv' = Some (Arr2 hi') /\
    Forall2 (Forall2 Qle) lo' lo /\ Forall2 (Forall2 Qle) hi hi'.
Proof.
  intros L Hinit Hmean Hshape Hlv Hlv' Hlow Hle Hhigh.
  unfold Normality.get_prediction_levels.
  destruct (levels_loop_spec me mean level Hshape
              (<["sigmah" := Arr2 (Normality.sigmah_rec me)]> res))
    as (res' & Hrun & Hkeys & _).
  { now rewrite lookup_insert_ne by discriminate. }
  destruct (Hkeys lv Hlv) as [Hlo Hhi]. destruct (Hkeys lv' Hlv') as [Hlo' Hhi'].
  exists res'. do 4 eexists.
  split; [exact Hrun|]. split; [exact Hlo|]. split; [exact Hhi|].
  split; [exact Hlo'|]. split; [exact Hhi'|].
  unfold lo_of, hi_of. apply bounds_nested.
  - unfold z_of. apply (ppf_mono _ L).
    + rewrite Zlt_Qlt in Hlow. change (inject_Z (-100)) with (-100)%Q in Hlow.
      unfold Qdiv. change (/ 200)%Q with (1 # 200)%Q. lra.
    + rewrite Zle_Qle in Hle. unfold Qdiv. change (/ 200)%Q with (1 # 200)%Q. lra.
    + rewrite Zlt_Qlt in Hhigh. change (inject_Z 100) with 100%Q in Hhigh.
      unfold Qdiv. change (/ 200)%Q with (1 # 200)%Q. lra.
  - eapply init_sigmah_rec_nonneg; eassumption.
Qed.


(** ** Totals through one level of PERMBU *)

Lemma total_perm (l l' : vector) : l ≡ₚ l' -> (total l == total l')%Q.
Proof.
  induction 1 as [|x l l' _ IH|x y l|l l' l'' _ IH1 _ IH2]; simpl.
  - reflexivity.
  - now rewrite IH.
  - ring.
  - now rewrite IH1.
Qed.

Lemma total_map_linear {A} (a : Q) (F K : A -> Q) (l : list A) :
  (total (map (fun s => a * F s + K s) l) == a * total (map F l) + total (map K l))%Q.
Proof. induction l as [|s l IH]; simpl; [ring|]. rewrite IH. ring. Qed.

Lemma total_map_zero {A} (l : list A) : (total (map (fun _ => 0) l) == 0)%Q.
Proof. induction l as [|s l IH]; simpl; [reflexivity|]. rewrite IH. ring. Qed.

(** Summing a product with a matrix over the sample axis. *)
Lemma total_dot {A} (u : vector) (X : list A) (f : A -> vector) (n : nat) :
  Forall (fun x => length (f x) = n) X ->
  (total (tabulate n (fun s => dot u (map (fun x => at_ (f x) s) X)))
   == dot u (map (fun x => total (f x)) X))%Q.
Proof.
  intros HX. revert u. induction HX as [|x X Hx HX IH]; intros u.
  - simpl. unfold tabulate.
    rewrite (map_ext _ (fun _ => 0%Q)) by (intros s; apply dot_nil_r).
    rewrite total_map_zero, dot_nil_r. reflexivity.
  - destruct u as [|a u].
    + unfold tabulate, dot. simpl. apply total_map_zero.
    + unfold tabulate in *.
      rewrite (map_ext _ (fun s => (a * at_ (f x) s
                 + dot u (map (fun x0 => at_ (f x0) s) X))%Q)) by (intros s; apply dot_cons).
      rewrite total_map_linear, IH.
      change (map (at_ (f x)) (seq 0 n)) with (tabulate n (at_ (f x))).
      rewrite <- Hx, tabulate_at. simpl. rewrite dot_cons. reflexivity.
Qed.

Lemma swap_perm (l : list nat) (i j : nat) :
  i < length l -> j < length l -> swap l i j ≡ₚ l.
Proof.
  intros Hi Hj. apply Permutation_inj. split; [apply swap_length|].
  exists (fun k => if decide (k = i) then j else if decide (k = j) then i else k). split.
  - intros a b. repeat case_decide; intros; subst; congruence.
  - intros k. unfold swap.
    destruct (lookup_lt_is_Some_2 l i Hi) as [xi Hxi].
    destruct (lookup_lt_is_Some_2 l j Hj) as [xj Hxj].
    rewrite (nth_lookup_Some _ _ 0 _ Hxi), (nth_lookup_Some _ _ 0 _ Hxj).
    destruct (decide (k = j)) as [->|Hkj].
    + rewrite list_lookup_insert_eq by (rewrite length_insert; exact Hj).
      destruct (decide (j = i)) as [->|_]; [congruence|congruence].
    + rewrite list_lookup_insert_ne by congruence.
      destruct (decide (k = i)) as [->|Hki].
      * rewrite list_lookup_insert_eq by exact Hi. congruence.
      * now rewrite list_lookup_insert_ne by congruence.
Qed.

Lemma shuffle_from_perm (i : nat) (x : list nat) (g : rng) :
  (forall max g0, (rk_interval max g0).1 <= max) ->
  i < length x -> (shuffle_from i x g).1 ≡ₚ x.
Proof.
  intros Hlaw. revert x g. induction i as [|i IH]; intros x g Hi; [reflexivity|].
  cbn [shuffle_from]. pose proof (Hlaw (Datatypes.S i) g) as Hj.
  destruct (rk_interval (Datatypes.S i) g) as [j g1]. simpl in Hj.
  rewrite IH by (rewrite swap_length; lia). apply swap_perm; lia.
Qed.

Lemma permutation_perm (n : nat) (g : rng) :
  (forall max g0, (rk_interval max g0).1 <= max) ->
  (permutation n g).1 ≡ₚ seq 0 n.
Proof.
  intros Hlaw. unfold permutation. destruct n as [|n]; [reflexivity|].
  apply shuffle_from_perm; [exact Hlaw|]. rewrite length_seq. lia.
Qed.

Lemma perm_seq_range (p : list nat) (n : nat) :
  p ≡ₚ seq 0 n -> length p = n /\ Forall (fun k => k < n) p.
Proof.
  intros Hp. split.
  - rewrite Hp. apply length_seq.
  - rewrite Hp. apply Forall_forall. intros k Hk. apply elem_of_seq in Hk. lia.
Qed.

Lemma insert_unique_sorted (x : nat) (l : list nat) :
  StronglySorted lt l -> StronglySorted lt (insert_unique Nat.ltb x l).
Proof.
  induction 1 as [|y l Hs IH Hy]; simpl; [repeat constructor|].
  destruct (x <? y) eqn:Exy.
  - apply Nat.ltb_lt in Exy. constructor; [now constructor|].
    constructor; [exact Exy|]. eapply Forall_impl; [exact Hy|]. intros z Hz. simpl in Hz. lia.
  - destruct (y <? x) eqn:Eyx; [|now constructor].
    apply Nat.ltb_lt in Eyx. constructor; [exact IH|].
    apply Forall_forall. intros z Hz. apply insert_unique_elem in Hz.
    destruct Hz as [->|Hz]; [exact Eyx|]. rewrite Forall_forall in Hy. now apply Hy.
Qed.

Lemma unique_sorted (l : list nat) : StronglySorted lt (unique Nat.ltb l).
Proof.
  induction l as [|x l IH]; simpl; [constructor|]. now apply insert_unique_sorted.
Qed.

Lemma sorted_lt_NoDup (l : list nat) : StronglySorted lt l -> NoDup l.
Proof.
  induction 1 as [|x l Hs IH Hx]; constructor; [|exact IH].
  intros Hin. rewrite Forall_forall in Hx. specialize (Hx x Hin). lia.
Qed.

Lemma put_rows_length {A} (X : list A) (idxs : list nat) (Y X' : list A) :
  put_rows X idxs Y = Ok X' -> length Y = length idxs.
Proof.
  revert X Y. induction idxs as [|j idxs IH]; intros X [|y Y] Hput;
    simpl in Hput; try discriminate; [reflexivity|].
  destruct (j <? length X); [|discriminate]. simpl. f_equal. eapply IH, Hput.
Qed.

(** Rows written through distinct indices are found where they were put. *)
Lemma put_rows_lookup {A} (X : list A) (idxs : list nat) (Y X' : list A) (a i : nat)
    (y : A) :
  put_rows X idxs Y = Ok X' -> NoDup idxs ->
  idxs !! a = Some i -> Y !! a = Some y -> X' !! i = Some y.
Proof.
  revert X Y a. induction idxs as [|j idxs IH]; intros X [|y0 Y] a Hput Hnd Hi Hy;
    simpl in Hput; try discriminate.
  destruct (j <? length X) eqn:E; [|discriminate]. apply Nat.ltb_lt in E.
  apply NoDup_cons in Hnd. destruct Hnd as [Hfresh Hnd].
  destruct a as [|a]; simpl in Hi, Hy.
  - injection Hi as ->. injection Hy as ->.
    destruct (put_rows_spec (fun _ => True) _ _ _ _ Hput) as (_ & _ & Hframe).
    { now apply Forall_true. } { now apply Forall_true. }
    rewrite Hframe by exact Hfresh. now apply list_lookup_insert_eq.
  - eapply IH; eassumption.
Qed.

Lemma take_rows_map {A} (X : list A) (idxs : list nat) (Y : list A) (d : A) :
  take_rows X idxs = Ok Y -> Y = map (fun i => nth i X d) idxs.
Proof.
  unfold take_rows. revert Y. induction idxs as [|i idxs IH]; intros Y; simpl.
  - now intros [= <-].
  - bind_ok x Hx. bind_ok xs Hxs. intros [= <-].
    unfold list_item in Hx. destruct (X !! i) as [x'|] eqn:E; [|discriminate].
    injection Hx as ->. rewrite (nth_lookup_Some _ _ d _ E). f_equal. now apply IH.
Qed.

Lemma Forall2_nth_intro {A B} (R : A -> B -> Prop) (l : list A) (l' : list B)
    (d : A) (d' : B) :
  length l = length l' ->
  (forall i, i < length l -> R (nth i l d) (nth i l' d')) -> Forall2 R l l'.
Proof.
  revert l'. induction l as [|x l IH]; intros [|y l'] Hlen Hall; try discriminate;
    constructor.
  - apply (Hall 0). simpl. lia.
  - apply IH; [simpl in Hlen; lia|]. intros i Hi. apply (Hall (Datatypes.S i)). simpl. lia.
Qed.

(** With permutations of the sample positions, [_permutate_predictions]
    returns, and every cell keeps its samples, reordered. *)
Lemma permutate_predictions_perm (pred : tensor) (perms : list (list nat)) (H n : nat) :
  length pred = length perms ->
  Forall (fun Xi => length Xi = H /\ Forall (fun c => length c = n) Xi) pred ->
  Forall (fun p => p ≡ₚ seq 0 n) perms ->
  exists out,
    PERMBU._permutate_predictions pred perms = Ok out /\
    length out = length pred /\
    Forall (fun Xi => length Xi = H /\ Forall (fun c => length c = n) Xi) out /\
    forall i t, i < length pred -> t < H ->
      nth t (nth i out []) [] ≡ₚ nth t (nth i pred []) [].
Proof.
  intros Hlen Hpred Hperm.
  assert (Hp : Forall (fun p => length p = n /\ Forall (fun k => k < n) p) perms).
  { eapply Forall_impl; [exact Hperm|]. intros p. apply perm_seq_range. }
  pose proof (permutate_predictions_spec pred perms H n Hlen Hpred Hp) as Hrun.
  eexists. split; [exact Hrun|].
  assert (Hw : Forall (fun p => length p = n) perms).
  { eapply Forall_impl; [exact Hp|]. now intros p [Hl _]. }
  destruct (permutate_predictions_shape _ _ _ _ _ _ Hw Hpred Hrun) as [Hol Hos].
  split; [exact Hol|]. split; [exact Hos|].
  intros i t Hi Ht.
  destruct (nth_Forall _ _ i [] Hpred Hi) as [HXi Hci].
  rewrite (nth_zip_with _ _ _ _ _ [] []) by lia.
  rewrite (nth_map_lt _ _ _ _ []) by lia.
  apply map_at_perm.
  rewrite (nth_Forall _ _ t [] Hci) by lia.
  apply (nth_Forall _ _ i [] Hperm). lia.
Qed.

(** Row [a] of the aggregation matrix: the indicator, over the links, of the
    links whose parent is the [a]-th parent. *)
Lemma Agg_row (links : list (nat * nat)) (a : nat) :
  a < length (unique Nat.ltb (map fst links)) ->
  nth a (take (length (unique Nat.ltb (map fst links)))
              (transpose (fit_transform links))) []
  = map (fun link : nat * nat =>
           if nth a (unique Nat.ltb (map fst links)) 0 =? link.1 then 1%Q else 0%Q) links.
Proof.
  intros Ha.
  destruct links as [|l0 links']; [simpl in Ha; lia|].
  set (links := l0 :: links') in *.
  set (parents := unique Nat.ltb (map fst links)) in *.
  unfold transpose.
  assert (Hnc : length parents <= ncols (fit_transform links)).
  { unfold fit_transform. fold parents.
    change (map ?f links) with (f l0 :: map f links'). cbn [ncols].
    rewrite length_app. unfold one_hot at 1. rewrite length_map. lia. }
  rewrite take_tabulate by exact Hnc. rewrite nth_tabulate by exact Ha.
  unfold col, fit_transform. fold parents. rewrite map_map.
  apply map_ext. intros link. unfold at_.
  rewrite app_nth1 by (unfold one_hot; rewrite length_map; exact Ha).
  unfold one_hot. now rewrite (nth_map_lt _ _ _ _ 0) by exact Ha.
Qed.

Lemma lookup_nth {A} (l : list A) (i : nat) (d : A) :
  i < length l -> l !! i = Some (nth i l d).
Proof.
  intros Hi. destruct (lookup_lt_is_Some_2 l i Hi) as [x Hx].
  now rewrite (nth_lookup_Some _ _ d _ Hx).
Qed.

Lemma permutate_predictions_width (pred : tensor) (perms : list (list nat))
    (H n W : nat) (out : tensor) :
  pred <> [] -> 0 < H ->
  Forall (fun p => length p = W) perms ->
  Forall (fun Xi => length Xi = H /\ Forall (fun c => length c = n) Xi) pred ->
  PERMBU._permutate_predictions pred perms = Ok out ->
  W = n.
Proof.
  intros Hne HH Hp Hpred. unfold PERMBU._permutate_predictions. cbv zeta.
  bind_ok slices Hsl. intros _.
  destruct pred as [|X0 pred']; [congruence|].
  apply Forall_cons in Hpred. destruct Hpred as [[HX0 Hc0] _].
  cbn [ncols] in Hsl. rewrite HX0 in Hsl.
  apply mapM_Forall2 in Hsl.
  pose proof (Forall2_nth_lt _ _ _ 0 0 [] Hsl) as Ht'.
  rewrite length_seq, seq_nth in Ht' by exact HH. specialize (Ht' HH). simpl in Ht'.
  revert Ht'. bind_ok r Hr.
  destruct (same_shape r _) eqn:Ess; [|discriminate]. intros _.
  destruct (permutate_samples_shape _ _ _ _ Hp Hr) as [Hrl Hrw].
  unfold same_shape in Ess. apply andb_prop in Ess. destruct Ess as [E1 E2].
  apply Nat.eqb_eq in E1, E2. simpl in E1, E2.
  destruct r as [|r0 r']; [discriminate|].
  apply Forall_cons in Hrw. destruct Hrw as [Hr0 _]. simpl in E2.
  rewrite <- Hr0, E2. apply (nth_Forall _ _ _ _ Hc0). lia.
Qed.

(** One level of the bottom-up pass keeps the totals: the total of the
    samples of a parent at a horizon step is, after the pass, the sum of the
    totals of the samples of the children in the columns of the links of
    that parent.  The rank reordering of the children and the final shuffle
    change which samples are added to which, not what they add up to. *)
Lemma level_step_totals (hl rp : list (list nat)) (n : nat)
    (rec_samples : tensor) (lev : nat) (g : rng) (rec_samples' : tensor) (g' : rng)
    (H W : nat) :
  (forall max g0, (rk_interval max g0).1 <= max) ->
  hl <> [] ->
  Forall (fun p => p ≡ₚ seq 0 W) rp ->
  Forall (fun Xi => length Xi = H /\ Forall (fun c => length c = n) Xi) rec_samples ->
  PERMBU.level_step hl rp n rec_samples lev g = Ok (rec_samples', g') ->
  let children_links :=
    unique pair_ltb (map (fun l => (nth lev l 0, nth (lev + 1) l 0)) hl) in
  let children_idxs := unique Nat.ltb (map snd children_links) in
  let parent_idxs := unique Nat.ltb (map fst children_links) in
  forall a t, a < length parent_idxs -> t < H ->
    (total (nth t (nth (nth a parent_idxs 0%nat) rec_samples' []) [])
     == dot (map (fun link : nat * nat =>
                    if nth a parent_idxs 0%nat =? link.1 then 1 else 0) children_links)
            (map (fun c => total (nth t (nth c rec_samples []) [])) children_idxs))%Q.
Proof.
  intros Hlaw Hne Hrp Hrec. unfold PERMBU.level_step. cbv zeta.
  set (children_links := unique pair_ltb _).
  set (children_idxs := unique Nat.ltb (map snd children_links)).
  set (parent_idxs := unique Nat.ltb (map fst children_links)).
  assert (Hci : children_idxs <> []).
  { apply unique_nonempty. intros Hnil. apply map_eq_nil in Hnil.
    revert Hnil. apply unique_nonempty. intros Hnil. apply map_eq_nil in Hnil.
    contradiction. }
  bind_ok cp Hcp. bind_ok cs Hcs.
  pose proof (take_rows_map _ _ _ [] Hcs) as Hcsmap.
  apply take_rows_spec in Hcp as [Hcplen Hcpin].
  apply take_rows_spec in Hcs as [Hcslen Hcsin].
  assert (Hcsh : Forall (fun Xi => length Xi = H /\ Forall (fun c => length c = n) Xi) cs).
  { eapply Forall_impl; [exact Hcsin|]. intros Xi HXi. cbv beta in HXi.
    rewrite Forall_forall in Hrec. now apply Hrec. }
  assert (Hcpp : Forall (fun p => p ≡ₚ seq 0 W) cp).
  { eapply Forall_impl; [exact Hcpin|]. intros p Hp. cbv beta in Hp.
    rewrite Forall_forall in Hrp. now apply Hrp. }
  bind_ok cs0 Hrun0. intros Hrest a t Ha Ht. revert Hrest.
  assert (HW : W = n).
  { apply (permutate_predictions_width cs cp H n W cs0); try assumption.
    - intros ->. destruct children_idxs; [congruence|discriminate].
    - lia.
    - eapply Forall_impl; [exact Hcpp|]. intros p Hp. rewrite Hp. apply length_seq. }
  subst W.
  destruct (permutate_predictions_perm cs cp H n ltac:(lia) Hcsh Hcpp)
    as (cs' & Hrun1 & Hl1 & Hsh1 & Hperm1).
  rewrite Hrun1 in Hrun0. injection Hrun0 as <-.
  assert (Hcs'ne : cs' <> []).
  { intros ->. simpl in Hl1. destruct children_idxs; [congruence|].
    simpl in Hcslen. lia. }
  bind_ok ps Hps.
  destruct (einsum_shape _ _ _ _ _ Hcs'ne Hsh1 Hps) as [Hpslen Hpsh].
  unfold einsum_ab_bhs in Hps. destruct (_ =? _); [|discriminate]. injection Hps as Hps.
  destruct (draws _ _ g) as [sigma g1] eqn:Hd.
  assert (Hsigma : Forall (fun p => p ≡ₚ seq 0 n) sigma /\ length sigma = length ps).
  { pose proof (draws_Forall (fun p => p ≡ₚ seq 0 n) (permutation n) (length ps) g
                  (fun g0 => permutation_perm n g0 Hlaw)) as Hall.
    pose proof (draws_length (permutation n) (length ps) g) as Hdl.
    rewrite Hd in Hall, Hdl. now split. }
  destruct Hsigma as [Hsigma Hsl].
  destruct (permutate_predictions_perm ps sigma H n ltac:(lia) Hpsh Hsigma)
    as (ps' & Hrun2 & Hl2 & Hsh2 & Hperm2).
  rewrite Hrun2. cbn [mbind outcome_bind].
  bind_ok rec'' Hput. intros [= <- <-].
  pose proof (put_rows_length _ _ _ _ Hput) as Hpl.
  assert (Haps : a < length ps) by lia.
  assert (Hrow : nth (nth a parent_idxs 0) rec'' [] = nth a ps' []).
  { apply nth_lookup_Some.
    apply (put_rows_lookup _ _ _ _ a _ _ Hput).
    - apply sorted_lt_NoDup, unique_sorted.
    - now apply lookup_nth.
    - apply lookup_nth. lia. }
  rewrite Hrow, (total_perm _ _ (Hperm2 a t Haps Ht)).
  assert (Hnc : ncols cs' = H /\ ncols (nth 0 cs' []) = n).
  { destruct cs' as [|X0 cs'']; [congruence|].
    apply Forall_cons in Hsh1. destruct Hsh1 as [[HX0 Hc0] _]. simpl.
    split; [exact HX0|].
    destruct X0 as [|c0 X0']; [simpl in HX0; lia|].
    apply Forall_cons in Hc0. simpl. tauto. }
  destruct Hnc as [Hnc1 Hnc2].
  rewrite <- Hps, Hnc1, Hnc2.
  rewrite nth_tabulate by lia. rewrite nth_tabulate by exact Ht.
  pose proof (Agg_row children_links a Ha) as HA. fold parent_idxs in HA.
  rewrite HA. clear HA.
  rewrite (total_dot _ cs' (fun Xb => nth t Xb []) n).
  2:{ eapply Forall_impl; [exact Hsh1|]. intros Xb [HXb Hcb]. simpl.
      apply (nth_Forall _ _ _ _ Hcb). lia. }
  apply dot_proper; [apply Forall2_Qeq_refl|].
  apply (Forall2_nth_intro _ _ _ 0%Q 0%Q).
  { rewrite !length_map. lia. }
  intros b Hb. rewrite length_map in Hb.
  rewrite (nth_map_lt _ _ _ _ []) by exact Hb.
  rewrite (nth_map_lt _ _ _ _ 0) by lia.
  rewrite (total_perm _ _ (Hperm1 b t ltac:(lia) Ht)).
  rewrite Hcsmap. rewrite (nth_map_lt _ _ _ _ 0) by lia. reflexivity.
Qed.

Lemma levels_loop_app (hl rp : list (list nat)) (n : nat) (rec_samples : tensor)
    (l1 l2 : list nat) (g : rng) :
  PERMBU.levels_loop hl rp n rec_samples (l1 ++ l2) g
  = match PERMBU.levels_loop hl rp n rec_samples l1 g with
    | Ok (rec1, g1) => PERMBU.levels_loop hl rp n rec1 l2 g1
    | Raise e => Raise e
    end.
Proof.
  revert rec_samples g. induction l1 as [|lev l1 IH]; intros rec_samples g; simpl;
    [reflexivity|].
  destruct (PERMBU.level_step hl rp n rec_samples lev g) as [[rec1 g1]|];
    cbn [mbind outcome_bind]; [apply IH|reflexivity].
Qed.

(** The totals of a level survive the rest of the pass when the later
    levels write neither its parents nor its children. *)
Lemma levels_loop_totals (hl rp : list (list nat)) (n H W : nat)
    (pre : list nat) (lev : nat) (post : list nat) :
  (forall max g0, (rk_interval max g0).1 <= max) ->
  hl <> [] ->
  Forall (fun p => p ≡ₚ seq 0 W) rp ->
  forall (rec_samples : tensor) (g : rng) (rec_samples' : tensor) (g' : rng),
    Forall (fun Xi => length Xi = H /\ Forall (fun c => length c = n) Xi) rec_samples ->
    PERMBU.levels_loop hl rp n rec_samples (pre ++ lev :: post) g
    = Ok (rec_samples', g') ->
    let children_links :=
      unique pair_ltb (map (fun l => (nth lev l 0, nth (lev + 1) l 0)) hl) in
    let children_idxs := unique Nat.ltb (map snd children_links) in
    let parent_idxs := unique Nat.ltb (map fst children_links) in
    (forall l c, l ∈ hl -> c ∈ children_idxs -> nth lev l 0 <> c) ->
    (forall lev' l i, lev' ∈ post -> l ∈ hl ->
       i ∈ children_idxs \/ i ∈ parent_idxs -> nth lev' l 0 <> i) ->
    forall a t, a < length parent_idxs -> t < H ->
      (total (nth t (nth (nth a parent_idxs 0%nat) rec_samples' []) [])
       == dot (map (fun link : nat * nat =>
                      if nth a parent_idxs 0%nat =? link.1 then 1 else 0) children_links)
              (map (fun c => total (nth t (nth c rec_samples' []) [])) children_idxs))%Q.
Proof.
  intros Hlaw Hne Hrp rec_samples g rec_samples' g' Hrec Hrun.
  assert (Hw : Forall (fun p => length p = W) rp).
  { eapply Forall_impl; [exact Hrp|]. intros p Hp. rewrite Hp. apply length_seq. }
  rewrite levels_loop_app in Hrun.
  destruct (PERMBU.levels_loop hl rp n rec_samples pre g) as [[rec1 g1]|] eqn:Hpre;
    [|discriminate].
  destruct (PERMBU_levels_loop_spec _ _ _ H W _ Hne Hw _ _ _ _ Hrec Hpre) as (_ & Hsh1 & _).
  cbn [PERMBU.levels_loop] in Hrun. revert Hrun.
  bind_ok x Hstep. destruct x as [rec2 g2]. intros Hpost.
  destruct (level_step_spec _ _ _ _ _ _ _ _ H W Hne Hw Hsh1 Hstep) as (_ & Hsh2 & Hfr2).
  destruct (PERMBU_levels_loop_spec _ _ _ H W _ Hne Hw _ _ _ _ Hsh2 Hpost) as (_ & _ & Hfr3).
  pose proof (level_step_totals _ _ _ _ _ _ _ _ H W Hlaw Hne Hrp Hsh1 Hstep) as Htot.
  cbv zeta in Htot |- *.
  set (children_links := unique pair_ltb _) in *.
  set (children_idxs := unique Nat.ltb (map snd children_links)) in *.
  set (parent_idxs := unique Nat.ltb (map fst children_links)) in *.
  intros Hself Hlater a t Ha Ht.
  assert (Hpa : nth a parent_idxs 0 ∈ parent_idxs).
  { apply list_elem_of_In, nth_In. exact Ha. }
  assert (Hrow : nth (nth a parent_idxs 0) rec_samples' [] = nth (nth a parent_idxs 0) rec2 []).
  { rewrite (nth_lookup rec_samples'), (nth_lookup rec2). rewrite Hfr3; [reflexivity|].
    intros l lev' Hl Hlev'. apply (Hlater lev' l _ Hlev' Hl). now right. }
  rewrite Hrow, (Htot a t Ha Ht).
  apply dot_proper; [apply Forall2_Qeq_refl|].
  replace (map (fun c => total (nth t (nth c rec_samples' []) [])) children_idxs)
    with (map (fun c => total (nth t (nth c rec1 []) [])) children_idxs);
    [apply Forall2_Qeq_refl|].
  apply map_ext_in. intros c Hc. apply list_elem_of_In in Hc.
  do 2 f_equal. rewrite !nth_lookup. rewrite Hfr3, Hfr2; [reflexivity| |].
  - intros l Hl. now apply Hself.
  - intros l lev' Hl Hlev'. apply (Hlater lev' l _ Hlev' Hl). now left.
Qed.

(** What a returned [get_samples(n)] ran: the pass over the levels, from
    the base samples, with rank rows that are permutations. *)
Lemma PERMBU_get_samples_run (me : PERMBU.self) (n : nat) (g : rng) (out : tensor)
    (g' : rng) :
  PERMBU.get_samples me (Some n) g = Ok (out, g') ->
  exists (base : tensor) (hl rp : list (list nat)) (W : nat) (g0 : rng),
    vstack (PERMBU._nonzero_indexes_by_row (transpose (PERMBU.S me))) = Ok hl /\
    hl <> [] /\
    Forall (fun p => p ≡ₚ seq 0 W) rp /\
    Forall (fun Xi => length Xi = ncols (PERMBU.y_hat me) /\
                      Forall (fun c => length c = n) Xi) base /\
    PERMBU.levels_loop hl rp n base (rev (seq 0 (ncols hl - 1))) g0 = Ok (out, g').
Proof.
  unfold PERMBU.get_samples. bind_ok x Hres. destruct x as [R T].
  cbn [py_gt mbind outcome_bind].
  assert (HR : Forall (fun r => length r = T) R).
  { revert Hres. unfold residuals_of. bind_ok R0 HR0. intros [= <- <-].
    apply drop_nan_columns_lengths. }
  set (m := if T <? n then _ else _).
  assert (Hm : forall r T' g1, m = Ok (r, T', g1) -> exists W, Forall (fun x => length x = W) r).
  { unfold m. destruct (T <? n).
    - intros r T' g1. bind_ok x Hch. destruct x as [e g2].
      bind_ok idxs Hit. intros [= <- <- <-].
      exists (length idxs). rewrite Forall_map. apply Forall_true. intros x.
      apply length_map.
    - intros r T' g1 [= <- <- <-]. eauto. }
  destruct m as [[[r T'] g1]|] eqn:Em; cbn [mbind outcome_bind]; [|discriminate].
  destruct (Hm _ _ _ eq_refl) as [W HW]. clear Hm.
  bind_ok base Hbase. bind_ok hl Hhl. intros Hloop.
  exists base, hl, (PERMBU._obtain_ranks r), W, g1.
  split; [reflexivity|]. split.
  { unfold vstack in Hhl. destruct (PERMBU._nonzero_indexes_by_row _); [discriminate|].
    destruct (forallb _ _); [|discriminate]. injection Hhl as <-. discriminate. }
  split.
  { unfold PERMBU._obtain_ranks. rewrite Forall_map.
    eapply Forall_impl; [exact HW|]. intros row Hrow. simpl.
    rewrite <- Hrow. apply rank_row_perm. }
  split; [|exact Hloop].
  exact (reshape3_cells _ _ _ _ _ Hbase (normal_rows_lengths _ _ _)).
Qed.

(** X18. The totals of the samples of [PERMBU.get_samples] follow the
    hierarchy links.  For a generator whose bounded integers respect their
    bound, and a level of the links whose children are parents of no level
    from that one up and whose parents are parents of no level above, the
    total over the samples of a parent, at every horizon step, is the sum of
    the totals of the children in the columns of the links of that parent:
    the rank reordering of the children and the shuffle of the parents
    change which samples are added to which, not what they add up to. *)
Theorem PERMBU_totals_follow_links (me : PERMBU.self) (n : nat) (g : rng)
    (out : tensor) (g' : rng) (hl : list (list nat)) (lev : nat) :
  (forall max g0, (rk_interval max g0).1 <= max) ->
  PERMBU.get_samples me (Some n) g = Ok (out, g') ->
  vstack (PERMBU._nonzero_indexes_by_row (transpose (PERMBU.S me))) = Ok hl ->
  lev < ncols hl - 1 ->
  let children_links :=
    unique pair_ltb (map (fun l => (nth lev l 0, nth (lev + 1) l 0)) hl) in
  let children_idxs := unique Nat.ltb (map snd children_links) in
  let parent_idxs := unique Nat.ltb (map fst children_links) in
  (forall lev' l c, lev' <= lev -> l ∈ hl -> c ∈ children_idxs -> nth lev' l 0 <> c) ->
  (forall lev' l p, lev' < lev -> l ∈ hl -> p ∈ parent_idxs -> nth lev' l 0 <> p) ->
  forall a t, a < length parent_idxs -> t < ncols (PERMBU.y_hat me) ->
    (total (nth t (nth (nth a parent_idxs 0%nat) out []) [])
     == dot (map (fun link : nat * nat =>
                    if nth a parent_idxs 0%nat =? link.1 then 1 else 0) children_links)
            (map (fun c => total (nth t (nth c out []) [])) children_idxs))%Q.
Proof.
  intros Hlaw Hrun Hhl Hlev.
  destruct (PERMBU_get_samples_run _ _ _ _ _ Hrun)
    as (base & hl' & rp & W & g0 & Hhl' & Hne & Hrp & Hbase & Hloop).
  rewrite Hhl in Hhl'. injection Hhl' as <-.
  assert (Hsplit : rev (seq 0 (ncols hl - 1))
                   = rev (seq (Datatypes.S lev) (ncols hl - 1 - Datatypes.S lev))
                     ++ lev :: rev (seq 0 lev)).
  { replace (ncols hl - 1) with (lev + Datatypes.S (ncols hl - 1 - Datatypes.S lev)) at 1
      by lia.
    rewrite seq_app, rev_app_distr. cbn [seq rev Nat.add].
    rewrite <- app_assoc. reflexivity. }
  rewrite Hsplit in Hloop.
  intros children_links children_idxs parent_idxs Hchildren Hparents.
  apply (levels_loop_totals hl rp n (ncols (PERMBU.y_hat me)) W _ lev _ Hlaw Hne Hrp
           base g0 out g' Hbase Hloop).
  - intros l c Hl Hc. now apply (Hchildren lev l c).
  - intros lev' l i Hlev' Hl Hi.
    apply list_elem_of_In, in_rev, in_seq in Hlev'.
    destruct Hi as [Hi|Hi].
    + apply (Hchildren lev' l i); [lia|exact Hl|exact Hi].
    + apply (Hparents lev' l i); [lia|exact Hl|exact Hi].
Qed.


(** ** Replaying the bootstrap *)

Lemma mapM_take {A B} (f : A -> outcome B) (l : list A) (ys : list B) (n : nat) :
  mapM f l = Ok ys -> mapM f (take n l) = Ok (take n ys).
Proof.
  revert ys n. induction l as [|x l IH]; intros ys n; simpl.
  - intros [= <-]. now destruct n.
  - bind_ok y Hy. bind_ok ys' Hys. intros [= <-].
    destruct n as [|n]; [reflexivity|]. simpl. rewrite Hy. cbn [mbind outcome_bind].
    now rewrite (IH _ n eq_refl).
Qed.

(** X19. [Bootstrap.get_samples] seeds a fresh generator on every call, so
    a call with more samples replays the shorter one: for 0 < n <= n', when
    [get_samples(n')] returns then so does [get_samples(n)], and its samples
    are, for every series and horizon step, the first [n] samples of the
    longer call. *)
Theorem Bootstrap_get_samples_replays_stream (me : Bootstrap.self) (n n' : nat)
    (out' : tensor) :
  0 < n -> n <= n' ->
  Bootstrap.get_samples me (Some n') = Ok out' ->
  exists out,
    Bootstrap.get_samples me (Some n) = Ok out /\
    forall i t, nth t (nth i out []) [] = take n (nth t (nth i out' []) []).
Proof.
  intros Hn Hle. unfold Bootstrap.get_samples.
  bind_ok RT HRT. destruct RT as [R T].
  set (h := ncols (Bootstrap.y_hat me)).
  unfold choice.
  destruct ((length (seq 0 (T - h)) =? 0) && negb (n' =? 0)) eqn:Hguard';
    cbn [mbind outcome_bind]; [discriminate|].
  assert (Hguard : (length (seq 0 (T - h)) =? 0) && negb (n =? 0) = false).
  { apply andb_false_iff in Hguard'. apply andb_false_iff.
    destruct Hguard' as [Hg|Hg]; [now left|].
    apply negb_false_iff, Nat.eqb_eq in Hg. lia. }
  rewrite Hguard.
  set (step := fun g : rng =>
         let '(j, g') := rk_interval (length (seq 0 (T - h)) - 1) g in
         (nth j (seq 0 (T - h)) 0, g')).
  pose proof (draws_prefix step n n' (RandomState (Bootstrap.seed me)) Hle) as Hpre.
  pose proof (draws_length step n (RandomState (Bootstrap.seed me))) as Hlen.
  destruct (draws step n' _) as [xs' g1'].
  destruct (draws step n _) as [xs g1]. simpl in Hpre, Hlen. subst xs.
  cbn [mbind outcome_bind iterate].
  bind_ok paths' Hpaths'. bind_ok SP HSP. bind_ok samples' Hs'. intros [= <-].
  rewrite (mapM_take _ _ _ n Hpaths'). cbn [mbind outcome_bind].
  pose proof (mapM_length _ _ _ Hpaths') as Hpl.
  assert (Hxs : n <= length xs').
  { rewrite length_take in Hlen. lia. }
  unfold Bootstrap.apply_along_axis_1 in Hs' |- *.
  destruct paths' as [|p0 paths'']; [discriminate|].
  destruct (h =? 0) eqn:Hh; [discriminate|].
  destruct n as [|n0]; [lia|]. cbn [firstn].
  change (p0 :: take n0 paths'') with (take (Datatypes.S n0) (p0 :: paths'')).
  rewrite (mapM_take _ _ _ (Datatypes.S n0) Hs'). cbn [mbind outcome_bind].
  eexists. split; [reflexivity|].
  intros i t. unfold transpose_120.
  destruct (Nat.lt_ge_cases i (length SP)) as [Hi|Hi].
  - rewrite !(nth_tabulate _ _ i) by exact Hi.
    destruct (Nat.lt_ge_cases t h) as [Ht|Ht].
    + rewrite !(nth_tabulate _ _ t) by exact Ht.
      now rewrite <- firstn_map.
    + rewrite !(nth_overflow (tabulate h _)) by (rewrite tabulate_length; lia).
      now destruct (Datatypes.S n0).
  - rewrite !(nth_overflow (tabulate (length SP) _)) by (rewrite tabulate_length; lia).
    now destruct t.
Qed.

(** ** The hierarchy links *)

(** X20. The hierarchy links PERMBU derives from [S]: when
    [np.vstack(_nonzero_indexes_by_row(S.T))] succeeds, [S] has a column,
    there is one row of links per column of [S] (per bottom series), all of
    one length, and row [j] lists, in increasing order, exactly the indices
    [i] of the rows of [S] with [S[i, j] != 0]. *)
Theorem hier_links_spec (S : matrix) (hl : list (list nat)) :
  vstack (PERMBU._nonzero_indexes_by_row (transpose S)) = Ok hl ->
  0 < ncols S /\ length hl = ncols S /\
  Forall (fun l => length l = ncols hl) hl /\
  forall j, j < ncols S ->
    StronglySorted lt (nth j hl []) /\
    forall i, i ∈ nth j hl [] <-> i < length S /\ ~ (at_ (nth i S []) j == 0)%Q.
Proof.
  unfold vstack.
  destruct (PERMBU._nonzero_indexes_by_row (transpose S)) as [|r rows] eqn:E;
    [discriminate|].
  destruct (forallb _ _) eqn:Hall; [|discriminate]. intros [= <-].
  assert (Hlen : length (r :: rows) = ncols S).
  { rewrite <- E. unfold PERMBU._nonzero_indexes_by_row, transpose.
    now rewrite length_map, tabulate_length. }
  split; [simpl in Hlen; lia|]. split; [exact Hlen|]. split.
  - cbn [ncols]. rewrite forallb_forall in Hall.
    apply Forall_forall. intros l Hl. apply Nat.eqb_eq, Hall. now apply list_elem_of_In.
  - intros j Hj. rewrite <- E. unfold PERMBU._nonzero_indexes_by_row, transpose.
    rewrite (nth_map_lt _ _ _ _ []) by (now rewrite tabulate_length).
    rewrite nth_tabulate by exact Hj.
    split; [apply filter_seq_sorted|].
    intros i. rewrite list_elem_of_filter, elem_of_seq.
    unfold col at 2. rewrite length_map. split.
    + intros [Hnz Hi]. split; [lia|]. intros Hz.
      unfold col, at_ in Hnz. rewrite (nth_map_lt _ _ _ _ []) in Hnz by lia.
      apply Qeq_bool_iff in Hz. unfold at_ in Hz. congruence.
    + intros [Hi Hnz]. split; [|lia].
      unfold col, at_. rewrite (nth_map_lt _ _ _ _ []) by lia.
      destruct (Qeq_bool _ 0) eqn:Eq; [|reflexivity].
      apply Qeq_bool_iff in Eq. contradiction.
Qed.


(** ** Inputs PERMBU cannot sample from *)

Lemma kept_columns_none (R0 : list (list (option Q))) :
  (forall j, j < ncols R0 -> exists r, r ∈ R0 /\ nth j r None = None) ->
  kept_columns R0 = [].
Proof.
  intros Hall. unfold kept_columns. apply elem_of_nil_inv. intros j Hj.
  apply list_elem_of_filter in Hj as [Hc Hj]. apply elem_of_seq in Hj.
  destruct (Hall j ltac:(lia)) as (r & Hr & Hnone).
  exact (proj1 (complete_column_spec R0 j) Hc r Hr Hnone).
Qed.

(** X21. Without a complete residual column there is nothing to rank:
    when every time index has a missing actual or fitted value in some
    series, [PERMBU.get_samples(n)] raises ValueError for every positive
    [n] ([np.random.choice] on an empty population). *)
Theorem PERMBU_no_complete_residual_column (me : PERMBU.self) (n : nat) (g : rng) :
  same_shape (PERMBU.y_insample me) (PERMBU.y_hat_insample me) = true ->
  (forall j, j < ncols (PERMBU.y_insample me) ->
     exists i, i < length (PERMBU.y_insample me) /\
       (nth j (nth i (PERMBU.y_insample me) []) None = None \/
        nth j (nth i (PERMBU.y_hat_insample me) []) None = None)) ->
  0 < n ->
  PERMBU.get_samples me (Some n) g = Raise ValueError.
Proof.
  intros Hshape Hnan Hn. unfold PERMBU.get_samples, residuals_of.
  rewrite (ew2_ok _ _ _ Hshape). cbn [mbind outcome_bind].
  rewrite kept_columns_none.
  - cbn [length py_gt mbind outcome_bind].
    replace (0 <? n) with true by (symmetry; apply Nat.ltb_lt; exact Hn).
    unfold choice. cbn [seq length Nat.eqb andb].
    replace (n =? 0) with false by (symmetry; apply Nat.eqb_neq; lia).
    reflexivity.
  - intros j Hj. rewrite (ncols_zip_with _ _ _ Hshape) in Hj.
    destruct (Hnan j Hj) as (i & Hi & Hnone).
    unfold same_shape in Hshape. apply andb_prop in Hshape. destruct Hshape as [Hlen _].
    apply Nat.eqb_eq in Hlen.
    exists (zip_with sub_nan (nth i (PERMBU.y_insample me) [])
                             (nth i (PERMBU.y_hat_insample me) [])). split.
    + rewrite <- (nth_zip_with (zip_with sub_nan) _ _ i [] [] []) by lia.
      apply list_elem_of_In, nth_In. rewrite length_zip_with. lia.
    + rewrite nth_zip_with_sub_nan.
      destruct Hnone as [-> | ->]; [reflexivity|].
      now destruct (nth j (nth i (PERMBU.y_insample me) []) None).
Qed.

Lemma vstack_ok {A} (rows hl : list (list A)) :
  vstack rows = Ok hl -> hl = rows /\ Forall (fun r => length r = ncols rows) rows.
Proof.
  unfold vstack. destruct rows as [|r rows]; [discriminate|].
  destruct (forallb _ _) eqn:Hall; [|discriminate]. intros [= <-].
  split; [reflexivity|]. rewrite forallb_forall in Hall.
  apply Forall_forall. intros l Hl. apply Nat.eqb_eq, Hall. now apply list_elem_of_In.
Qed.

(** X22. PERMBU needs every bottom series to have the same number of
    ancestors: when two columns of [S] differ in their number of non-zero
    entries, [np.vstack] cannot stack the hierarchy links and
    [PERMBU.get_samples] raises, whatever [num_samples] is. *)
Theorem PERMBU_ragged_hierarchy_raises (me : PERMBU.self) (num_samples : option nat)
    (g : rng) (j j' : nat) :
  let links := PERMBU._nonzero_indexes_by_row (transpose (PERMBU.S me)) in
  j < length links -> j' < length links ->
  length (nth j links []) <> length (nth j' links []) ->
  raises (PERMBU.get_samples me num_samples g).
Proof.
  intros links Hj Hj' Hdiff.
  destruct (PERMBU.get_samples me num_samples g) as [[out g']|e] eqn:Hrun;
    [|unfold raises; eauto].
  exfalso. destruct num_samples as [n|].
  - destruct (PERMBU_get_samples_inv _ _ _ _ _ Hrun) as (base & hl & _ & Hhl & _).
    apply vstack_ok in Hhl as [_ Hall]. fold links in Hall.
    pose proof (nth_Forall _ _ j [] Hall Hj) as H1.
    pose proof (nth_Forall _ _ j' [] Hall Hj') as H2.
    simpl in H1, H2. congruence.
  - revert Hrun. unfold PERMBU.get_samples.
    bind_ok x Hres. destruct x as [R T]. cbn [py_gt mbind outcome_bind]. discriminate.
Qed.


(** ** The entries of Normality's samples *)

(** X23. For an [SP] with one row per series of [y_hat] (so that the draws
    of a step fill [samples[:, :, t]] entry by entry), every sample of
    [Normality.get_samples] is the reconciled mean plus a standard normal
    row through the factor of the reconciled covariance: for every horizon
    step [t] there is the covariance [cov_rec[t]], square and of the size
    of [y_hat], and for every sample [k] a row [z] of that length with
    [out[i, t, k] = (SP @ y_hat[:, t] + z @ factor(cov_rec[t]))[i]]. *)
Theorem Normality_get_samples_entries (me : Normality.self) (n : nat) (out : tensor) :
  length (Normality.SP me) = length (Normality.y_hat me) ->
  Normality.get_samples me (Some n) = Ok out ->
  forall t, t < ncols (Normality.y_hat me) ->
    exists cov : matrix,
      Normality.cov_rec me !! t = Some cov /\
      length cov = ncols cov /\ length cov = length (Normality.y_hat me) /\
      forall k, k < n ->
        exists z : vector,
          length z = length (Normality.y_hat me) /\
          forall i, i < length (Normality.y_hat me) ->
            at_ (nth t (nth i out []) []) k
            = at_ (vadd (matvec (Normality.SP me) (col t (Normality.y_hat me)))
                        (vecmat z (svd_factor cov))) i.
Proof.
  intros _ Hrun t Ht.
  destruct (Normality_get_samples_cells _ _ _ Hrun) as (partials & Hsteps & ->).
  apply draw_steps_Forall2 in Hsteps.
  pose proof (Forall2_nth_lt _ _ _ t 0 [] Hsteps) as Hstep.
  rewrite length_seq, seq_nth in Hstep by exact Ht. specialize (Hstep Ht).
  simpl in Hstep. destruct Hstep as (cov & g1 & g2 & Hmean & Hcov & Hdraw).
  destruct (multivariate_normal_rows _ _ _ _ _ _ Hdraw) as (Hsq & Hlen & Hrows).
  exists cov. split; [exact Hcov|]. split; [exact Hsq|]. split; [congruence|].
  intros k Hk. destruct (Hrows k Hk) as (z & Hz & Hrow).
  exists z. split; [congruence|]. intros i Hi.
  rewrite (nth_tabulate _ _ i) by exact Hi.
  rewrite (nth_tabulate _ _ t) by exact Ht.
  unfold at_ at 1. rewrite nth_tabulate by exact Hk.
  now rewrite Hrow.
Qed.

End Generic.

(** * The samplers on explicit inputs *)

Section Concrete.
Import Demo.

Lemma demo_numerics_laws : NumericsLaws numerics.
Proof.
  split.
  - intros x. simpl. change 0%Q with (inject_Z 0). rewrite <- Zle_Qle.
    apply Z.sqrt_nonneg.
  - intros p q _ Hpq _. simpl. lra.
  - intros cov z Hz. exists z. split; [exact Hz|apply Forall2_Qeq_refl].
  - reflexivity.
Qed.

Lemma S3_summing : summing S3.
Proof. split; [repeat constructor|reflexivity]. Qed.

Lemma P3_rect : rect P3.
Proof. repeat constructor. Qed.

(** C1, the claim as stated: a [PERMBU] sample path that is not coherent.
    With two complete residual columns and two samples, the bottom rows keep
    the base samples [2, 3] and [8, 10] while the total is [11, 12]: the sum
    of the children reordered by their residual ranks, then shuffled. *)
Lemma PERMBU_sample_path_not_coherent :
  exists out g',
    PERMBU.get_samples (permbu None) (Some 2) 0%Z = Ok (out, g') /\
    out = [[[11; 12]]; [[2; 3]]; [[8; 10]]]%Q /\
    ~ coherent S3 (sample_path out 0).
Proof.
  eexists. eexists. split; [vm_compute; reflexivity|]. split; [reflexivity|].
  assert (H0 : 0 < 3) by lia. assert (H1 : 0 < 1) by lia.
  intros Hc. specialize (Hc 0 0 H0 H1). vm_compute in Hc. discriminate.
Qed.

(** C1, on the hierarchy of one total over two bottom series: both samples
    of a [Normality] run and of a [Bootstrap] run are coherent. *)
Lemma Normality_Bootstrap_paths_coherent_witness :
  (exists me out,
     normality [[10]; [4]; [6]]%Q = Ok me /\
     Normality.get_samples me (Some 2) = Ok out /\
     coherent S3 (sample_path out 0) /\ coherent S3 (sample_path out 1)) /\
  (exists out,
     Bootstrap.get_samples (bootstrap insample3 None) (Some 2) = Ok out /\
     coherent S3 (sample_path out 0) /\ coherent S3 (sample_path out 1)).
Proof.
  destruct (Normality_Bootstrap_paths_coherent (G := counter) (Nu := numerics)
              (U := utils)) as [HN HB].
  split.
  - eexists. eexists. split; [vm_compute; reflexivity|].
    split; [vm_compute; reflexivity|].
    split;
      eapply (HN S3 P3 [[10]; [4]; [6]]%Q [[1]; [1]; [1]]%Q I3 0%Z _ 2);
      try apply demo_numerics_laws; try apply S3_summing; try apply P3_rect;
      try (vm_compute; reflexivity); lia.
  - eexists. split; [vm_compute; reflexivity|].
    split; eapply (HB (bootstrap insample3 None) 2);
      try apply S3_summing; try apply P3_rect; try (vm_compute; reflexivity); lia.
Defined.

(** C2 at a failing input: with two complete residual columns, asking
    [PERMBU.get_samples] for one sample raises IndexError, whatever the state
    of numpy's module-level generator; the rank permutations keep the width
    of the residuals, and [_permutate_samples] indexes the flattened samples
    with them. *)
Theorem PERMBU_get_samples_fewer_than_residuals (g : Z) :
  PERMBU.get_samples (permbu None) (Some 1) g = Raise IndexError.
Proof. vm_compute. reflexivity. Qed.

(** X3, with two complete residual columns and one sample. *)
Lemma PERMBU_get_samples_below_residuals_witness :
  raises (PERMBU.get_samples (permbu None) (Some 1) 0%Z).
Proof.
  eapply (PERMBU_get_samples_below_residuals_raises (G := counter)
            (permbu None) 1 0%Z).
  - reflexivity.
  - vm_compute. lia.
  - simpl. lia.
  - intros hl Hhl. vm_compute in Hhl. injection Hhl as <-. simpl. lia.
Defined.

(** C3, the claim as stated: two calls on one instance do not draw from an
    advancing generator; the call with two samples starts, for every series,
    with the sample the call with one sample returned. *)
Lemma Normality_successive_calls_share_prefix :
  exists me,
    normality [[10]; [4]; [6]]%Q = Ok me /\
    Normality.get_samples me (Some 1) = Ok [[[13]]; [[5]]; [[8]]]%Q /\
    Normality.get_samples me (Some 2) = Ok [[[13; 25]]; [[5; 11]]; [[8; 14]]]%Q.
Proof.
  eexists. split; [vm_compute; reflexivity|]. split; vm_compute; reflexivity.
Qed.

(** C3, on one instance, with one and then two samples. *)
Lemma Normality_get_samples_replays_stream_witness :
  exists me out out',
    normality [[10]; [4]; [6]]%Q = Ok me /\
    Normality.get_samples me (Some 1) = Ok out /\
    Normality.get_samples me (Some 2) = Ok out' /\
    forall i, nth 0 (nth i out []) [] = take 1 (nth 0 (nth i out' []) []).
Proof.
  assert (Hrun : exists me out out',
            normality [[10]; [4]; [6]]%Q = Ok me /\
            Normality.get_samples me (Some 1) = Ok out /\
            Normality.get_samples me (Some 2) = Ok out').
  { eexists. eexists. eexists. split; [vm_compute; reflexivity|].
    split; vm_compute; reflexivity. }
  destruct Hrun as (me & out & out' & Hme & Hout & Hout').
  exists me, out, out'. repeat split; try assumption.
  apply (Normality_get_samples_replays_stream (G := counter) (Nu := numerics)
           me 1 2 out out'); [lia|exact Hout|exact Hout'].
Defined.

(** C4 at a failing input: one [PERMBU] instance, one sample count, two
    states of numpy's module-level generator, two different tensors. *)
Theorem PERMBU_get_samples_depends_on_global_generator :
  exists out0 g0 out1 g1,
    PERMBU.get_samples (permbu None) (Some 2) 0%Z = Ok (out0, g0) /\
    PERMBU.get_samples (permbu None) (Some 2) 1%Z = Ok (out1, g1) /\
    out0 = [[[11; 12]]; [[2; 3]]; [[8; 10]]]%Q /\
    out1 = [[[12; 11]]; [[2; 3]]; [[8; 10]]]%Q /\
    out0 <> out1.
Proof.
  do 4 eexists. split; [vm_compute; reflexivity|]. split; [vm_compute; reflexivity|].
  split; [reflexivity|]. split; [reflexivity|]. discriminate.
Qed.

(** C5, with one residual column and a horizon of one step. *)
Lemma Bootstrap_short_residuals_raise_witness :
  raises (Bootstrap.get_samples (bootstrap [[1]; [1]; [5]]%Q None) (Some 2)) /\
  (forall k, Some 2 = Some (Datatypes.S k) ->
     Bootstrap.get_samples (bootstrap [[1]; [1]; [5]]%Q None) (Some 2) = Raise ValueError).
Proof.
  apply (Bootstrap_short_residuals_raise (G := counter)
           (bootstrap [[1]; [1]; [5]]%Q None) (Some 2)
           (some_rows [[1 - 0]; [1 - 0]; [5 - 0]]%Q)).
  - reflexivity.
  - simpl. lia.
Defined.

(** C6, for the levels 80 and 95 around the mean [[10], [4], [6]]. *)
Lemma Normality_get_prediction_levels_witness :
  exists me (res' : gmap string value) (lo hi : matrix),
    normality [[10]; [4]; [6]]%Q = Ok me /\
    Normality.get_prediction_levels me {["mean" := Arr2 [[10]; [4]; [6]]%Q]}
      [80; 95]%Z = Ok res' /\
    res' !! "sigmah" = Some (Arr2 (Normality.sigmah_rec me)) /\
    res' !! lo_key 80 = Some (Arr2 lo) /\
    res' !! hi_key 80 = Some (Arr2 hi) /\
    meq (zip_with (zip_with Qminus) hi [[10]; [4]; [6]]%Q)
        (zip_with (zip_with Qminus) [[10]; [4]; [6]]%Q lo).
Proof.
  assert (Hinit : exists me, normality [[10]; [4]; [6]]%Q = Ok me
                             /\ Normality.sigmah_rec me = [[1]; [1]; [1]]%Q).
  { eexists. split; vm_compute; reflexivity. }
  destruct Hinit as (me & Hme & Hsig).
  destruct (Normality_get_prediction_levels_spec (Nu := numerics) me
              {["mean" := Arr2 [[10]; [4]; [6]]%Q]} [[10]; [4]; [6]]%Q [80; 95]%Z)
    as (res' & Hrun & Hsigmah & _ & Hlv).
  - apply lookup_singleton_eq.
  - rewrite Hsig. reflexivity.
  - repeat constructor; lia.
  - destruct (Hlv 80%Z) as (lo & hi & Hlo & Hhi & _ & _ & Hsym).
    { apply elem_of_cons. now left. }
    exists me, res', lo, hi. auto 10.
Defined.

(** C6, the claim as stated: in float64 the two half-widths are not equal.
    For [res['mean'] = [[4]]], [sigmah_rec = [[1]]] and the level 80, whose
    multiplier [norm.ppf(0.9)] is the double 1.2815515655446004
    ([0x1.4813c36e26d32p+0]): ['hi-80'] is [4 + z] rounded, and [hi - mean]
    comes out as 1.2815515655445999, below [z], while [mean - lo] is [z]
    itself. *)
Lemma Normality_bounds_differ_in_float64 :
  Float64.minus (Float64.hi_of [[4%float]] 0x1.4813c36e26d32p+0%float [[1%float]])
                [[4%float]]
  = [[0x1.4813c36e26d30p+0%float]] /\
  Float64.minus [[4%float]]
                (Float64.lo_of [[4%float]] 0x1.4813c36e26d32p+0%float [[1%float]])
  = [[0x1.4813c36e26d32p+0%float]] /\
  Float64.all_equal
    (Float64.minus (Float64.hi_of [[4%float]] 0x1.4813c36e26d32p+0%float [[1%float]])
                   [[4%float]])
    (Float64.minus [[4%float]]
                   (Float64.lo_of [[4%float]] 0x1.4813c36e26d32p+0%float [[1%float]]))
  = false.
Proof. vm_compute. repeat split. Qed.


(** X1, on a run with two samples. *)
Lemma Normality_get_samples_shape_witness :
  exists me out,
    normality [[10]; [4]; [6]]%Q = Ok me /\
    Normality.get_samples me (Some 2) = Ok out /\
    has_shape3 out 3 1 2.
Proof.
  assert (Hrun : exists me out,
            normality [[10]; [4]; [6]]%Q = Ok me /\
            Normality.get_samples me (Some 2) = Ok out /\
            Normality.y_hat me = [[10]; [4]; [6]]%Q).
  { eexists. eexists. split; [vm_compute; reflexivity|].
    split; [vm_compute; reflexivity|reflexivity]. }
  destruct Hrun as (me & out & Hme & Hout & Hy).
  exists me, out. split; [exact Hme|]. split; [exact Hout|].
  pose proof (Normality_get_samples_shape (G := counter) (Nu := numerics) me 2 out Hout)
    as Hshape.
  rewrite Hy in Hshape. exact Hshape.
Defined.

(** X2, on a run with two samples. *)
Lemma Bootstrap_get_samples_shape_witness :
  exists out k,
    Bootstrap.get_samples (bootstrap insample3 None) (Some 2) = Ok out /\
    Some 2 = Some k /\ 0 < k /\ has_shape3 out 3 1 k.
Proof.
  assert (Hrun : exists out,
            Bootstrap.get_samples (bootstrap insample3 None) (Some 2) = Ok out).
  { eexists. vm_compute. reflexivity. }
  destruct Hrun as (out & Hout).
  destruct (Bootstrap_get_samples_shape (G := counter) _ _ out Hout)
    as (k & Hk & Hpos & Hshape).
  exists out, k. auto.
Defined.


(** C9, on the example: [Normality]'s constructor refuses [S], of two
    columns, with a [P] of three rows, and a [sigmah] of two rows with a
    [P] of three columns; it accepts the example with a [y_hat] of two
    rows, which [get_samples] then refuses. *)
Lemma dimension_mismatches_and_constructors_witness :
  Normality.__init__ S3 I3 [[10]; [4]; [6]]%Q [[1]; [1]; [1]]%Q I3 0 = Raise ValueError /\
  raises (Normality.__init__ S3 P3 [[10]; [4]; [6]]%Q [[1]; [1]]%Q I3 0) /\
  exists me,
    Normality.__init__ S3 P3 [[10]; [4]]%Q [[1]; [1]; [1]]%Q I3 0 = Ok me /\
    Normality.get_samples me (Some 2) = Raise ValueError.
Proof.
  destruct (dimension_mismatches_and_constructors (G := counter) (Nu := numerics)
              (U := utils)) as (HSP & HPs & _ & Hy & Hrun & _).
  split; [|split].
  - apply HSP; [discriminate|vm_compute; discriminate].
  - apply HPs; [discriminate|discriminate|vm_compute; discriminate].
  - assert (Hinit : exists me, normality [[10]; [4]; [6]]%Q = Ok me).
    { eexists. vm_compute. reflexivity. }
    destruct Hinit as (me0 & Hme0).
    destruct (proj1 (Hy S3 P3 [[10]; [4]; [6]]%Q [[10]; [4]]%Q [[1]; [1]; [1]]%Q I3 0%Z)
                me0 Hme0) as (me & Hme & Hyhat).
    exists me. split; [exact Hme|].
    assert (HSPme : Normality.SP me = [[0; 1; 1]; [0; 1; 0]; [0; 0; 1]]%Q).
    { revert Hme. vm_compute. now intros [= <-]. }
    apply Hrun.
    + rewrite HSPme. discriminate.
    + rewrite Hyhat. simpl. lia.
    + rewrite HSPme, Hyhat. simpl. lia.
Defined.

(** C9, the claim as stated: [S] with two columns and [P] with three rows
    are accepted by [Bootstrap]'s constructor; the mismatch raises when
    samples are drawn. *)
Lemma Bootstrap_init_accepts_mismatch :
  ncols S3 <> length I3 /\
  exists me,
    Bootstrap.__init__ S3 I3 [[10]; [4]; [6]]%Q (some_rows insample3)
      (some_rows (map (map (fun _ => 0%Q)) insample3)) (Some 100) 0 None = Ok me /\
    Bootstrap.get_samples me (Some 2) = Raise ValueError.
Proof.
  split; [vm_compute; discriminate|].
  eexists. split; [reflexivity|]. vm_compute. reflexivity.
Qed.

(** C10, on an instance built with the default [num_samples]. *)
Lemma PERMBU_get_samples_None_witness :
  PERMBU.get_samples (permbu None) None 0%Z = Raise TypeError /\
  (PERMBU.num_samples (permbu None) = None ->
   forall res level quantiles,
     PERMBU.get_prediction_levels (permbu None) res level 0%Z = Raise TypeError /\
     PERMBU.get_prediction_quantiles (permbu None) res quantiles 0%Z = Raise TypeError).
Proof.
  apply (proj2 (PERMBU_get_samples_None_raises (G := counter) (permbu None) 0%Z)).
  reflexivity.
Defined.

(** X4, on the example of the docstring of [_obtain_ranks]. *)
Lemma obtain_ranks_are_rankings_witness :
  PERMBU._obtain_ranks [[4; 2; 7; 1]]%Q = [[2; 1; 3; 0]] /\
  nth 3 (nth 0 (PERMBU._obtain_ranks [[4; 2; 7; 1]]%Q) []) 0
  < nth 1 (nth 0 (PERMBU._obtain_ranks [[4; 2; 7; 1]]%Q) []) 0.
Proof.
  split; [reflexivity|].
  destruct (obtain_ranks_are_rankings [[4; 2; 7; 1]]%Q) as [_ H].
  destruct (H 0 ltac:(simpl; lia)) as (_ & _ & Hord).
  apply (Hord 3 1); [simpl; lia|simpl; lia|reflexivity].
Defined.

(** X5, on two rows of two samples. *)
Lemma permutate_samples_reorders_rows_witness :
  exists out,
    PERMBU._permutate_samples [[1; 2]; [3; 4]]%Q [[1; 0]; [0; 1]] = Ok out /\
    length out = 2 /\
    forall r, r < 2 ->
      length (nth r out []) = 2 /\
      (forall k, k < 2 ->
         at_ (nth r out []) k
         = at_ (nth r [[1; 2]; [3; 4]]%Q []) (nth k (nth r [[1; 0]; [0; 1]] []) 0)) /\
      (nth r [[1; 0]; [0; 1]] [] ≡ₚ seq 0 2 -> nth r out [] ≡ₚ nth r [[1; 2]; [3; 4]]%Q []).
Proof.
  apply (permutate_samples_reorders_rows [[1; 2]; [3; 4]]%Q [[1; 0]; [0; 1]] 2);
    [reflexivity|repeat constructor|repeat constructor].
Defined.

(** X6, on two series, one step and two samples. *)
Lemma permutate_predictions_reorders_cells_witness :
  exists out,
    PERMBU._permutate_predictions [[[1; 2]]; [[3; 4]]]%Q [[1; 0]; [0; 1]] = Ok out /\
    has_shape3 out 2 1 2 /\
    forall i t, i < 2 -> t < 1 ->
      (forall k, k < 2 ->
         at_ (nth t (nth i out []) []) k
         = at_ (nth t (nth i [[[1; 2]]; [[3; 4]]]%Q []) [])
               (nth k (nth i [[1; 0]; [0; 1]] []) 0)) /\
      (nth i [[1; 0]; [0; 1]] [] ≡ₚ seq 0 2 ->
       nth t (nth i out []) [] ≡ₚ nth t (nth i [[[1; 2]]; [[3; 4]]]%Q []) []).
Proof.
  apply (permutate_predictions_reorders_cells [[[1; 2]]; [[3; 4]]]%Q [[1; 0]; [0; 1]] 1 2);
    [reflexivity|repeat constructor|repeat constructor].
Defined.

(** X7, on a run with two samples. *)
Lemma PERMBU_get_samples_shape_witness :
  exists out g',
    PERMBU.get_samples (permbu None) (Some 2) 0%Z = Ok (out, g') /\
    has_shape3 out 3 1 2.
Proof.
  assert (Hrun : exists out g',
            PERMBU.get_samples (permbu None) (Some 2) 0%Z = Ok (out, g')).
  { eexists. eexists. vm_compute. reflexivity. }
  destruct Hrun as (out & g' & Hrun). exists out, g'. split; [exact Hrun|].
  apply (PERMBU_get_samples_shape (G := counter) (permbu None) 2 0%Z out g' Hrun).
Defined.

(** X8, on the same run. *)
Lemma PERMBU_get_samples_keeps_bottom_draws_witness :
  exists out g' base hl,
    PERMBU.get_samples (permbu None) (Some 2) 0%Z = Ok (out, g') /\
    PERMBU.reshape3
      (normal_rows (zip (concat (PERMBU.y_hat (permbu None)))
                        (concat (PERMBU.sigmah (permbu None)))) 2
                   (RandomState (PERMBU.seed (permbu None)))) 3 1 2 = Ok base /\
    vstack (PERMBU._nonzero_indexes_by_row (transpose S3)) = Ok hl /\
    forall i, (forall l lev, l ∈ hl -> lev < ncols hl - 1 -> nth lev l 0 <> i) ->
              out !! i = base !! i.
Proof.
  assert (Hrun : exists out g',
            PERMBU.get_samples (permbu None) (Some 2) 0%Z = Ok (out, g')).
  { eexists. eexists. vm_compute. reflexivity. }
  destruct Hrun as (out & g' & Hrun).
  destruct (PERMBU_get_samples_keeps_bottom_draws (G := counter) (permbu None) 2 0%Z
              out g' Hrun) as (base & hl & Hb & Hh & Hfr).
  exists out, g', base, hl. auto.
Defined.

(** X9, for the level 80 on one run of each sampler. *)
Lemma sample_prediction_levels_witness :
  (exists res' samples,
     Bootstrap.get_prediction_levels (bootstrap insample3 (Some 2)) ∅ [80%Z] = Ok res' /\
     Bootstrap.get_samples (bootstrap insample3 (Some 2)) (Some 2) = Ok samples /\
     level_intervals samples [80%Z] ∅ res') /\
  (exists res' g' samples,
     PERMBU.get_prediction_levels (permbu (Some 2)) ∅ [80%Z] 0%Z = Ok (res', g') /\
     PERMBU.get_samples (permbu (Some 2)) (Some 2) 0%Z = Ok (samples, g') /\
     level_intervals samples [80%Z] ∅ res').
Proof.
  destruct (sample_prediction_levels_spec (G := counter) [80%Z]) as (HB & HP).
  split.
  - assert (Hrun : exists res',
              Bootstrap.get_prediction_levels (bootstrap insample3 (Some 2)) ∅ [80%Z]
              = Ok res').
    { eexists. vm_compute. reflexivity. }
    destruct Hrun as (res' & Hres).
    destruct (HB _ _ res' Hres) as (samples & Hs & Hli & _).
    exists res', samples. auto.
  - assert (Hrun : exists res' g',
              PERMBU.get_prediction_levels (permbu (Some 2)) ∅ [80%Z] 0%Z
              = Ok (res', g')).
    { eexists. eexists. vm_compute. reflexivity. }
    destruct Hrun as (res' & g' & Hres).
    destruct (HP _ _ _ res' g' Hres) as (samples & Hs & Hli & _).
    exists res', g', samples. auto.
Defined.

(** X10, for the levels 50 and 80. *)
Lemma sample_intervals_nested_witness :
  (exists (res' : gmap string value) (lo hi lo' hi' : matrix),
     Bootstrap.get_prediction_levels (bootstrap insample3 (Some 2)) ∅ [50; 80]%Z = Ok res' /\
     res' !! lo_key 50 = Some (Arr2 lo) /\ res' !! hi_key 50 = Some (Arr2 hi) /\
     res' !! lo_key 80 = Some (Arr2 lo') /\ res' !! hi_key 80 = Some (Arr2 hi') /\
     Forall2 (Forall2 Qle) lo' lo /\ Forall2 (Forall2 Qle) hi hi') /\
  (exists (res' : gmap string value) (g' : Z) (lo hi lo' hi' : matrix),
     PERMBU.get_prediction_levels (permbu (Some 2)) ∅ [50; 80]%Z 0%Z = Ok (res', g') /\
     res' !! lo_key 50 = Some (Arr2 lo) /\ res' !! hi_key 50 = Some (Arr2 hi) /\
     res' !! lo_key 80 = Some (Arr2 lo') /\ res' !! hi_key 80 = Some (Arr2 hi') /\
     Forall2 (Forall2 Qle) lo' lo /\ Forall2 (Forall2 Qle) hi hi').
Proof.
  destruct (sample_intervals_nested (G := counter) [50; 80]%Z 50 80) as (HB & HP).
  - apply elem_of_cons. now left.
  - apply elem_of_cons. right. apply elem_of_cons. now left.
  - lia.
  - split.
    + assert (Hrun : exists res',
                Bootstrap.get_prediction_levels (bootstrap insample3 (Some 2)) ∅
                  [50; 80]%Z = Ok res').
      { eexists. vm_compute. reflexivity. }
      destruct Hrun as (res' & Hres).
      destruct (HB _ _ res' Hres) as (lo & hi & lo' & hi' & H).
      exists res', lo, hi, lo', hi'. tauto.
    + assert (Hrun : exists res' g',
                PERMBU.get_prediction_levels (permbu (Some 2)) ∅ [50; 80]%Z 0%Z
                = Ok (res', g')).
      { eexists. eexists. vm_compute. reflexivity. }
      destruct Hrun as (res' & g' & Hres).
      destruct (HP _ _ _ res' g' Hres) as (lo & hi & lo' & hi' & H).
      exists res', g', lo, hi, lo', hi'. tauto.
Defined.

(** X11, on the three series of the example. *)
Lemma Normality_init_shapes_witness :
  exists me,
    normality [[10]; [4]; [6]]%Q = Ok me /\
    length (Normality.cov_rec me) = 1 /\
    Forall (fun cov => length cov = 3 /\ Forall (fun r => length r = 3) cov)
           (Normality.cov_rec me) /\
    length (Normality.sigmah_rec me) = 3 /\
    Forall (fun r => length r = 1) (Normality.sigmah_rec me).
Proof.
  assert (Hrun : exists me, normality [[10]; [4]; [6]]%Q = Ok me).
  { eexists. vm_compute. reflexivity. }
  destruct Hrun as (me & Hme). exists me. split; [exact Hme|].
  destruct (Normality_init_shapes (Nu := numerics) (U := utils)
              S3 P3 [[10]; [4]; [6]]%Q [[1]; [1]; [1]]%Q I3 0 me)
    as (_ & _ & _ & Hc & Hcov & Hl & Hr);
    [discriminate|discriminate|discriminate|exact Hme|].
  auto.
Defined.

(** X12, on a run with two samples. *)
Lemma Bootstrap_paths_are_residual_blocks_witness :
  exists out (R : matrix) (T : nat) (starts : list nat),
    Bootstrap.get_samples (bootstrap insample3 None) (Some 2) = Ok out /\
    residuals_of (Bootstrap.y_insample (bootstrap insample3 None))
                 (Bootstrap.y_hat_insample (bootstrap insample3 None)) = Ok (R, T) /\
    length starts = 2 /\
    Forall (fun idx => idx + 1 < T) starts.
Proof.
  assert (Hrun : exists out,
            Bootstrap.get_samples (bootstrap insample3 None) (Some 2) = Ok out).
  { eexists. vm_compute. reflexivity. }
  destruct Hrun as (out & Hout).
  destruct (Bootstrap_paths_are_residual_blocks (G := counter) _ 2 out Hout)
    as (R & T & starts & HR & Hlen & Hstarts & _).
  exists out, R, T, starts. auto.
Defined.

(** X13, on one series with a missing actual value at the second time index. *)
Lemma residuals_keep_complete_columns_witness :
  exists (R : matrix) (T : nat) (kept : list nat),
    residuals_of [[Some 1; None; Some 3]]%Q [[Some 0; Some 0; Some 1]]%Q = Ok (R, T) /\
    length kept = T /\ StronglySorted lt kept /\
    (1 ∈ kept <->
     1 < 3 /\
     forall i, i < 1 ->
       nth 1 (nth i [[Some 1; None; Some 3]]%Q []) None <> None /\
       nth 1 (nth i [[Some 0; Some 0; Some 1]]%Q []) None <> None).
Proof.
  assert (Hrun : exists R T,
            residuals_of [[Some 1; None; Some 3]]%Q [[Some 0; Some 0; Some 1]]%Q
            = Ok (R, T)).
  { eexists. eexists. vm_compute. reflexivity. }
  destruct Hrun as (R & T & Hrun).
  destruct (residuals_keep_complete_columns _ _ R T Hrun)
    as (kept & Hlen & _ & Hsorted & Hkept & _).
  exists R, T, kept. split; [exact Hrun|]. split; [exact Hlen|].
  split; [exact Hsorted|]. apply (Hkept 1).
Defined.

(** X15, for the level 80. *)
Lemma Normality_quantile_is_upper_bound_witness :
  exists me (resL resQ : gmap string value) (hi : matrix),
    normality [[10]; [4]; [6]]%Q = Ok me /\
    Normality.get_prediction_levels me {["mean" := Arr2 [[10]; [4]; [6]]%Q]} [80%Z]
    = Ok resL /\
    Normality.get_prediction_quantiles me {["mean" := Arr2 [[10]; [4]; [6]]%Q]}
      [((1 # 2) + inject_Z 80 / 200)%Q] = Ok resQ /\
    resL !! hi_key 80 = Some (Arr2 hi) /\
    resQ !! "quantiles" = Some (Arr3 (map (map (fun x => [x])) hi)).
Proof.
  assert (Hrun : exists me resL resQ,
            normality [[10]; [4]; [6]]%Q = Ok me /\
            Normality.get_prediction_levels me {["mean" := Arr2 [[10]; [4]; [6]]%Q]}
              [80%Z] = Ok resL /\
            Normality.get_prediction_quantiles me {["mean" := Arr2 [[10]; [4]; [6]]%Q]}
              [((1 # 2) + inject_Z 80 / 200)%Q] = Ok resQ).
  { eexists. eexists. eexists. split; [vm_compute; reflexivity|].
    split; vm_compute; reflexivity. }
  destruct Hrun as (me & resL & resQ & Hme & HL & HQ).
  destruct (Normality_quantile_is_upper_bound (Nu := numerics) me _ resL resQ 80%Z HL HQ)
    as (hi & Hhi & Hq).
  exists me, resL, resQ, hi. auto.
Defined.

(** X14, on an empty mapping. *)
Lemma Normality_result_mapping_keys_witness :
  exists me,
    normality [[10]; [4]; [6]]%Q = Ok me /\
    Normality.get_prediction_levels me ∅ [80%Z] = Raise KeyError /\
    Normality.get_prediction_quantiles me ∅ [(1 # 2)%Q] = Raise KeyError.
Proof.
  assert (Hrun : exists me, normality [[10]; [4]; [6]]%Q = Ok me).
  { eexists. vm_compute. reflexivity. }
  destruct Hrun as (me & Hme). exists me. split; [exact Hme|].
  destruct (Normality_result_mapping_keys (Nu := numerics) me ∅) as (Hmiss & _ & _).
  destruct (Hmiss (lookup_empty _)) as (Hl & _ & Hq).
  split; [apply Hl|apply Hq].
Defined.

(** X16, for the quartiles 1/4 and 3/4. *)
Lemma sample_prediction_quantiles_witness :
  (exists (res' : gmap string value) samples,
     Bootstrap.get_prediction_quantiles (bootstrap insample3 (Some 2)) ∅
       [1 # 4; 3 # 4]%Q = Ok res' /\
     Bootstrap.get_samples (bootstrap insample3 (Some 2)) (Some 2) = Ok samples /\
     res' = <["quantiles" :=
               Arr3 (map (map (fun a => map (quantile_1d a) [1 # 4; 3 # 4]%Q)) samples)]> ∅) /\
  (exists (res' : gmap string value) (g' : Z) samples,
     PERMBU.get_prediction_quantiles (permbu (Some 2)) ∅ [1 # 4; 3 # 4]%Q 0%Z
     = Ok (res', g') /\
     PERMBU.get_samples (permbu (Some 2)) (Some 2) 0%Z = Ok (samples, g') /\
     res' = <["quantiles" :=
               Arr3 (map (map (fun a => map (quantile_1d a) [1 # 4; 3 # 4]%Q)) samples)]> ∅).
Proof.
  destruct (sample_prediction_quantiles_spec (G := counter) [1 # 4; 3 # 4]%Q) as (HB & HP).
  split.
  - assert (Hrun : exists res',
              Bootstrap.get_prediction_quantiles (bootstrap insample3 (Some 2)) ∅
                [1 # 4; 3 # 4]%Q = Ok res').
    { eexists. vm_compute. reflexivity. }
    destruct Hrun as (res' & Hres).
    destruct (HB _ _ res' Hres) as (samples & Hs & Hq & _).
    exists res', samples. auto.
  - assert (Hrun : exists res' g',
              PERMBU.get_prediction_quantiles (permbu (Some 2)) ∅ [1 # 4; 3 # 4]%Q 0%Z
              = Ok (res', g')).
    { eexists. eexists. vm_compute. reflexivity. }
    destruct Hrun as (res' & g' & Hres).
    destruct (HP _ _ _ res' g' Hres) as (samples & Hs & Hq & _).
    exists res', g', samples. auto.
Defined.

(** X17, for the levels 50 and 80. *)
Lemma Normality_intervals_nested_witness :
  exists me (res' : gmap string value) (lo hi lo' hi' : matrix),
    normality [[10]; [4]; [6]]%Q = Ok me /\
    Normality.get_prediction_levels me {["mean" := Arr2 [[10]; [4]; [6]]%Q]}
      [50; 80]%Z = Ok res' /\
    res' !! lo_key 50 = Some (Arr2 lo) /\ res' !! hi_key 50 = Some (Arr2 hi) /\
    res' !! lo_key 80 = Some (Arr2 lo') /\ res' !! hi_key 80 = Some (Arr2 hi') /\
    Forall2 (Forall2 Qle) lo' lo /\ Forall2 (Forall2 Qle) hi hi'.
Proof.
  assert (Hinit : exists me, normality [[10]; [4]; [6]]%Q = Ok me
                             /\ Normality.sigmah_rec me = [[1]; [1]; [1]]%Q).
  { eexists. split; vm_compute; reflexivity. }
  destruct Hinit as (me & Hme & Hsig).
  destruct (Normality_intervals_nested (Nu := numerics) (U := utils) _ _ _ _ _ _ me
              {["mean" := Arr2 [[10]; [4]; [6]]%Q]} [[10]; [4]; [6]]%Q [50; 80]%Z 50 80
              demo_numerics_laws Hme)
    as (res' & lo & hi & lo' & hi' & H).
  - apply lookup_singleton_eq.
  - rewrite Hsig. reflexivity.
  - apply elem_of_cons. now left.
  - apply elem_of_cons. right. apply elem_of_cons. now left.
  - lia.
  - lia.
  - lia.
  - exists me, res', lo, hi, lo', hi'. tauto.
Defined.


(** The bounded integers of the counter respect their bound. *)
Lemma counter_interval_bound (max : nat) (g0 : Z) : (rk_interval max g0).1 <= max.
Proof.
  simpl. pose proof (Z.mod_pos_bound g0 (Z.of_nat max + 1) ltac:(lia)). lia.
Qed.

(** X18, on a run with two samples: the total of the top series is the sum
    of the totals of the two bottom series. *)
Lemma PERMBU_totals_follow_links_witness :
  exists out g',
    PERMBU.get_samples (permbu None) (Some 2) 0%Z = Ok (out, g') /\
    (total (nth 0 (nth 0 out []) [])
     == total (nth 0 (nth 1 out []) []) + total (nth 0 (nth 2 out []) []))%Q.
Proof.
  assert (Hrun : exists out g',
            PERMBU.get_samples (permbu None) (Some 2) 0%Z = Ok (out, g')).
  { eexists. eexists. vm_compute. reflexivity. }
  destruct Hrun as (out & g' & Hrun). exists out, g'. split; [exact Hrun|].
  pose proof (PERMBU_totals_follow_links (G := counter) (permbu None) 2 0%Z out g'
                [[0; 1]; [0; 2]] 0 counter_interval_bound Hrun eq_refl
                ltac:(simpl; lia)) as Ht.
  cbv zeta in Ht.
  assert (Hc : forall lev' l c, lev' <= 0 -> l ∈ [[0; 1]; [0; 2]] -> c ∈ [1; 2] ->
                 nth lev' l 0 <> c).
  { intros lev' l c Hlev Hl Hc. assert (lev' = 0) by lia. subst lev'.
    repeat (apply elem_of_cons in Hl as [->|Hl]); [| |inversion Hl];
      repeat (apply elem_of_cons in Hc as [->|Hc]); try (inversion Hc; fail);
      simpl; lia. }
  assert (Hp : forall lev' (l : list nat) (p : nat), lev' < 0 -> l ∈ [[0; 1]; [0; 2]] ->
                 p ∈ [0] -> nth lev' l 0 <> p).
  { intros lev' l p Hlev. lia. }
  specialize (Ht Hc Hp 0 0 ltac:(simpl; lia) ltac:(simpl; lia)).
  eapply Qeq_trans; [exact Ht|].
  change (dot [1; 1] [total (nth 0 (nth 1 out []) []); total (nth 0 (nth 2 out []) [])]
          == total (nth 0 (nth 1 out []) []) + total (nth 0 (nth 2 out []) []))%Q.
  unfold dot. simpl. ring.
Defined.


(** X19, for one and two samples. *)
Lemma Bootstrap_get_samples_replays_stream_witness :
  exists out out',
    Bootstrap.get_samples (bootstrap insample3 None) (Some 2) = Ok out' /\
    Bootstrap.get_samples (bootstrap insample3 None) (Some 1) = Ok out /\
    forall i t, nth t (nth i out []) [] = take 1 (nth t (nth i out' []) []).
Proof.
  assert (Hrun : exists out',
            Bootstrap.get_samples (bootstrap insample3 None) (Some 2) = Ok out').
  { eexists. vm_compute. reflexivity. }
  destruct Hrun as (out' & Hrun).
  destruct (Bootstrap_get_samples_replays_stream (G := counter)
              (bootstrap insample3 None) 1 2 out' ltac:(lia) ltac:(lia) Hrun)
    as (out & Hout & Hpre).
  exists out, out'. auto.
Defined.

(** X20, on the summing matrix of the example. *)
Lemma hier_links_spec_witness :
  exists hl,
    vstack (PERMBU._nonzero_indexes_by_row (transpose S3)) = Ok hl /\
    length hl = 2 /\ Forall (fun l => length l = ncols hl) hl /\
    StronglySorted lt (nth 1 hl []).
Proof.
  assert (Hrun : exists hl,
            vstack (PERMBU._nonzero_indexes_by_row (transpose S3)) = Ok hl).
  { eexists. vm_compute. reflexivity. }
  destruct Hrun as (hl & Hrun).
  destruct (hier_links_spec S3 hl Hrun) as (_ & Hl & Hf & Hrows).
  destruct (Hrows 1 ltac:(simpl; lia)) as [Hsorted _].
  exists hl. auto.
Defined.


(** X21, on residuals whose only time index has a missing value. *)
Lemma PERMBU_no_complete_residual_column_witness :
  PERMBU.get_samples
    {| PERMBU.S := S3; PERMBU.P := None; PERMBU.y_hat := [[0]; [0]; [0]]%Q;
       PERMBU.y_insample := [[Some 1]; [None]; [Some 1]]%Q;
       PERMBU.y_hat_insample := [[Some 0]; [Some 0]; [Some 0]]%Q;
       PERMBU.sigmah := [[1]; [1]; [1]]%Q; PERMBU.num_samples := None;
       PERMBU.seed := 0 |} (Some 2) 0%Z
  = Raise ValueError.
Proof.
  apply (PERMBU_no_complete_residual_column (G := counter)).
  - reflexivity.
  - intros j Hj. simpl in Hj. exists 1. split; [simpl; lia|].
    left. assert (j = 0) by lia. subst j. reflexivity.
  - lia.
Defined.

(** X22, on a matrix whose first column has three non-zero entries and
    whose second column has two. *)
Lemma PERMBU_ragged_hierarchy_raises_witness :
  raises (PERMBU.get_samples
            {| PERMBU.S := [[1; 1]; [1; 0]; [1; 1]]%Q; PERMBU.P := None;
               PERMBU.y_hat := [[0]; [0]; [0]]%Q;
               PERMBU.y_insample := [[Some 1]; [Some 1]; [Some 1]]%Q;
               PERMBU.y_hat_insample := [[Some 0]; [Some 0]; [Some 0]]%Q;
               PERMBU.sigmah := [[1]; [1]; [1]]%Q; PERMBU.num_samples := None;
               PERMBU.seed := 0 |} (Some 1) 0%Z).
Proof.
  apply (PERMBU_ragged_hierarchy_raises (G := counter) _ (Some 1) 0%Z 0 1).
  - simpl. lia.
  - simpl. lia.
  - vm_compute. lia.
Defined.


(** X23, on a run with two samples. *)
Lemma Normality_get_samples_entries_witness :
  exists me out (cov : matrix),
    normality [[10]; [4]; [6]]%Q = Ok me /\
    Normality.get_samples me (Some 2) = Ok out /\
    Normality.cov_rec me !! 0 = Some cov /\ length cov = 3.
Proof.
  assert (Hrun : exists me out,
            normality [[10]; [4]; [6]]%Q = Ok me /\
            Normality.get_samples me (Some 2) = Ok out /\
            Normality.y_hat me = [[10]; [4]; [6]]%Q /\
            length (Normality.SP me) = length (Normality.y_hat me)).
  { eexists. eexists. split; [vm_compute; reflexivity|].
    split; [vm_compute; reflexivity|]. split; reflexivity. }
  destruct Hrun as (me & out & Hme & Hout & Hy & Hrows).
  destruct (Normality_get_samples_entries (G := counter) (Nu := numerics) me 2 out
              Hrows Hout 0)
    as (cov & Hcov & _ & Hlen & _).
  { rewrite Hy. simpl. lia. }
  exists me, out, cov. rewrite Hy in Hlen. auto.
Defined.

End Concrete.
